(** * big-number.js: arbitrary-precision integers on limbs of base 2^25

    A shallow embedding of the arithmetic engine of big-number.js, in the
    version that sets [var base=Math.pow(2,25)] and segments its division
    by the prime factors of the base, with the facts of its specification
    that can be settled on it.  The constructor of the older
    src/lib/bignumber.js, which hands back the instance it is given, is
    embedded next to it in the module [Legacy], and the constructor and
    [toString] of the version that keeps its limbs on a power of ten in
    the module [Packed].

    Conventions of the embedding.
    - A JavaScript number that holds an integer is a [Z].  [%] is [Z.rem]
      (the sign follows the dividend) and [Math.floor(x / y)] is [Z.div];
      on limbs below the base every intermediate value stays below 2^53,
      so the floating-point operations of the source are exact there.
      The one variable that leaves that range is [multiplier] in
      [_singleDigit], a power of the base, which is exact up to 2^1000
      and [Infinity] after that.
    - An array of limbs is a [list Z], least-significant limb first, as
      the source stores it.  A loop over the indexes of an array is a
      structural recursion over that list.
    - An object is a record; a method takes the state of its receiver and
      returns the state of the receiver after the call together with the
      object the call returns ([this] or another object).  Every method
      copies its operand first, so that no two objects of a call share
      limbs.
    - The field [number] of a value in an error state is a string.  The
      paths that test, copy or compare that string, or read numbers off
      its characters, are embedded as they are.  A write into the string
      throws, the source being in strict mode: [Abort TypeError].  Where
      arithmetic on its characters writes a limb that is [NaN] into an
      array, of the receiver or of another object of the call, the run
      leaves the integers that the arrays of the model hold.  The source
      goes on from there; the model does not follow it, and says so:
      [Abort NaNLimbs].
    - A [while] loop whose number of rounds is not bounded by a list is
      run on fuel; running out of fuel is a result of its own. *)

From Stdlib Require Import ZArith List String Ascii Bool Lia DecimalString.
From Stdlib Require Import Znumtheory.
Import ListNotations.
Local Open Scope Z_scope.

(** ** The engine's constants *)

(** [var base=Math.pow(2,25);] *)
Definition base : Z := 2 ^ 25.

(** [Number.MAX_SAFE_INTEGER], the largest integer [n] such that [n] and
    [n + 1] are both represented exactly by a JavaScript number. *)
Definition MAX_SAFE_INTEGER : Z := 2 ^ 53 - 1.

Module Factorise.

(** [isprime]: trial division by the primes found so far, as long as
    they are below the square root of the candidate. *)
Fixpoint isprime (primes : list Z) (prime : Z) : bool :=
  match primes with
  | [] => true
  | p :: primes' =>
      if p * p <? prime
      then if Z.rem prime p =? 0 then false else isprime primes' prime
      else true
  end.

(** [do { lastprime = ... } while (!isprime(lastprime))] *)
Fixpoint next_prime (fuel : nat) (primes : list Z) (lastprime : Z)
  : option Z :=
  match fuel with
  | O => None
  | S fuel' =>
      let lastprime := if lastprime =? 2 then 3 else lastprime + 2 in
      if isprime primes lastprime then Some lastprime
      else next_prime fuel' primes lastprime
  end.

(** [while (factorisingbase>1) { ... }] *)
Fixpoint loop (fuel : nat) (result primes : list Z)
         (factorisingbase lastprime : Z) : option (list Z) :=
  match fuel with
  | O => None
  | S fuel' =>
      if factorisingbase >? 1 then
        if Z.rem factorisingbase lastprime =? 0 then
          loop fuel' (result ++ [lastprime]) primes
               (factorisingbase / lastprime) lastprime
        else
          match next_prime fuel' primes lastprime with
          | Some p => loop fuel' result (primes ++ [p]) factorisingbase p
          | None => None
          end
      else Some result
  end.

End Factorise.

(** [var factors=(function() { ... })();] *)
Definition factors : list Z :=
  match Factorise.loop 64 [] [] base 2 with
  | Some result => result
  | None => []
  end.

(** [var errors = { "invalid": ..., "division by zero": ... }] *)
Inductive error_key : Type :=
| invalid
| division_by_zero.

Definition errors (k : error_key) : string :=
  match k with
  | invalid => "Invalid Number"
  | division_by_zero => "Invalid Number - Division By Zero"
  end.

(** ** The data model *)

(** The field [number] holds an array of limbs or, for a value in an
    error state, one of the two strings of [errors]. *)
Inductive number_field : Type :=
| Limbs (l : list Z)
| Sentinel (k : error_key).

(** [rest] is the native number [0] ([None]) until a division stores a
    BigNumber there. *)
#[warnings="-register-all"] Inductive BigNumber : Type :=
  mkBigNumber { number : number_field;
                sign : Z;
                rest : option BigNumber }.

(** The elements of an input array: native numbers and strings. *)
Inductive elem : Type :=
| ENum (n : Z)
| EStr (s : string).

(** What a caller may pass where a number is expected. *)
Inductive input : Type :=
| IUndefined
| INum (n : Z)
| IStr (s : string)
| IArr (a : list elem)
| IBig (b : BigNumber).

(** ** Results *)

(** Why a run leaves the model. *)
Inductive abort : Type :=
| TypeError      (* the source throws: a write into a sentinel string *)
| NaNLimbs       (* a limb is written that is [NaN]; the source goes on *)
| NoRestObject   (* a method is called on [rest] while it is the native 0 *)
| OutOfFuel.     (* a [while] loop did not stop within its fuel *)

Inductive result (A : Type) : Type :=
| Ok (a : A)
| Abort (why : abort).
Arguments Ok {A} a.
Arguments Abort {A} why.

Definition bind {A B : Type} (r : result A) (k : A -> result B) : result B :=
  match r with
  | Ok a => k a
  | Abort why => Abort why
  end.

Notation "x <- r ;; k" := (bind r (fun x => k))
  (at level 61, r at next level, right associativity).
Notation "' p <- r ;; k" := (bind r (fun x => let 'p := x in k))
  (at level 61, p pattern, r at next level, right associativity).

(** The object a method call returns: its receiver, or another object. *)
Inductive ret : Type :=
| RThis
| RNew (b : BigNumber).

Record outcome : Type :=
  mkOutcome { this_after : BigNumber;
              returned : ret }.

(** The state of the object a call returned. *)
Definition ret_value (o : outcome) : BigNumber :=
  match returned o with
  | RThis => this_after o
  | RNew b => b
  end.

(** A call [x.m(...)] made on a local object [x]: whatever [m] returns
    is, for the caller, an object other than its own [this]. *)
Definition on_local (o : outcome) : ret := RNew (ret_value o).

(** ** Limb loops *)

(** The tail of a carry loop: [while (remainder > 0)], each round pushing
    [remainder % base] and keeping [Math.floor(remainder / base)]. *)
Fixpoint carry_out (fuel : nat) (remainder : Z) : list Z :=
  match fuel with
  | O => []
  | S fuel' =>
      if remainder >? 0
      then Z.rem remainder base :: carry_out fuel' (remainder / base)
      else []
  end.

(** Each round divides the carry by the base, so that one round more
    than the binary logarithm of the carry is fuel enough. *)
Definition carry_limbs (remainder : Z) : list Z :=
  carry_out (S (Z.to_nat (Z.log2 remainder))) remainder.

(** [a.number[index] || 0] past the end of the array, and on a limb. *)
Definition or0 (l : list Z) : Z :=
  match l with
  | [] => 0
  | x :: _ => x
  end.

(** The loop of [BigNumber._add]:
    [a.number[index] = (remainder += (a.number[index] || 0) + (b.number[index] || 0)) % base;
     remainder = Math.floor(remainder / base);]
    for [index < length || remainder > 0]. *)
Fixpoint add_tail (b : list Z) (remainder : Z) : list Z :=
  match b with
  | [] => carry_limbs remainder
  | y :: b' =>
      let remainder := remainder + (0 + y) in
      Z.rem remainder base :: add_tail b' (remainder / base)
  end.

Fixpoint add_loop (a b : list Z) (remainder : Z) : list Z :=
  match a with
  | [] => add_tail b remainder
  | x :: a' =>
      let remainder := remainder + (x + or0 b) in
      Z.rem remainder base :: add_loop a' (tl b) (remainder / base)
  end.

(** The loop of [BigNumber._subtract], over the indexes of [a]:
    [a.number[index] -= (b.number[index] || 0) + remainder;
     a.number[index] += (remainder = (a.number[index] < 0) ? 1 : 0) * base;] *)
Fixpoint subtract_loop (a b : list Z) (remainder : Z) : list Z :=
  match a with
  | [] => []
  | x :: a' =>
      let x := x - (or0 b + remainder) in
      let remainder := if x <? 0 then 1 else 0 in
      (x + remainder * base) :: subtract_loop a' (tl b) remainder
  end.

(** The limbs above index 0 with the zero limbs at the top removed. *)
Fixpoint strip (l : list Z) : list Z :=
  match l with
  | [] => []
  | x :: l' =>
      match strip l' with
      | [] => if x =? 0 then [] else [x]
      | s => x :: s
      end
  end.

(** [while (a[length - index] === 0 && length - index > 0) index++;
     if (index > 0) a.splice(-index);]
    Zero limbs are dropped from the top, the limb at index 0 stays. *)
Definition trim (l : list Z) : list Z :=
  match l with
  | [] => []
  | x :: l' => x :: strip l'
  end.

(** The inner loop of [multiply] past the limbs of [bigNumber], where it
    goes on as long as [remainder > 0]. *)
Fixpoint multiply_carry (x : Z) (result : list Z) (remainder : Z) : list Z :=
  match result with
  | [] => carry_limbs remainder
  | r :: result' =>
      if remainder >? 0 then
        let remainder := remainder + (r + x * 0) in
        Z.rem remainder base :: multiply_carry x result' (remainder / base)
      else result
  end.

(** One round of the outer loop of [multiply]: the inner loop over
    [givenNumberIndex], on the part [result] of the result array that
    starts at [index]:
    [result[index + givenNumberIndex] = (remainder +=
       (result[index + givenNumberIndex] || 0)
       + this.number[index] * (bigNumber.number[givenNumberIndex] || 0)) % base;
     remainder = Math.floor(remainder / base);] *)
Fixpoint multiply_row (x : Z) (b result : list Z) (remainder : Z) : list Z :=
  match b with
  | y :: b' =>
      let remainder := remainder + (or0 result + x * y) in
      Z.rem remainder base :: multiply_row x b' (tl result) (remainder / base)
  | [] => multiply_carry x result remainder
  end.

(** The outer loop of [multiply]; the limb at [index] is final once the
    round for [index] is over. *)
Fixpoint multiply_loop (a b result : list Z) : list Z :=
  match a with
  | [] => result
  | x :: a' =>
      match multiply_row x b result 0 with
      | [] => multiply_loop a' b []
      | r :: result' => r :: multiply_loop a' b result'
      end
  end.

(** The comparison loop of [_compare], from the top limb down, on two
    arrays of the same length given most-significant limb first. *)
Fixpoint compare_loop (sign : Z) (a b : list Z) : Z :=
  match a, b with
  | x :: a', y :: b' =>
      if x >? y then sign
      else if x <? y then sign * -1
      else compare_loop sign a' b'
  | _, _ => 0
  end.

(** ** The constructor on natives and on instances *)

(** [this.number = [0]; return;] with [sign = 1] and [rest = 0]: the value
    of [BigNumber()], [BigNumber(0)] and of every falsy argument. *)
Definition zero : BigNumber := mkBigNumber (Limbs [0]) 1 None.

(** [initialNumber instanceof BigNumber]: the limbs are copied by
    [slice()], which on a sentinel string gives the string back; the sign
    and the reference held by [rest] are copied. *)
Definition copy (initialNumber : BigNumber) : BigNumber :=
  mkBigNumber (number initialNumber) (sign initialNumber) (rest initialNumber).

(** [typeof initialNumber=="number"]:
    [while (initialNumber>0) { this.number.push(initialNumber%base);
       initialNumber=Math.floor(initialNumber/base); }]
    is the carry loop on [Math.abs(initialNumber)]; [!initialNumber]
    has caught [0] before. *)
Definition of_number (initialNumber : Z) : BigNumber :=
  if initialNumber =? 0 then zero
  else mkBigNumber (Limbs (carry_limbs (Z.abs initialNumber)))
                   (if initialNumber <? 0 then -1 else 1) None.

Definition set_number (this : BigNumber) (n : number_field) : BigNumber :=
  mkBigNumber n (sign this) (rest this).

Definition set_sign (this : BigNumber) (s : Z) : BigNumber :=
  mkBigNumber (number this) s (rest this).

Definition set_rest (this : BigNumber) (r : BigNumber) : BigNumber :=
  mkBigNumber (number this) (sign this) (Some r).

(** The helper [abs(number)]: a copy with [sign = 1]. *)
Definition abs_of (number : BigNumber) : BigNumber :=
  set_sign (copy number) 1.

(** [BigNumber.prototype.abs] *)
Definition abs (this : BigNumber) : outcome :=
  mkOutcome (set_sign this 1) RThis.

(** [BigNumber.prototype.isZero]; the first character of a sentinel
    string is [!== 0]. *)
Definition isZero (this : BigNumber) : bool :=
  match number this with
  | Limbs l => forallb (fun x => x =? 0) l
  | Sentinel _ => false
  end.

(** [this.number.length], of an array or of a string. *)
Definition number_length (n : number_field) : Z :=
  match n with
  | Limbs l => Z.of_nat (List.length l)
  | Sentinel k => Z.of_nat (String.length (errors k))
  end.

(** ** Methods on an operand that is already a BigNumber

    Every method starts with [bigNumber = BigNumber(number)]; the
    definitions of this section are the method bodies after that line. *)

(** The number that [>] and [<] take a character of a sentinel string
    for when its other side is a limb, on the characters of ASCII: the
    digit for a digit, 0 for a space or another character of white
    space, and [NaN] ([None]) for every other character; the two strings
    hold letters, spaces and a minus sign. *)
Definition char_number (c : ascii) : option Z :=
  let code := Z.of_N (N_of_ascii c) in
  if (48 <=? code) && (code <=? 57) then Some (code - 48)
  else if (code =? 32) || ((9 <=? code) && (code <=? 13)) then Some 0
  else None.

Definition sentinel_numbers (k : error_key) : list (option Z) :=
  map char_number (list_ascii_of_string (errors k)).

(** The comparison loop of [_compare] where one side is a sentinel
    string, from the top index down: [>] and [<] are both false of a
    [NaN], and the loop goes on to the next index. *)
Fixpoint compare_chars (sign : Z) (a b : list (option Z)) : Z :=
  match a, b with
  | Some x :: a', Some y :: b' =>
      if x >? y then sign
      else if x <? y then sign * -1
      else compare_chars sign a' b'
  | _ :: a', _ :: b' => compare_chars sign a' b'
  | _, _ => 0
  end.

(** [_compare].  Two sentinel strings of the same length are the same
    string and compare equal character by character; a string against
    an array of the same length compares the numbers of its characters
    with the limbs. *)
Definition compare_big (this bigNumber : BigNumber) : result Z :=
  if negb (sign this =? sign bigNumber) then Ok (sign this)
  else if number_length (number this) >? number_length (number bigNumber)
  then Ok (sign this)
  else if number_length (number this) <? number_length (number bigNumber)
  then Ok (sign this * -1)
  else
    match number this, number bigNumber with
    | Limbs a, Limbs b => Ok (compare_loop (sign this) (rev a) (rev b))
    | Sentinel _, Sentinel _ => Ok 0
    | Sentinel k, Limbs b =>
        Ok (compare_chars (sign this) (rev (sentinel_numbers k))
                          (rev (map Some b)))
    | Limbs a, Sentinel k =>
        Ok (compare_chars (sign this) (rev (map Some a))
                          (rev (sentinel_numbers k)))
    end.

Definition lt_big (this bigNumber : BigNumber) : result bool :=
  c <- compare_big this bigNumber ;; Ok (c <? 0).

Definition lte_big (this bigNumber : BigNumber) : result bool :=
  c <- compare_big this bigNumber ;; Ok (c <=? 0).

(** [BigNumber._add(a, b)]: the array [a.number] after the loop.  Where
    [a.number] is a sentinel string the first round of the loop writes
    into it, [a.number[0] = ...], which throws.  Where [b.number] is one,
    its first character, a letter, is joined to [a.number[0] || 0] as
    text, which [% base] turns into the [NaN] that is written at
    index 0. *)
Definition _add (a b : BigNumber) : result number_field :=
  match number a, number b with
  | Limbs la, Limbs lb => Ok (Limbs (add_loop la lb 0))
  | Limbs _, Sentinel _ => Abort NaNLimbs
  | Sentinel _, _ => Abort TypeError
  end.

(** [BigNumber._subtract(a, b)]: the array [a.number] after the loop and
    the removal of the top zeroes.  The loop runs over the indexes of
    [a.number]; on an empty array nothing of [b] is read.  Where
    [a.number] is a sentinel string the first round writes into it,
    [a.number[0] -= ...], which throws; where [b.number] is one, its
    first character, a letter, makes the limb at index 0 a [NaN]. *)
Definition _subtract (a b : BigNumber) : result number_field :=
  match number a, number b with
  | Limbs la, Limbs lb => Ok (Limbs (trim (subtract_loop la lb 0)))
  | Limbs la, Sentinel _ =>
      match la with
      | [] => Ok (Limbs [])
      | _ :: _ => Abort NaNLimbs
      end
  | Sentinel _, _ => Abort TypeError
  end.

(** [subtract] *)
Definition subtract_big (this bigNumber : BigNumber) : result outcome :=
  if negb (sign this =? sign bigNumber) then
    n <- _add this bigNumber ;;
    Ok (mkOutcome (set_number this n) RThis)
  else
    l <- lt_big this (copy bigNumber) ;;
    let this := set_sign this (if l then -1 else 1) in
    c <- lt_big (abs_of this) (copy (abs_of bigNumber)) ;;
    n <- (if c then _subtract bigNumber this else _subtract this bigNumber) ;;
    Ok (mkOutcome (set_number this n) RThis).

(** [add] *)
Definition add_big (this bigNumber : BigNumber) : result outcome :=
  if negb (sign this =? sign bigNumber) then
    if sign this >? 0 then
      subtract_big this (copy (set_sign bigNumber 1))
    else
      let this := set_sign this 1 in
      o <- subtract_big bigNumber (copy this) ;;
      Ok (mkOutcome this (on_local o))
  else
    n <- _add this bigNumber ;;
    Ok (mkOutcome (set_number this n) RThis).

(** [multiply].  A zero operand returns a fresh [BigNumber(0)] and leaves
    the receiver as it is.  Where [this.number] or [bigNumber.number] is
    a sentinel string, the product at index 0 has its first character, a
    letter, for a factor and is [NaN]: the array [result], which is a
    new one, so that nothing throws, has a [NaN] at index 0. *)
Definition multiply_big (this bigNumber : BigNumber) : result outcome :=
  if isZero this || isZero bigNumber then
    Ok (mkOutcome this (RNew (of_number 0)))
  else
    let this := set_sign this (sign this * sign bigNumber) in
    match number this, number bigNumber with
    | Limbs a, Limbs b =>
        Ok (mkOutcome (set_number this (Limbs (multiply_loop a b []))) RThis)
    | _, _ => Abort NaNLimbs
    end.

(** *** Division *)

(** [while (bigNumber.lte(rest)) { result[index]+=divisor;
      rest.subtract(bigNumber); }]
    The state is the object [rest] and the limb [result[index]]. *)
Fixpoint subtract_while (fuel : nat) (bigNumber rest : BigNumber)
         (limb divisor : Z) : result (BigNumber * Z) :=
  match fuel with
  | O => Abort OutOfFuel
  | S fuel' =>
      c <- lte_big bigNumber (copy rest) ;;
      if c then
        o <- subtract_big rest (copy bigNumber) ;;
        subtract_while fuel' bigNumber (this_after o) (limb + divisor) divisor
      else Ok (rest, limb)
  end.

(** [for (var i=0;i<factors.length;i++) { divisor/=factors[i];
      rest.multiply(factors[i]); rest.add(Math.floor(digit/divisor));
      digit=digit%divisor; while ... }]
    A round subtracts the divisor fewer than [factors[i]] times on valid
    operands; the fuel of the inner loop leaves room for that. *)
Fixpoint factor_loop (fs : list Z) (bigNumber rest : BigNumber)
         (divisor digit limb : Z) : result (BigNumber * Z) :=
  match fs with
  | [] => Ok (rest, limb)
  | f :: fs' =>
      let divisor := divisor / f in
      m <- multiply_big rest (of_number f) ;;
      a <- add_big (this_after m) (of_number (digit / divisor)) ;;
      let digit := Z.rem digit divisor in
      '(rest, limb) <- subtract_while (S (Z.to_nat f)) bigNumber
                                      (this_after a) limb divisor ;;
      factor_loop fs' bigNumber rest divisor digit limb
  end.

(** The state of the loop of [divide] over the limbs of the dividend:
    the limbs of [result] set so far (those of the indexes already
    visited), the object [rest] and the native [nativerest]. *)
Record divide_state : Type :=
  mkDivideState { result_limbs : list Z;
                  rest_object : BigNumber;
                  nativerest : Z }.

(** [for (index = this.number.length - 1; index >= 0; index--)]: the limbs
    above [index] are visited before the limb at [index]. *)
Fixpoint divide_loop (nativebigNumber : Z) (bigNumber : BigNumber)
         (limbs : list Z) : result divide_state :=
  match limbs with
  | [] => Ok (mkDivideState [] zero 0)
  | digit :: above =>
      st <- divide_loop nativebigNumber bigNumber above ;;
      if negb (nativebigNumber =? 0) then
        let nativerest := nativerest st * base in
        let nativerest := nativerest + digit in
        let limb := nativerest / nativebigNumber in
        let nativerest := nativerest - limb * nativebigNumber in
        Ok (mkDivideState (limb :: result_limbs st) (rest_object st) nativerest)
      else
        '(rest, limb) <- factor_loop factors bigNumber (rest_object st)
                                     base digit 0 ;;
        Ok (mkDivideState (limb :: result_limbs st) rest (nativerest st))
  end.

(** The loop of [divide] and what follows it, for a given value of the
    variable [nativebigNumber]: a value other than 0 takes the native
    branch at every limb, 0 takes the branch of the BigNumber
    arithmetic.

    Where [this.number] is a sentinel string the loop runs over its
    characters.  The native branch joins the character at the top, a
    letter, to [nativerest] as text, and the limb of the quotient it
    computes from that text is [NaN].  The other branch reads from each
    character [Math.floor(digit/divisor)] and [digit%divisor], which are
    0 for a space and [NaN] for the other characters, and
    [rest.add(NaN)] adds [BigNumber(NaN)], which is zero as
    [BigNumber(0)] is: each character goes the way of a limb 0. *)
Definition divide_body (nativebigNumber : Z) (this bigNumber : BigNumber)
  : result outcome :=
  match number this with
  | Limbs l =>
      st <- divide_loop nativebigNumber bigNumber l ;;
      let result := trim (result_limbs st) in
      let rest := if negb (nativebigNumber =? 0)
                  then of_number (nativerest st)
                  else rest_object st in
      Ok (mkOutcome (set_number (set_rest this rest) (Limbs result)) RThis)
  | Sentinel k =>
      if negb (nativebigNumber =? 0) then Abort NaNLimbs
      else
        st <- divide_loop 0 bigNumber
                          (repeat 0 (String.length (errors k))) ;;
        let result := trim (result_limbs st) in
        Ok (mkOutcome (set_number (set_rest this (rest_object st))
                                  (Limbs result)) RThis)
  end.

(** [var nativebigNumber=bigNumber.number.length==1 ? bigNumber.number[0] : 0;] *)
Definition native_of (bigNumber : BigNumber) : Z :=
  match number bigNumber with
  | Limbs [x] => x
  | _ => 0
  end.

(** [bigNumber.number.length === 1 && bigNumber.number[0] === 1] *)
Definition is_one (bigNumber : BigNumber) : bool :=
  match number bigNumber with
  | Limbs [x] => x =? 1
  | _ => false
  end.

(** [divide] *)
Definition divide_big (this bigNumber : BigNumber) : result outcome :=
  let nativebigNumber := native_of bigNumber in
  if isZero bigNumber then
    Ok (mkOutcome (set_number this (Sentinel division_by_zero)) RThis)
  else if isZero this then
    Ok (mkOutcome this (RNew (of_number 0)))
  else
    let this := set_sign this (sign this * sign bigNumber) in
    let bigNumber := set_sign bigNumber 1 in
    if is_one bigNumber then Ok (mkOutcome this RThis)
    else divide_body nativebigNumber this bigNumber.

(** *** Exponentiation *)

(** [while (number > 0) { if (number % 2 === 1) { this.multiply(bigNumber);
      number--; continue; } bigNumber.multiply(bigNumber);
      number = Math.floor(number / 2); }]
    What [multiply] returns is dropped; the objects [this] and [bigNumber]
    are read again after each call. *)
Fixpoint power_loop (fuel : nat) (number : Z) (this bigNumber : BigNumber)
  : result BigNumber :=
  match fuel with
  | O => Abort OutOfFuel
  | S fuel' =>
      if number >? 0 then
        if Z.rem number 2 =? 1 then
          o <- multiply_big this (copy bigNumber) ;;
          power_loop fuel' (number - 1) (this_after o) bigNumber
        else
          o <- multiply_big bigNumber (copy bigNumber) ;;
          power_loop fuel' (number / 2) this (this_after o)
      else Ok this
  end.

(** [power], on an exponent that is a native integer; [None] is the call
    without argument, which returns [undefined].  On a receiver in an
    error state [bigNumber] is a copy that holds the sentinel string, and
    the first [multiply] of the loop, whichever it is, writes limbs that
    are [NaN]: into [this.number], or into [bigNumber.number], where a
    later [this.multiply(bigNumber)] reads them as 0 by [|| 0]. *)
Definition power (this : BigNumber) (number : option Z)
  : result (option outcome) :=
  match number with
  | None => Ok None
  | Some number =>
      if number =? 0 then Ok (Some (mkOutcome this (RNew (of_number 1))))
      else if number =? 1 then Ok (Some (mkOutcome this RThis))
      else
        let bigNumber := copy this in
        let this := set_number this (Limbs [1]) in
        this <- power_loop (S (2 * Z.to_nat (Z.log2 number + 1)))
                           number this bigNumber ;;
        Ok (Some (mkOutcome this RThis))
  end.

(** *** Decimal output *)

(** [for (var i=0;i<this.number.length && digit<10;i++) {
      digit+=(multiplier*this.number[i]); multiplier*=base; }]
    on limbs from 0 to below the base.  [multiplier] is a double: a power
    of the base is exact as long as it is below 2^1024 and is [Infinity]
    from there on, which is from the index 41 on.  The product of
    [Infinity] and a limb is [NaN] for the limb 0 and [Infinity] for a
    limb above 0; neither passes [digit<10], and the loop ends with a
    [digit] that is no number below 10: [None].  With a [multiplier]
    that is not [Infinity] the sum is exact where the product is 0, and
    is 10 or more, rounded or not, where it is not. *)
Fixpoint singleDigit_loop (l : list Z) (digit multiplier : Z) : option Z :=
  match l with
  | [] => Some digit
  | x :: l' =>
      if digit <? 10 then
        if multiplier <? 2 ^ 1024
        then singleDigit_loop l' (digit + multiplier * x) (multiplier * base)
        else None
      else Some digit
  end.

(** [digit.toString()] on an integer. *)
Definition number_toString (n : Z) : string :=
  NilZero.string_of_int (Z.to_int n).

(** [_singleDigit]: [if (digit<10) return digit.toString(); return "";]
    On a sentinel string the first product is [NaN], which ends the loop
    and fails [digit<10]. *)
Definition _singleDigit (this : BigNumber) : string :=
  match number this with
  | Limbs l =>
      match singleDigit_loop l 0 1 with
      | Some digit => if digit <? 10 then number_toString digit else EmptyString
      | None => EmptyString
      end
  | Sentinel _ => EmptyString
  end.

(** [while(!clone.isZero()) { str=clone.div(ten).rest._singleDigit()+str; }] *)
Fixpoint toString_loop (fuel : nat) (clone ten : BigNumber) (str : string)
  : result string :=
  match fuel with
  | O => Abort OutOfFuel
  | S fuel' =>
      if negb (isZero clone) then
        o <- divide_big clone (copy ten) ;;
        match rest (ret_value o) with
        | Some r =>
            toString_loop fuel' (this_after o) ten (_singleDigit r ++ str)
        | None => Abort NoRestObject
        end
      else Ok str
  end.

(** [toString], alias [val].  A limb below the base is below 10^8, which
    bounds the rounds of the loop on valid limbs by 8 for each limb. *)
Definition toString (this : BigNumber) : result string :=
  match number this with
  | Sentinel k => Ok (errors k)
  | Limbs l =>
      let ten := of_number 10 in
      let clone := this_after (abs (copy this)) in
      str <- toString_loop (S (8 * List.length l)) clone ten EmptyString ;;
      let str := if (String.length str =? 0)%nat then "0"%string else str in
      Ok (if sign this >? 0 then str else "-" ++ str)%string
  end.

(** ** The constructor on strings and arrays *)

(** [parseInt(initialNumber.charAt(index), 10)] on one character: a
    decimal digit, or [NaN] ([None]). *)
Definition parseInt (c : ascii) : option Z :=
  let n := Z.of_N (N_of_ascii c) in
  if (48 <=? n) && (n <=? 57) then Some (n - 48) else None.

(** [addDigit], once [testDigit(digit)] holds and [BigNumber(digit)] is
    built:
    [this.add(BigNumber(digit).mult(multipleoftens));
     multipleoftens.mult(ten);]
    The state is the pair of the objects [this] and [multipleoftens]. *)
Definition addDigit (this multipleoftens digit : BigNumber)
  : result (BigNumber * BigNumber) :=
  let ten := of_number 10 in
  m <- multiply_big digit (copy multipleoftens) ;;
  a <- add_big this (copy (ret_value m)) ;;
  t <- multiply_big multipleoftens (copy ten) ;;
  Ok (this_after a, this_after t).

(** [for (index = initialNumber.length - 1; index >= 0; index--)] on the
    characters of a string, last character first.  The result is the
    object [this] as the loop leaves it, with [false] when [addDigit]
    returned [false] and the loop stopped there. *)
Fixpoint string_loop (chars : list ascii) (this multipleoftens : BigNumber)
  : result (bool * BigNumber) :=
  match chars with
  | [] => Ok (true, this)
  | c :: chars' =>
      match parseInt c with
      | Some digit =>
          '(this, multipleoftens) <-
            addDigit this multipleoftens (of_number digit) ;;
          string_loop chars' this multipleoftens
      | None => Ok (false, this)
      end
  end.

(** The object under construction before its [number] is filled. *)
Definition blank : BigNumber := mkBigNumber (Limbs []) 1 None.

(** The branch of the constructor for a string: a sign character is cut
    off, the digits are added, and [this.sign=sign] comes last; on a
    character that is no digit, [this.number = errors['invalid']]. *)
Definition of_string (initialNumber : string) : result BigNumber :=
  match initialNumber with
  | EmptyString => Ok zero
  | String c tail =>
      let '(sign, digits) :=
        if Ascii.eqb c "-" || Ascii.eqb c "+"
        then (if Ascii.eqb c "+" then 1 else -1, tail)
        else (1, initialNumber) in
      '(ok, this) <- string_loop (rev (list_ascii_of_string digits)) blank
                                 (of_number 1) ;;
      if ok then Ok (set_sign this sign)
      else Ok (set_number this (Sentinel invalid))
  end.

(** [testDigit] on an element of an array: its string form is one
    decimal digit. *)
Definition testDigit (digit : elem) : bool :=
  match digit with
  | ENum n => (0 <=? n) && (n <=? 9)
  | EStr (String c EmptyString) =>
      match parseInt c with Some _ => true | None => false end
  | EStr _ => false
  end.

(** [BigNumber(digit)] on an element of an array. *)
Definition of_elem (digit : elem) : result BigNumber :=
  match digit with
  | ENum n => Ok (of_number n)
  | EStr s => of_string s
  end.

Fixpoint array_loop (elems : list elem) (this multipleoftens : BigNumber)
  : result (bool * BigNumber) :=
  match elems with
  | [] => Ok (true, this)
  | e :: elems' =>
      if testDigit e then
        digit <- of_elem e ;;
        '(this, multipleoftens) <- addDigit this multipleoftens digit ;;
        array_loop elems' this multipleoftens
      else Ok (false, this)
  end.

(** [initialNumber[0] === '-'] and [initialNumber[0] === '+'] *)
Definition is_sign_token (e : elem) (c : string) : bool :=
  match e with
  | EStr s => String.eqb s c
  | ENum _ => false
  end.

(** The branch of the constructor for an array.  The second component
    is the caller's array after the call: [initialNumber.shift(0)] takes
    the sign token out of it. *)
Definition of_array (initialNumber : list elem)
  : result (BigNumber * list elem) :=
  let '(sign, initialNumber) :=
    match initialNumber with
    | e :: tail =>
        if is_sign_token e "-" || is_sign_token e "+"
        then (if is_sign_token e "+" then 1 else -1, tail)
        else (1, initialNumber)
    | [] => (1, initialNumber)
    end in
  '(ok, this) <- array_loop (rev initialNumber) blank (of_number 1) ;;
  if ok then Ok (set_sign this sign, initialNumber)
  else Ok (set_number this (Sentinel invalid), initialNumber).

(** [BigNumber(initialNumber)]: the new object and the argument as the
    call leaves it. *)
Definition new_BigNumber (initialNumber : input) : result (BigNumber * input) :=
  match initialNumber with
  | IUndefined => Ok (zero, IUndefined)
  | INum n => Ok (of_number n, INum n)
  | IStr s => b <- of_string s ;; Ok (b, IStr s)
  | IArr a => '(b, a) <- of_array a ;; Ok (b, IArr a)
  | IBig b => Ok (copy b, IBig b)
  end.

(** ** The public methods *)

(** [if (typeof number === 'undefined') return this;
     bigNumber = BigNumber(number);] and then the body.  What the
    constructor leaves of an array passed as [number] is not followed
    further. *)
Definition method (body : BigNumber -> BigNumber -> result outcome)
           (this : BigNumber) (number : input) : result outcome :=
  match number with
  | IUndefined => Ok (mkOutcome this RThis)
  | _ => '(bigNumber, _) <- new_BigNumber number ;; body this bigNumber
  end.

Definition add : BigNumber -> input -> result outcome := method add_big.
Definition subtract : BigNumber -> input -> result outcome := method subtract_big.
Definition multiply : BigNumber -> input -> result outcome := method multiply_big.
Definition divide : BigNumber -> input -> result outcome := method divide_big.

(** [_compare]: [0] without argument. *)
Definition _compare (this : BigNumber) (number : input) : result Z :=
  match number with
  | IUndefined => Ok 0
  | _ => '(bigNumber, _) <- new_BigNumber number ;; compare_big this bigNumber
  end.

(** [mod]: [return this.divide(number).rest;], the native 0 ([None]) or
    an object. *)
Definition mod_ (this : BigNumber) (number : input)
  : result (option BigNumber) :=
  o <- divide this number ;; Ok (rest (ret_value o)).

(** [BigNumber(x).val()] *)
Definition val_of (x : input) : result string :=
  '(b, _) <- new_BigNumber x ;; toString b.

(** ** The constructor of src/lib/bignumber.js on an instance

    The legacy file keeps one decimal digit per element of [number].  Its
    constructor hands an instance back as it is, unless [newCopy] is
    set; to tell the two cases apart the objects are kept in a store and
    named by their place in it. *)
Module Legacy.

Definition store : Type := list BigNumber.

Definition load (h : store) (l : nat) : option BigNumber := nth_error h l.

Definition alloc (h : store) (b : BigNumber) : store * nat :=
  (h ++ [b], List.length h).

Fixpoint update (h : store) (l : nat) (b : BigNumber) : store :=
  match h, l with
  | [], _ => []
  | _ :: h', O => b :: h'
  | x :: h', S l' => x :: update h' l' b
  end.

(** [toString]: [for (index = this.number.length - 1; index >= 0; index--)
      str += this.number[index];] *)
Definition toString (this : BigNumber) : string :=
  match number this with
  | Sentinel k => errors k
  | Limbs l =>
      let str := fold_left (fun str digit => (str ++ number_toString digit)%string)
                           (rev l) EmptyString in
      if sign this >? 0 then str else ("-" ++ str)%string
  end.

(** [addDigit] over the characters of a string, last character first:
    [this.number.push(digit)], or [None] when [testDigit] fails. *)
Fixpoint push_digits (chars : list ascii) (number : list Z) : option (list Z) :=
  match chars with
  | [] => Some number
  | c :: chars' =>
      match parseInt c with
      | Some digit => push_digits chars' (number ++ [digit])
      | None => None
      end
  end.

(** The constructor on a string. *)
Definition of_string (initialNumber : string) : BigNumber :=
  match initialNumber with
  | EmptyString => zero
  | String c tail =>
      let '(sign, digits) :=
        if Ascii.eqb c "-" || Ascii.eqb c "+"
        then (if Ascii.eqb c "+" then 1 else -1, tail)
        else (1, initialNumber) in
      match push_digits (rev (list_ascii_of_string digits)) [] with
      | Some number => mkBigNumber (Limbs number) sign None
      | None => mkBigNumber (Sentinel invalid) sign None
      end
  end.

(** [new BigNumber(initialNumber, newCopy)] on an instance:
    [return newCopy ? new BigNumber(initialNumber.toString()) : initialNumber;]
    A constructor that returns an object yields that object in place of
    the one [new] had made. *)
Definition construct (h : store) (initialNumber : nat) (newCopy : bool)
  : store * nat :=
  if newCopy then
    match load h initialNumber with
    | Some b => alloc h (of_string (toString b))
    | None => (h, initialNumber)
    end
  else (h, initialNumber).

(** [abs]: [this.sign = 1; return this;] *)
Definition abs (h : store) (this : nat) : store * nat :=
  match load h this with
  | Some b => (update h this (set_sign b 1), this)
  | None => (h, this)
  end.

End Legacy.

(** ** Values and validity *)

(** The integer an array of limbs stands for. *)
Fixpoint mag (l : list Z) : Z :=
  match l with
  | [] => 0
  | x :: l' => x + base * mag l'
  end.

(** A limb of the representation: [0 <= x < base]. *)
Definition limb_ok (x : Z) : bool := (0 <=? x) && (x <? base).

Definition in_range (l : list Z) : bool := forallb limb_ok l.

(** The limb at the top of the array is not zero. *)
Fixpoint top_nonzero (l : list Z) : bool :=
  match l with
  | [] => false
  | [x] => negb (x =? 0)
  | _ :: l' => top_nonzero l'
  end.

(** Canonical form: limbs in range, no zero limb at the top, except for
    the one limb of zero. *)
Definition canonical (l : list Z) : bool :=
  in_range l && (top_nonzero l || match l with [0] => true | _ => false end).

(** A value in the state Valid: canonical limbs and a sign of 1 or -1. *)
Definition valid (b : BigNumber) : bool :=
  match number b with
  | Limbs l => canonical l && ((sign b =? 1) || (sign b =? -1))
  | Sentinel _ => false
  end.

Definition limbs_of (b : BigNumber) : list Z :=
  match number b with
  | Limbs l => l
  | Sentinel _ => []
  end.

Definition magnitude (b : BigNumber) : Z := mag (limbs_of b).

(** The integer a valid BigNumber stands for. *)
Definition value (b : BigNumber) : Z := sign b * magnitude b.

(** The value held by the field [rest]: the native 0 or an object. *)
Definition rest_value (r : option BigNumber) : Z :=
  match r with
  | None => 0
  | Some b => value b
  end.

(** The error state of a value, if it is in one. *)
Definition error_state (b : BigNumber) : option error_key :=
  match number b with
  | Limbs _ => None
  | Sentinel k => Some k
  end.

(** [holds b s v]: the object [b] is in the state Valid, with canonical
    limbs of value [v] and with sign [s]. *)
Definition holds (b : BigNumber) (s v : Z) : Prop :=
  exists l, number b = Limbs l /\ canonical l = true /\ mag l = v /\ sign b = s.

(** The product of the factors the division is segmented by. *)
Definition product (fs : list Z) : Z := fold_right Z.mul 1 fs.

(** The fast path as the specification words it: the limbs are scanned
    from the most significant one, with a native running remainder [r];
    at each limb [r = r*BASE + limb], the limb of the quotient is
    [floor(r / divisor)] and [r] loses that many times the divisor.  The
    state is the quotient limbs found so far, least significant first,
    and [r]. *)
Definition fast_path_step (divisor : Z) (st : list Z * Z) (limb : Z)
  : list Z * Z :=
  let r := snd st * base + limb in
  let quotientLimb := r / divisor in
  (quotientLimb :: fst st, r - quotientLimb * divisor).

Definition fast_path (divisor : Z) (limbs : list Z) : list Z * Z :=
  fold_left (fast_path_step divisor) (rev limbs) ([], 0).

(** ** Decimal strings *)

(** The digit a character stands for, with 0 for any other character,
    and the test that it is a digit. *)
Definition digit_of (c : ascii) : Z :=
  match parseInt c with
  | Some d => d
  | None => 0
  end.

Definition is_digit (c : ascii) : bool :=
  match parseInt c with
  | Some _ => true
  | None => false
  end.

(** The character of a decimal digit. *)
Definition digit_char (d : Z) : ascii := ascii_of_N (Z.to_N (d + 48)).

(** The integer a list of decimal digits stands for, the list starting
    with the least significant digit. *)
Fixpoint decimal_value (digits : list ascii) : Z :=
  match digits with
  | [] => 0
  | c :: digits' => digit_of c + 10 * decimal_value digits'
  end.

(** The value of the digits of a string, read from its last
    character. *)
Definition string_value (t : string) : Z :=
  decimal_value (rev (list_ascii_of_string t)).

(** The decimal digits of a non-negative integer of at most [n] digits,
    most significant first, and none for zero. *)
Fixpoint decimal_digits (n : nat) (v : Z) : string :=
  match n with
  | O => EmptyString
  | S n' =>
      if v =? 0 then EmptyString
      else (decimal_digits n' (v / 10) ++ number_toString (v mod 10))%string
  end.

Definition all_digits (s : string) : bool :=
  forallb is_digit (list_ascii_of_string s).

(** A valid decimal string: an optional sign, then one digit or more. *)
Definition valid_decimal (s : string) : bool :=
  match s with
  | String c t =>
      if Ascii.eqb c "-" || Ascii.eqb c "+"
      then match t with EmptyString => false | _ => all_digits t end
      else all_digits s
  | EmptyString => false
  end.

(** The digits of a decimal string, after its sign. *)
Definition digits_part (s : string) : string :=
  match s with
  | String c t => if Ascii.eqb c "-" || Ascii.eqb c "+" then t else s
  | EmptyString => s
  end.

(** The sign-normalized form of a decimal string, in the words of the
    specification: a leading '+' dropped, leading zeros removed, and zero
    as "0" without sign. *)
Fixpoint drop_zeros (s : string) : string :=
  match s with
  | String c s' => if Ascii.eqb c "0" then drop_zeros s' else s
  | EmptyString => EmptyString
  end.

Definition normalize (s : string) : string :=
  let '(negative, digits) :=
    match s with
    | String c s' =>
        if Ascii.eqb c "-" then (true, s')
        else if Ascii.eqb c "+" then (false, s')
        else (false, s)
    | EmptyString => (false, s)
    end in
  match drop_zeros digits with
  | EmptyString => "0"%string
  | d => if negative then String "-" d else d
  end.

(** A minus sign in front of zeros only. *)
Definition negative_zero (s : string) : bool :=
  match s with
  | String c t =>
      Ascii.eqb c "-" &&
      match drop_zeros t with EmptyString => true | _ => false end
  | EmptyString => false
  end.

(** An array that starts with a sign token. *)
Definition has_sign_token (x : input) : bool :=
  match x with
  | IArr (e :: _) => is_sign_token e "-" || is_sign_token e "+"
  | _ => false
  end.

(** ** Invariants of the loops *)

(** The object under construction from a string or an array: still
    without limbs, or valid with the value of the digits added so far. *)
Definition partial (this : BigNumber) (v : Z) : Prop :=
  (number this = Limbs [] /\ sign this = 1 /\ v = 0) \/ holds this 1 v.

(** The rounds the loop of [power] needs on an exponent, the last one
    for the test that ends it. *)
Definition rounds (n : Z) : Z :=
  if n <=? 0 then 1
  else if Z.odd n then 2 * Z.log2 n + 2 else 2 * Z.log2 n + 1.

(** ** The comparison methods and further notions *)

(** [gt], [gte], [equals], [lte] and [lt]: each one tests the number that
    [_compare] returns. *)
Definition gt (this : BigNumber) (number : input) : result bool :=
  c <- _compare this number ;; Ok (c >? 0).

Definition gte (this : BigNumber) (number : input) : result bool :=
  c <- _compare this number ;; Ok (c >=? 0).

Definition equals (this : BigNumber) (number : input) : result bool :=
  c <- _compare this number ;; Ok (c =? 0).

Definition lte (this : BigNumber) (number : input) : result bool :=
  c <- _compare this number ;; Ok (c <=? 0).

Definition lt (this : BigNumber) (number : input) : result bool :=
  c <- _compare this number ;; Ok (c <? 0).

(** A valid value whose zero has the sign 1. *)
Definition well_formed (b : BigNumber) : bool :=
  valid b && (negb (magnitude b =? 0) || (sign b =? 1)).

(** The sign a decimal string asks for: -1 after a minus sign. *)
Definition sign_part (s : string) : Z :=
  match s with
  | String c _ => if Ascii.eqb c "-" then -1 else 1
  | EmptyString => 1
  end.

(** The digit an element of an array stands for, with 0 for an element
    that is no digit. *)
Definition elem_digit (e : elem) : Z :=
  match e with
  | ENum n => n
  | EStr (String c EmptyString) => digit_of c
  | EStr _ => 0
  end.

(** The integer that elements stand for as decimal digits, the list
    starting with the least significant one. *)
Fixpoint array_value (elems : list elem) : Z :=
  match elems with
  | [] => 0
  | e :: elems' => elem_digit e + 10 * array_value elems'
  end.

(** The elements of an array after its sign token, and the sign that the
    token asks for. *)
Definition array_digits (a : list elem) : list elem :=
  match a with
  | e :: tail => if is_sign_token e "-" || is_sign_token e "+" then tail else a
  | [] => a
  end.

Definition array_sign (a : list elem) : Z :=
  match a with
  | e :: _ => if is_sign_token e "-" then -1 else 1
  | [] => 1
  end.

(** An array of decimal digits, as the legacy file keeps them. *)
Definition digit_limbs (l : list Z) : bool :=
  forallb (fun d => (0 <=? d) && (d <=? 9)) l.

(** The invariant of the factorisation of the base: nothing from 2 to
    below [lastprime] divides what is left of the base, [lastprime] is 2
    or odd, and the candidates kept in [primes] are not above it. *)
Definition factorising (primes : list Z) (factorisingbase lastprime : Z)
  : Prop :=
  1 <= factorisingbase /\
  (lastprime = 2 \/ Z.Odd lastprime) /\ 2 <= lastprime /\
  (forall d, 2 <= d < lastprime -> ~ Z.divide d factorisingbase) /\
  (forall q, In q primes -> 2 <= q <= lastprime).

(** ** The constructor and the text of the engine on a power of ten

    src/unnamed/part_002 keeps [log10base] decimal digits in each limb.
    Its constructor puts the digits of a string in their limbs without
    any arithmetic on big numbers, and its [toString] writes the limbs
    out group by group. *)
Module Packed.

Section Engine.

(** [var log10base=Math.floor(Math.log(Math.sqrt(maxsafeinteger))/Math.log(10));]
    The logarithms and the square root are floating-point operations,
    which are not embedded: the number of digits of a limb is whatever
    integer they give. *)
Variable log10base : Z.

(** [var base=Math.round(Math.pow(10,log10base));] *)
Definition base : Z := 10 ^ log10base.

(** [number[number.length-1]+=x]; on an empty array the assignment makes
    a property of the name -1 and no element. *)
Fixpoint add_to_last (number : list Z) (x : Z) : list Z :=
  match number with
  | [] => []
  | [top] => [top + x]
  | limb :: above => limb :: add_to_last above x
  end.

(** [addDigit(digit,number)], once [testDigit(digit)] holds:
    [if (position%log10base==0) number.push(0);
     number[number.length-1]+=(digit*Math.pow(10,position%log10base));
     position++;]
    The state is the array and the variable [position]. *)
Definition addDigit (digit : Z) (number : list Z) (position : Z)
  : list Z * Z :=
  let number :=
    if Z.rem position log10base =? 0 then number ++ [0] else number in
  (add_to_last number (digit * 10 ^ Z.rem position log10base), position + 1).

(** [for (index = initialNumber.length - 1; index >= 0; index--)] on the
    characters of a string, last character first; [None] when [addDigit]
    returned [false]. *)
Fixpoint string_loop (chars : list ascii) (number : list Z) (position : Z)
  : option (list Z) :=
  match chars with
  | [] => Some number
  | c :: chars' =>
      match parseInt c with
      | Some digit =>
          let '(number, position) := addDigit digit number position in
          string_loop chars' number position
      | None => None
      end
  end.

(** The branch of the constructor for what is no array, on the text that
    [initialNumber.toString()] gives: [this.sign] is set when the sign
    character is cut off, before the digits are read. *)
Definition of_text (initialNumber : string) : BigNumber :=
  let '(sign, digits) :=
    match initialNumber with
    | String c tail =>
        if Ascii.eqb c "-" || Ascii.eqb c "+"
        then (if Ascii.eqb c "+" then 1 else -1, tail)
        else (1, initialNumber)
    | EmptyString => (1, initialNumber)
    end in
  match string_loop (rev (list_ascii_of_string digits)) [] 0 with
  | Some number => mkBigNumber (Limbs number) sign None
  | None => mkBigNumber (Sentinel invalid) sign None
  end.

(** The constructor on a string; [!initialNumber] holds of the empty
    string. *)
Definition of_string (initialNumber : string) : BigNumber :=
  match initialNumber with
  | EmptyString => zero
  | String _ _ => of_text initialNumber
  end.

(** [for (var digits=0;digits<log10base;digits++) {
      group=(digit % 10)+group; digit=Math.floor(digit/10);
      if (digit==0 && str.length==0) break; }]
    [str_empty] is [str.length==0], which the loop does not change. *)
Fixpoint group_loop (digits : nat) (digit : Z) (group : string)
         (str_empty : bool) : string :=
  match digits with
  | O => group
  | S digits' =>
      let group := (number_toString (Z.rem digit 10) ++ group)%string in
      let digit := digit / 10 in
      if (digit =? 0) && str_empty then group
      else group_loop digits' digit group str_empty
  end.

(** [toString]: [for (index = this.number.length - 1; index >= 0; index--)
      { ...; str+=group; }] *)
Definition toString (this : BigNumber) : string :=
  match number this with
  | Sentinel k => errors k
  | Limbs l =>
      let str :=
        fold_left
          (fun str digit =>
             (str ++ group_loop (Z.to_nat log10base) digit EmptyString
                                (String.length str =? 0)%nat)%string)
          (rev l) EmptyString in
      if sign this >? 0 then str else ("-" ++ str)%string
  end.

(** The constructor on an instance.  This version has no branch of its
    own for an instance, which is no array and so goes the way of a
    string, through its text; its [rest] is not looked at. *)
Definition of_instance (initialNumber : BigNumber) : BigNumber :=
  of_text (toString initialNumber).

(** The integer an array of limbs of [log10base] digits stands for, and
    the limbs that are in range. *)
Fixpoint mag (l : list Z) : Z :=
  match l with
  | [] => 0
  | x :: l' => x + base * mag l'
  end.

Definition in_range (l : list Z) : bool :=
  forallb (fun x => (0 <=? x) && (x <? base)) l.

(** A group of exactly [n] decimal digits, with zeros in front. *)
Fixpoint digits_fixed (n : nat) (v : Z) : string :=
  match n with
  | O => EmptyString
  | S n' => (digits_fixed n' (v / 10) ++ number_toString (v mod 10))%string
  end.

(** The text of limbs written out in full, the first of the list
    first. *)
Definition groups (limbs : list Z) : string :=
  fold_right
    (fun limb text => (digits_fixed (Z.to_nat log10base) limb ++ text)%string)
    EmptyString limbs.

End Engine.

End Packed.

(** * Facts *)

Lemma base_pos : 1 < base.
Proof. reflexivity. Qed.

Lemma factors_eq : factors = repeat 2 25.
Proof. vm_compute. reflexivity. Qed.

Lemma product_factors : product factors = base.
Proof. vm_compute. reflexivity. Qed.

Lemma factors_positive : forallb (fun f => 0 <? f) factors = true.
Proof. vm_compute. reflexivity. Qed.

Local Opaque base.

Lemma limb_ok_iff x : limb_ok x = true <-> 0 <= x < base.
Proof. unfold limb_ok. rewrite andb_true_iff, Z.leb_le, Z.ltb_lt. tauto. Qed.

Lemma in_range_cons x l :
  in_range (x :: l) = true <-> 0 <= x < base /\ in_range l = true.
Proof.
  unfold in_range; simpl. rewrite andb_true_iff, limb_ok_iff. tauto.
Qed.

Lemma in_range_nil : in_range [] = true.
Proof. reflexivity. Qed.

Lemma rem_mod_base x : 0 <= x -> Z.rem x base = x mod base.
Proof. intros. apply Z.rem_mod_nonneg; [lia | pose proof base_pos; lia]. Qed.

Lemma mag_nonneg l : in_range l = true -> 0 <= mag l.
Proof.
  induction l as [|x l IH]; cbn [mag]; [lia|].
  rewrite in_range_cons. intros [Hx Hl]. pose proof base_pos. specialize (IH Hl). nia.
Qed.

Lemma mag_bound l : in_range l = true -> mag l < base ^ Z.of_nat (List.length l).
Proof.
  induction l as [|x l IH]; cbn [List.length mag]; [simpl; lia|].
  rewrite in_range_cons. intros [Hx Hl]. specialize (IH Hl).
  rewrite Nat2Z.inj_succ, Z.pow_succ_r by lia.
  pose proof base_pos. nia.
Qed.

(** The carry loop on a carry that fits in a limb. *)
Lemma carry_out_nonpos fuel r : r <= 0 -> carry_out fuel r = [].
Proof.
  destruct fuel; simpl; auto. intros. destruct (Z.gtb_spec r 0); auto. lia.
Qed.

Lemma carry_limbs_small r :
  0 <= r < base -> carry_limbs r = if r >? 0 then [r] else [].
Proof.
  intros H. unfold carry_limbs. cbn [carry_out].
  destruct (Z.gtb_spec r 0); auto.
  rewrite Z.rem_small by lia. rewrite Z.div_small by lia.
  rewrite carry_out_nonpos by lia. reflexivity.
Qed.


Lemma log2_div_base r :
  0 < r -> r / base <= 0 \/ Z.log2 (r / base) < Z.log2 r.
Proof.
  intros Hr. pose proof base_pos as Hb.
  destruct (Z_lt_le_dec r base) as [Hlt|Hge].
  - left. rewrite Z.div_small; lia.
  - right.
    assert (H1 : r / base <= r / 2) by (apply Z.div_le_compat_l; lia).
    assert (H2 : Z.log2 (r / 2) = Z.log2 r - 1).
    { change 2 with (2 ^ 1) at 1.
      rewrite <- Z.shiftr_div_pow2 by lia. rewrite Z.log2_shiftr by lia.
      assert (1 <= Z.log2 r) by (apply Z.log2_le_pow2; simpl; lia). lia. }
    pose proof (Z.log2_le_mono (r / base) (r / 2) H1). lia.
Qed.

(** Past the fuel the loop needs, more fuel changes nothing. *)
Lemma carry_out_fuel n m r :
  r <= 0 \/ Z.log2 r < Z.of_nat n ->
  r <= 0 \/ Z.log2 r < Z.of_nat m ->
  carry_out n r = carry_out m r.
Proof.
  revert m r. induction n as [|n IH]; intros m r Hn Hm.
  - pose proof (Z.log2_nonneg r).
    rewrite (carry_out_nonpos m) by lia. reflexivity.
  - destruct m as [|m].
    + pose proof (Z.log2_nonneg r).
      rewrite (carry_out_nonpos (S n)) by lia. reflexivity.
    + cbn [carry_out]. destruct (Z.gtb_spec r 0); auto. f_equal.
      pose proof (log2_div_base r ltac:(lia)).
      apply IH; lia.
Qed.

(** The loop on fuel satisfies the equation of the [while] it stands
    for, whatever the carry. *)
Lemma carry_limbs_eq r :
  carry_limbs r =
    if r >? 0 then Z.rem r base :: carry_limbs (r / base) else [].
Proof.
  unfold carry_limbs at 1. cbn [carry_out].
  destruct (Z.gtb_spec r 0); auto. f_equal.
  pose proof (log2_div_base r ltac:(lia)).
  pose proof (Z.log2_nonneg (r / base)).
  apply carry_out_fuel; lia.
Qed.

(** ** Arrays of limbs and their values *)

Lemma mag_app a b :
  mag (a ++ b) = mag a + base ^ Z.of_nat (List.length a) * mag b.
Proof.
  induction a as [|x a IH]; cbn [app mag List.length].
  - change (Z.of_nat 0) with 0. rewrite Z.pow_0_r. lia.
  - rewrite IH, Nat2Z.inj_succ, Z.pow_succ_r by lia. ring.
Qed.

Lemma in_range_app a b :
  in_range (a ++ b) = in_range a && in_range b.
Proof. unfold in_range. apply forallb_app. Qed.

Lemma base_pow_pos n : 0 < base ^ Z.of_nat n.
Proof. apply Z.pow_pos_nonneg; [pose proof base_pos|]; lia. Qed.

(** In range, the top limb is not zero exactly when the value needs
    all the limbs. *)
Lemma top_nonzero_iff l :
  in_range l = true ->
  top_nonzero l = true <->
  l <> [] /\ base ^ (Z.of_nat (List.length l) - 1) <= mag l.
Proof.
  induction l as [|x l IH]; intros Hr.
  - cbn. split; [discriminate|intros [H _]; congruence].
  - apply in_range_cons in Hr as [Hx Hl]. specialize (IH Hl).
    destruct l as [|y l].
    + cbn [top_nonzero List.length mag]. simpl Z.of_nat. simpl (base ^ _).
      rewrite negb_true_iff, Z.eqb_neq. split.
      * intros. split; [discriminate|lia].
      * intros [_ H]. lia.
    + change (top_nonzero (x :: y :: l)) with (top_nonzero (y :: l)).
      rewrite IH. cbn [List.length mag].
      pose proof (mag_nonneg _ Hl) as Hn. cbn [mag] in Hn.
      pose proof (base_pow_pos (List.length l)) as Hp.
      pose proof base_pos.
      replace (Z.of_nat (S (S (List.length l))) - 1)
        with (Z.succ (Z.of_nat (List.length l))) by lia.
      replace (Z.of_nat (S (List.length l)) - 1)
        with (Z.of_nat (List.length l)) by lia.
      rewrite Z.pow_succ_r by lia.
      split; intros [_ H1]; (split; [discriminate|]); cbn [mag] in *; nia.
Qed.

Lemma canonical_iff l :
  canonical l = true <->
  in_range l = true /\ l <> [] /\
  (List.length l = 1%nat \/ base ^ (Z.of_nat (List.length l) - 1) <= mag l).
Proof.
  unfold canonical. rewrite andb_true_iff, orb_true_iff. split.
  - intros [Hr [Ht|Hz]].
    + apply top_nonzero_iff in Ht as [? ?]; auto.
    + destruct l as [|[| |] [|? ?]]; try discriminate.
      split; auto. split; [discriminate|auto].
  - intros (Hr & Hne & [Hlen|Hmag]); split; auto.
    + destruct l as [|x [|? ?]]; try discriminate; try congruence.
      destruct (Z.eq_dec x 0) as [->|Hx]; [right; reflexivity|left].
      cbn. rewrite negb_true_iff, Z.eqb_neq. exact Hx.
    + left. apply top_nonzero_iff; auto.
Qed.

Lemma in_range_same_value a b :
  in_range a = true -> in_range b = true ->
  List.length a = List.length b -> mag a = mag b -> a = b.
Proof.
  revert b. induction a as [|x a IH]; intros [|y b] Ha Hb Hlen Hm;
    try discriminate; auto.
  apply in_range_cons in Ha as [Hx Ha]. apply in_range_cons in Hb as [Hy Hb].
  cbn [mag] in Hm. injection Hlen as Hlen.
  pose proof base_pos.
  assert (x = y).
  { assert (E : (x + base * mag a) mod base = (y + base * mag b) mod base)
      by congruence.
    rewrite !(Z.mul_comm base), !Z.mod_add, !Z.mod_small in E by lia.
    exact E. }
  subst y. f_equal. apply IH; auto. nia.
Qed.

(** A value has one canonical array. *)
Lemma canonical_unique a b :
  canonical a = true -> canonical b = true -> mag a = mag b -> a = b.
Proof.
  rewrite !canonical_iff. intros (Ha & Hna & Hta) (Hb & Hnb & Htb) Hm.
  apply in_range_same_value; auto.
  pose proof (mag_bound a Ha) as Ba. pose proof (mag_bound b Hb) as Bb.
  pose proof base_pos.
  assert (La : (1 <= List.length a)%nat) by (destruct a; [congruence|simpl; lia]).
  assert (Lb : (1 <= List.length b)%nat) by (destruct b; [congruence|simpl; lia]).
  assert (P : forall n m : nat, (n < m)%nat ->
            base ^ Z.of_nat n <= base ^ (Z.of_nat m - 1)).
  { intros n m Hnm. apply Z.pow_le_mono_r; lia. }
  destruct (Nat.lt_trichotomy (List.length a) (List.length b)) as [Hlt|[Heq|Hgt]];
    auto; exfalso.
  - specialize (P _ _ Hlt). destruct Htb as [Htb|Htb]; lia.
  - specialize (P _ _ Hgt). destruct Hta as [Hta|Hta]; lia.
Qed.

(** ** The carry loop *)

Lemma carry_limbs_spec r :
  0 <= r ->
  in_range (carry_limbs r) = true /\ mag (carry_limbs r) = r /\
  (0 < r -> top_nonzero (carry_limbs r) = true).
Proof.
  intros Hr. generalize Hr. pattern r.
  apply Z_lt_induction; [clear r Hr|exact Hr].
  intros r IH Hr. rewrite carry_limbs_eq.
  destruct (Z.gtb_spec r 0) as [Hpos|Hle].
  - pose proof base_pos as Hb.
    assert (Hq : 0 <= r / base < r).
    { split; [apply Z.div_pos; lia|apply Z.div_lt; lia]. }
    destruct (IH (r / base) Hq ltac:(lia)) as (I1 & I2 & I3).
    rewrite rem_mod_base by lia.
    pose proof (Z.mod_pos_bound r base ltac:(lia)).
    split; [|split].
    + apply in_range_cons. auto.
    + cbn [mag]. rewrite I2. symmetry. rewrite Z.add_comm. apply Z.div_mod. lia.
    + intros _. destruct (Z.eq_dec (r / base) 0) as [E|E].
      * rewrite E in *. change (carry_limbs 0) with (@nil Z).
        cbn [top_nonzero]. rewrite negb_true_iff, Z.eqb_neq.
        pose proof (Z.div_mod r base ltac:(lia)). lia.
      * specialize (I3 ltac:(lia)).
        destruct (carry_limbs (r / base)) eqn:Ec; [discriminate|].
        exact I3.
  - split; [reflexivity|]. split; [cbn; lia|lia].
Qed.

Lemma of_number_valid n : valid (of_number n) = true.
Proof.
  unfold of_number. destruct (Z.eqb_spec n 0) as [->|Hn]; [reflexivity|].
  unfold valid. cbn [number sign].
  destruct (carry_limbs_spec (Z.abs n) ltac:(lia)) as (H1 & H2 & H3).
  unfold canonical. rewrite H1, H3 by lia. simpl.
  destruct (n <? 0); reflexivity.
Qed.

Lemma of_number_value n : value (of_number n) = n.
Proof.
  unfold of_number. destruct (Z.eqb_spec n 0) as [->|Hn]; [reflexivity|].
  unfold value, magnitude, limbs_of. cbn [number sign].
  destruct (carry_limbs_spec (Z.abs n) ltac:(lia)) as (H1 & H2 & H3).
  rewrite H2. destruct (Z.ltb_spec n 0); lia.
Qed.

Lemma of_number_small n :
  0 <= n < base ->
  of_number n = mkBigNumber (Limbs [n]) 1 None.
Proof.
  intros H. unfold of_number. destruct (Z.eqb_spec n 0) as [->|Hn]; [reflexivity|].
  rewrite Z.abs_eq by lia. rewrite carry_limbs_small by lia.
  destruct (Z.gtb_spec n 0); [|lia]. destruct (Z.ltb_spec n 0); [lia|reflexivity].
Qed.

(** ** Addition of arrays *)

(** One step of a carry loop: the limb kept and the carry passed on. *)
Lemma carry_step t :
  0 <= t ->
  0 <= Z.rem t base < base /\ 0 <= t / base /\
  Z.rem t base + base * (t / base) = t.
Proof.
  intros Ht. pose proof base_pos as Hb. rewrite rem_mod_base by lia.
  pose proof (Z.mod_pos_bound t base ltac:(lia)).
  pose proof (Z.div_mod t base ltac:(lia)).
  assert (0 <= t / base) by (apply Z.div_pos; lia). lia.
Qed.

Lemma carry_step_bound t k :
  0 <= t < base * (k + 1) -> t / base <= k.
Proof.
  intros Ht. pose proof base_pos as Hb.
  assert (t / base < k + 1); [|lia].
  apply Z.div_lt_upper_bound; lia.
Qed.

Lemma add_tail_spec b c :
  in_range b = true -> 0 <= c <= 1 ->
  in_range (add_tail b c) = true /\ mag (add_tail b c) = mag b + c /\
  (List.length (add_tail b c) = List.length b /\
     mag b + c < base ^ Z.of_nat (List.length b) \/
   List.length (add_tail b c) = S (List.length b) /\
     base ^ Z.of_nat (List.length b) <= mag b + c).
Proof.
  revert c. induction b as [|y b IH]; intros c Hb Hc.
  - cbn [add_tail mag List.length]. pose proof base_pos.
    rewrite carry_limbs_small by lia.
    change (Z.of_nat 0) with 0. rewrite Z.pow_0_r.
    destruct (Z.gtb_spec c 0).
    + assert (c = 1) by lia. subst c. split; [reflexivity|].
      cbn [mag List.length]. split; [lia|]. right. split; [reflexivity|lia].
    + assert (c = 0) by lia. subst c. split; [reflexivity|].
      cbn [mag List.length]. split; [lia|]. left. split; [reflexivity|lia].
  - apply in_range_cons in Hb as [Hy Hb].
    cbn [add_tail mag List.length]. cbv zeta.
    set (t := c + (0 + y)).
    destruct (carry_step t ltac:(lia)) as (S1 & S2 & S3).
    pose proof (carry_step_bound t 1 ltac:(lia)) as S4.
    destruct (IH (t / base) Hb ltac:(lia)) as (I1 & I2 & I3).
    split; [apply in_range_cons; auto|]. split; [rewrite I2; lia|].
    rewrite Nat2Z.inj_succ, Z.pow_succ_r by lia.
    pose proof base_pos.
    destruct I3 as [[L M]|[L M]]; [left|right]; (split; [congruence|]); nia.
Qed.

Lemma mag_or0_tl l : mag l = or0 l + base * mag (tl l).
Proof. destruct l; cbn [mag or0 tl]; lia. Qed.

Lemma in_range_or0_tl l :
  in_range l = true -> 0 <= or0 l < base /\ in_range (tl l) = true.
Proof.
  destruct l; cbn [or0 tl]; intros H.
  - pose proof base_pos. split; [lia|reflexivity].
  - apply in_range_cons in H. exact H.
Qed.

Lemma add_loop_spec a b c :
  in_range a = true -> in_range b = true -> 0 <= c <= 1 ->
  let m := Nat.max (List.length a) (List.length b) in
  in_range (add_loop a b c) = true /\
  mag (add_loop a b c) = mag a + mag b + c /\
  (List.length (add_loop a b c) = m /\ mag a + mag b + c < base ^ Z.of_nat m \/
   List.length (add_loop a b c) = S m /\ base ^ Z.of_nat m <= mag a + mag b + c).
Proof.
  revert b c. induction a as [|x a IH]; intros b c Ha Hb Hc m.
  - subst m. cbn [add_loop List.length mag Nat.max].
    destruct (add_tail_spec b c Hb Hc) as (T1 & T2 & T3).
    split; [exact T1|]. split; [lia|]. rewrite Z.add_0_l. exact T3.
  - apply in_range_cons in Ha as [Hx Ha].
    destruct (in_range_or0_tl b Hb) as [Hy Hb'].
    cbn [add_loop]. cbv zeta.
    set (t := c + (x + or0 b)).
    destruct (carry_step t ltac:(lia)) as (S1 & S2 & S3).
    pose proof (carry_step_bound t 1 ltac:(lia)) as S4.
    destruct (IH (tl b) (t / base) Ha Hb' ltac:(lia)) as (I1 & I2 & I3).
    split; [apply in_range_cons; auto|].
    cbn [mag]. rewrite (mag_or0_tl b).
    split; [rewrite I2; lia|].
    assert (Hm : m = S (Nat.max (List.length a) (List.length (tl b)))).
    { subst m. destruct b; cbn [List.length tl]; lia. }
    rewrite Hm. cbn [List.length].
    rewrite Nat2Z.inj_succ, Z.pow_succ_r by lia.
    pose proof base_pos.
    destruct I3 as [[L M]|[L M]]; [left|right]; (split; [congruence|]); nia.
Qed.

Lemma canonical_length l : canonical l = true -> (1 <= List.length l)%nat.
Proof.
  rewrite canonical_iff. intros (_ & H & _).
  destruct l; [congruence|simpl; lia].
Qed.

Lemma canonical_in_range l : canonical l = true -> in_range l = true.
Proof. rewrite canonical_iff. tauto. Qed.

(** The size of a canonical array follows its value. *)
Lemma canonical_pow_le l :
  canonical l = true -> (2 <= List.length l)%nat ->
  base ^ (Z.of_nat (List.length l) - 1) <= mag l.
Proof. rewrite canonical_iff. intros (_ & _ & [H|H]) ?; [lia|exact H]. Qed.

Lemma add_loop_canonical a b :
  canonical a = true -> canonical b = true ->
  canonical (add_loop a b 0) = true /\
  mag (add_loop a b 0) = mag a + mag b.
Proof.
  intros Ha Hb.
  pose proof (canonical_in_range _ Ha) as Ra.
  pose proof (canonical_in_range _ Hb) as Rb.
  destruct (add_loop_spec a b 0 Ra Rb ltac:(lia)) as (I1 & I2 & I3).
  cbv zeta in I3. rewrite Z.add_0_r in *.
  split; [|exact I2].
  pose proof (canonical_length _ Ha). pose proof (canonical_length _ Hb).
  pose proof (mag_nonneg _ Ra). pose proof (mag_nonneg _ Rb).
  apply canonical_iff. split; auto.
  split; [destruct I3 as [[L _]|[L _]]; intros E; rewrite E in L; simpl in L; lia|].
  destruct I3 as [[L M]|[L M]].
  - rewrite L.
    destruct (Nat.eq_dec (Nat.max (List.length a) (List.length b)) 1) as [E|E];
      [left; exact E|right].
    destruct (Nat.max_spec (List.length a) (List.length b)) as [[? Hmax]|[? Hmax]];
      rewrite Hmax in *.
    + pose proof (canonical_pow_le b Hb ltac:(lia)). lia.
    + pose proof (canonical_pow_le a Ha ltac:(lia)). lia.
  - right. rewrite L, I2.
    replace (Z.of_nat (S (Nat.max (List.length a) (List.length b))) - 1)
      with (Z.of_nat (Nat.max (List.length a) (List.length b))) by lia.
    exact M.
Qed.

(** ** Subtraction of arrays *)

Lemma strip_spec l :
  in_range l = true ->
  in_range (strip l) = true /\ mag (strip l) = mag l /\
  (strip l = [] \/ top_nonzero (strip l) = true).
Proof.
  induction l as [|x l IH]; intros Hl.
  - cbn. auto.
  - apply in_range_cons in Hl as [Hx Hl].
    destruct (IH Hl) as (I1 & I2 & I3).
    cbn [strip mag]. destruct (strip l) as [|y s] eqn:E.
    + cbn [mag] in I2. destruct (Z.eqb_spec x 0) as [->|Hx0].
      * split; [reflexivity|]. split; [cbn [mag]; lia|auto].
      * split; [apply in_range_cons; auto|]. split; [cbn [mag]; lia|].
        right. cbn. rewrite negb_true_iff, Z.eqb_neq. exact Hx0.
    + split; [apply in_range_cons; auto|]. split; [cbn [mag] in *; lia|].
      right. destruct I3 as [I3|I3]; [discriminate|exact I3].
Qed.

Lemma trim_spec l :
  in_range l = true -> l <> [] ->
  canonical (trim l) = true /\ mag (trim l) = mag l.
Proof.
  intros Hl Hne. destruct l as [|x l]; [congruence|].
  apply in_range_cons in Hl as [Hx Hl].
  destruct (strip_spec l Hl) as (I1 & I2 & I3).
  cbn [trim mag]. split; [|lia].
  unfold canonical. apply andb_true_iff. split; [apply in_range_cons; auto|].
  destruct I3 as [I3|I3].
  - rewrite I3. cbn [top_nonzero].
    destruct (Z.eqb_spec x 0) as [->|?]; [reflexivity|].
    destruct x; try reflexivity; congruence.
  - destruct (strip l); [discriminate|].
    change (top_nonzero (x :: z :: l0)) with (top_nonzero (z :: l0)).
    rewrite I3. reflexivity.
Qed.

Lemma subtract_loop_spec a b c :
  in_range a = true -> in_range b = true -> 0 <= c <= 1 ->
  (List.length b <= List.length a)%nat ->
  in_range (subtract_loop a b c) = true /\
  List.length (subtract_loop a b c) = List.length a /\
  exists borrow, 0 <= borrow <= 1 /\
    mag (subtract_loop a b c) =
      mag a - mag b - c + borrow * base ^ Z.of_nat (List.length a).
Proof.
  revert b c. induction a as [|x a IH]; intros b c Ha Hb Hc Hlen.
  - destruct b; [|simpl in Hlen; lia]. cbn [subtract_loop mag List.length].
    split; [reflexivity|]. split; [reflexivity|].
    exists c. change (Z.of_nat 0) with 0. rewrite Z.pow_0_r. lia.
  - apply in_range_cons in Ha as [Hx Ha].
    destruct (in_range_or0_tl b Hb) as [Hy Hb'].
    cbn [subtract_loop]. cbv zeta.
    set (d := x - (or0 b + c)).
    set (r := if d <? 0 then 1 else 0).
    assert (Hr : 0 <= r <= 1 /\ 0 <= d + r * base < base).
    { subst r. destruct (Z.ltb_spec d 0); subst d; lia. }
    destruct (IH (tl b) r Ha Hb' ltac:(lia)) as (I1 & I2 & borrow & I3 & I4).
    { destruct b; cbn [List.length tl] in *; lia. }
    split; [apply in_range_cons; tauto|].
    split; [cbn [List.length]; congruence|].
    exists borrow. split; [exact I3|].
    cbn [mag List.length]. rewrite I4, (mag_or0_tl b).
    rewrite Nat2Z.inj_succ, Z.pow_succ_r by lia. subst d. ring.
Qed.

Lemma subtract_loop_value a b :
  in_range a = true -> in_range b = true ->
  (List.length b <= List.length a)%nat -> mag b <= mag a ->
  in_range (subtract_loop a b 0) = true /\
  List.length (subtract_loop a b 0) = List.length a /\
  mag (subtract_loop a b 0) = mag a - mag b.
Proof.
  intros Ha Hb Hlen Hle.
  destruct (subtract_loop_spec a b 0 Ha Hb ltac:(lia) Hlen)
    as (I1 & I2 & borrow & I3 & I4).
  split; auto. split; auto.
  pose proof (mag_bound _ I1) as B. rewrite I2 in B.
  pose proof (mag_nonneg _ Hb). pose proof (mag_bound _ Ha).
  pose proof (base_pow_pos (List.length a)).
  assert (borrow = 0) by nia. subst borrow. lia.
Qed.

(** ** Multiplication of arrays *)

Lemma mul_limbs_bound c r x y :
  0 <= c < base -> 0 <= r < base -> 0 <= x < base -> 0 <= y < base ->
  0 <= c + (r + x * y) < base * base.
Proof. intros. nia. Qed.

Lemma multiply_row_spec x b result c :
  0 <= x < base -> in_range b = true -> in_range result = true ->
  0 <= c < base -> (List.length result <= List.length b)%nat ->
  let row := multiply_row x b result c in
  in_range row = true /\ mag row = c + mag result + x * mag b /\
  (List.length row = List.length b \/
   List.length row = S (List.length b) /\
     base ^ Z.of_nat (List.length b) <= mag row).
Proof.
  intros Hx. revert result c.
  induction b as [|y b IH]; intros result c Hb Hr Hc Hlen row; subst row.
  - destruct result; [|simpl in Hlen; lia].
    cbn [multiply_row multiply_carry List.length mag].
    rewrite carry_limbs_small by lia.
    change (Z.of_nat 0) with 0. rewrite Z.pow_0_r.
    destruct (Z.gtb_spec c 0).
    + split; [apply in_range_cons; auto|]. cbn [mag List.length].
      split; [lia|]. right. split; [reflexivity|lia].
    + split; [reflexivity|]. cbn [mag List.length]. split; [lia|auto].
  - apply in_range_cons in Hb as [Hy Hb].
    destruct (in_range_or0_tl result Hr) as [Hr0 Hr'].
    cbn [multiply_row]. cbv zeta.
    set (t := c + (or0 result + x * y)).
    pose proof (mul_limbs_bound c (or0 result) x y Hc Hr0 Hx Hy) as Ht.
    fold t in Ht.
    destruct (carry_step t ltac:(lia)) as (S1 & S2 & S3).
    pose proof (carry_step_bound t (base - 1) ltac:(lia)) as S4.
    destruct (IH (tl result) (t / base) Hb Hr' ltac:(lia)) as (I1 & I2 & I3).
    { destruct result; cbn [List.length tl] in *; lia. }
    split; [apply in_range_cons; auto|].
    cbn [mag List.length]. rewrite I2, (mag_or0_tl result).
    split; [subst t; nia|].
    destruct I3 as [L|[L M]]; [left; congruence|right].
    split; [congruence|].
    rewrite Nat2Z.inj_succ, Z.pow_succ_r by lia. rewrite I2 in M.
    pose proof base_pos. nia.
Qed.

Lemma top_nonzero_cons x l :
  l <> [] -> top_nonzero (x :: l) = top_nonzero l.
Proof. destruct l; [congruence|reflexivity]. Qed.

Lemma multiply_loop_spec a b result :
  in_range a = true -> in_range b = true -> in_range result = true ->
  (List.length result <= List.length b)%nat ->
  in_range (multiply_loop a b result) = true /\
  mag (multiply_loop a b result) = mag result + mag a * mag b /\
  (top_nonzero a = true -> top_nonzero b = true ->
   top_nonzero (multiply_loop a b result) = true).
Proof.
  revert result. induction a as [|x a IH]; intros result Ha Hb Hr Hlen.
  - cbn [multiply_loop mag]. split; auto. split; [lia|discriminate].
  - apply in_range_cons in Ha as [Hx Ha].
    cbn [multiply_loop].
    destruct (multiply_row_spec x b result 0 Hx Hb Hr) as (R1 & R2 & R3);
      [pose proof base_pos; lia|exact Hlen|].
    cbv zeta in R1, R2, R3.
    destruct (multiply_row x b result 0) as [|r row] eqn:E.
    + assert (List.length b = 0%nat)
        by (destruct R3 as [L|[L _]]; simpl in L; lia).
      destruct b; [|discriminate]. destruct result; [|simpl in Hlen; lia].
      destruct (IH [] Ha Hb Hr ltac:(simpl; lia)) as (I1 & I2 & I3).
      split; auto. cbn [mag] in *. split; [lia|].
      intros _ Tb. discriminate.
    + apply in_range_cons in R1 as [Hr0 Hrow].
      destruct (IH row Ha Hb Hrow) as (I1 & I2 & I3).
      { destruct R3 as [L|[L _]]; simpl in L; lia. }
      split; [apply in_range_cons; auto|].
      cbn [mag] in *. split; [rewrite I2; nia|].
      intros Ta Tb. destruct a as [|x' a'].
      * cbn [multiply_loop]. apply top_nonzero_iff.
        { apply in_range_cons; auto. }
        split; [discriminate|]. cbn [mag].
        cbn [top_nonzero] in Ta. rewrite negb_true_iff, Z.eqb_neq in Ta.
        apply (top_nonzero_iff b Hb) in Tb as [Hbne Tb].
        pose proof (mag_nonneg _ Hr).
        destruct R3 as [L|[L M]]; rewrite L.
        -- assert (mag b <= x * mag b) by nia. lia.
        -- replace (Z.of_nat (S (List.length b)) - 1)
             with (Z.of_nat (List.length b)) by lia. exact M.
      * rewrite top_nonzero_cons in Ta by discriminate.
        rewrite top_nonzero_cons; [apply I3; auto|].
        intros E'. specialize (I3 Ta Tb). rewrite E' in I3. discriminate.
Qed.

(** ** Comparison of arrays *)

Lemma compare_loop_spec s a b :
  in_range a = true -> in_range b = true ->
  List.length a = List.length b ->
  compare_loop s (rev a) (rev b) = s * Z.sgn (mag a - mag b).
Proof.
  revert b. induction a as [|x a IH] using rev_ind; intros b Ha Hb Hlen.
  - destruct b; [|discriminate]. cbn. lia.
  - destruct b as [|y b _] using rev_ind.
    { rewrite length_app in Hlen. simpl in Hlen. lia. }
    rewrite !length_app in Hlen. cbn [List.length] in Hlen.
    rewrite in_range_app, andb_true_iff in Ha, Hb.
    destruct Ha as [Ha Hx], Hb as [Hb Hy].
    apply in_range_cons in Hx as [Hx _]. apply in_range_cons in Hy as [Hy _].
    rewrite !rev_app_distr. cbn [rev app compare_loop].
    rewrite !mag_app. cbn [mag].
    assert (Hl : List.length a = List.length b) by lia.
    rewrite Hl.
    pose proof (mag_bound _ Ha) as Ba. pose proof (mag_bound _ Hb) as Bb.
    pose proof (mag_nonneg _ Ha). pose proof (mag_nonneg _ Hb).
    rewrite Hl in Ba.
    pose proof (base_pow_pos (List.length b)).
    destruct (Z.gtb_spec x y).
    { rewrite Z.sgn_pos by nia. lia. }
    destruct (Z.ltb_spec x y).
    { rewrite Z.sgn_neg by nia. lia. }
    assert (x = y) by lia. subst y.
    rewrite IH by auto. f_equal. f_equal. lia.
Qed.

(** ** The methods on valid operands *)

Lemma copy_id b : copy b = b.
Proof. destruct b; reflexivity. Qed.

Lemma holds_nonneg b s v : holds b s v -> 0 <= v.
Proof.
  intros (l & _ & C & M & _). subst v.
  apply mag_nonneg, canonical_in_range, C.
Qed.

Lemma holds_unique a b s v :
  holds a s v -> holds b s v -> rest a = rest b -> a = b.
Proof.
  intros (la & Na & Ca & Ma & Sa) (lb & Nb & Cb & Mb & Sb) R.
  destruct a as [na sa ra], b as [nb sb rb]; cbn [number sign rest] in *.
  subst. f_equal. f_equal. apply canonical_unique; auto.
Qed.

Lemma holds_of_number n : 0 <= n -> holds (of_number n) 1 n.
Proof.
  intros Hn. unfold of_number.
  destruct (Z.eqb_spec n 0) as [->|Hn0].
  - exists [0]. repeat split; reflexivity.
  - destruct (carry_limbs_spec (Z.abs n) ltac:(lia)) as (H1 & H2 & H3).
    exists (carry_limbs (Z.abs n)). cbn [number sign].
    split; [reflexivity|]. split.
    + unfold canonical. rewrite H1, H3 by lia. reflexivity.
    + split; [lia|]. destruct (Z.ltb_spec n 0); [lia|reflexivity].
Qed.

Lemma rest_of_number n : rest (of_number n) = None.
Proof. unfold of_number. destruct (n =? 0); reflexivity. Qed.

Lemma holds_zero : holds zero 1 0.
Proof. exists [0]. repeat split; reflexivity. Qed.

Lemma isZero_in_range l :
  in_range l = true -> forallb (fun x => x =? 0) l = true <-> mag l = 0.
Proof.
  induction l as [|x l IH]; intros Hl; cbn [forallb mag].
  - tauto.
  - apply in_range_cons in Hl as [Hx Hl]. specialize (IH Hl).
    pose proof (mag_nonneg _ Hl). pose proof base_pos.
    rewrite andb_true_iff, Z.eqb_eq, IH. nia.
Qed.

Lemma isZero_holds b s v : holds b s v -> isZero b = (v =? 0).
Proof.
  intros (l & N & C & M & _). unfold isZero. rewrite N.
  pose proof (isZero_in_range l (canonical_in_range _ C)) as H.
  rewrite M in H. destruct (Z.eqb_spec v 0) as [E|E].
  - apply H, E.
  - destruct (forallb _ l); [exfalso; apply E, H; reflexivity|reflexivity].
Qed.

Lemma canonical_top l :
  canonical l = true -> mag l <> 0 -> top_nonzero l = true.
Proof.
  unfold canonical. rewrite andb_true_iff, orb_true_iff.
  intros [_ [H|H]] Hm; auto.
  destruct l as [|[| |] [|? ?]]; try discriminate. cbn in Hm. lia.
Qed.

Lemma canonical_shorter a b :
  canonical a = true -> canonical b = true ->
  (List.length a < List.length b)%nat -> mag a < mag b.
Proof.
  intros Ha Hb Hlt.
  pose proof (mag_bound _ (canonical_in_range _ Ha)).
  pose proof (canonical_length _ Ha).
  pose proof (canonical_pow_le b Hb ltac:(lia)).
  assert (base ^ Z.of_nat (List.length a)
          <= base ^ (Z.of_nat (List.length b) - 1)).
  { apply Z.pow_le_mono_r; [pose proof base_pos|]; lia. }
  lia.
Qed.

Lemma compare_holds a b s va vb :
  holds a s va -> holds b s vb ->
  compare_big a b = Ok (s * Z.sgn (va - vb)).
Proof.
  intros (la & Na & Ca & Ma & Sa) (lb & Nb & Cb & Mb & Sb).
  unfold compare_big. rewrite Sa, Sb, Z.eqb_refl. cbn [negb].
  rewrite Na, Nb. cbn [number_length].
  destruct (Z.gtb_spec (Z.of_nat (List.length la)) (Z.of_nat (List.length lb))).
  { pose proof (canonical_shorter lb la Cb Ca ltac:(lia)).
    rewrite Z.sgn_pos by lia. f_equal. lia. }
  destruct (Z.ltb_spec (Z.of_nat (List.length la)) (Z.of_nat (List.length lb))).
  { pose proof (canonical_shorter la lb Ca Cb ltac:(lia)).
    rewrite Z.sgn_neg by lia. f_equal. }
  rewrite compare_loop_spec; try apply canonical_in_range; auto; try lia.
  subst. reflexivity.
Qed.

Lemma lte_holds a b s va vb :
  holds a s va -> holds b s vb ->
  lte_big a b = Ok (s * Z.sgn (va - vb) <=? 0).
Proof. intros Ha Hb. unfold lte_big. rewrite (compare_holds _ _ _ _ _ Ha Hb). reflexivity. Qed.

Lemma lt_holds a b s va vb :
  holds a s va -> holds b s vb ->
  lt_big a b = Ok (s * Z.sgn (va - vb) <? 0).
Proof. intros Ha Hb. unfold lt_big. rewrite (compare_holds _ _ _ _ _ Ha Hb). reflexivity. Qed.

Lemma add_holds a b s va vb :
  holds a s va -> holds b s vb ->
  exists a', add_big a b = Ok (mkOutcome a' RThis) /\
             holds a' s (va + vb) /\ rest a' = rest a.
Proof.
  intros (la & Na & Ca & Ma & Sa) (lb & Nb & Cb & Mb & Sb).
  unfold add_big, _add. rewrite Sa, Sb, Z.eqb_refl, Na, Nb. cbn [negb bind].
  eexists. split; [reflexivity|].
  destruct (add_loop_canonical la lb Ca Cb) as [C M].
  split; [|reflexivity].
  exists (add_loop la lb 0). cbn [set_number number sign].
  repeat split; auto. lia.
Qed.

Lemma holds_abs_of b s v : holds b s v -> holds (abs_of b) 1 v.
Proof.
  intros (l & N & C & M & _). exists l. unfold abs_of. rewrite copy_id.
  cbn [set_sign number sign]. auto.
Qed.

Lemma canonical_length_le a b :
  canonical a = true -> canonical b = true -> mag b <= mag a ->
  (List.length b <= List.length a)%nat.
Proof.
  intros Ha Hb Hle.
  destruct (Nat.le_gt_cases (List.length b) (List.length a)); auto.
  pose proof (canonical_shorter a b Ha Hb ltac:(lia)). lia.
Qed.

(** Like signs and a receiver that is not the smaller in magnitude. *)
Lemma subtract_holds a b va vb :
  holds a 1 va -> holds b 1 vb -> vb <= va ->
  exists a', subtract_big a b = Ok (mkOutcome a' RThis) /\
             holds a' 1 (va - vb) /\ rest a' = rest a.
Proof.
  intros Ha Hb Hle.
  pose proof Ha as (la & Na & Ca & Ma & Sa).
  pose proof Hb as (lb & Nb & Cb & Mb & Sb).
  unfold subtract_big. rewrite Sa, Sb, Z.eqb_refl. cbn [negb].
  rewrite copy_id. rewrite (lt_holds _ _ _ _ _ Ha Hb). cbn [bind].
  assert (L1 : (1 * Z.sgn (va - vb) <? 0) = false).
  { apply Z.ltb_ge. pose proof (Z.sgn_nonneg (va - vb)). lia. }
  rewrite L1, copy_id.
  assert (Ha' : holds (set_sign a 1) 1 va).
  { exists la. cbn [set_sign number sign]. auto. }
  rewrite (lt_holds _ _ 1 va vb); [|apply (holds_abs_of _ 1), Ha'
                                   |apply (holds_abs_of _ 1), Hb].
  cbn [bind]. rewrite L1. unfold _subtract.
  cbn [set_sign number]. rewrite Na, Nb. cbn [bind].
  eexists. split; [reflexivity|]. split; [|reflexivity].
  pose proof (canonical_in_range _ Ca) as Ra.
  pose proof (canonical_in_range _ Cb) as Rb.
  destruct (subtract_loop_value la lb Ra Rb) as (I1 & I2 & I3);
    [apply canonical_length_le; auto; lia|lia|].
  destruct (trim_spec (subtract_loop la lb 0) I1) as [T1 T2].
  { pose proof (canonical_length _ Ca). intros E. rewrite E in I2.
    simpl in I2. lia. }
  exists (trim (subtract_loop la lb 0)). cbn [set_number number sign].
  repeat split; auto. lia.
Qed.

Lemma multiply_holds_zero a b sa sb va vb :
  holds a sa va -> holds b sb vb -> va = 0 \/ vb = 0 ->
  multiply_big a b = Ok (mkOutcome a (RNew zero)).
Proof.
  intros Ha Hb Hz. unfold multiply_big.
  rewrite (isZero_holds _ _ _ Ha), (isZero_holds _ _ _ Hb).
  destruct Hz as [-> | ->]; [reflexivity|].
  rewrite orb_true_r. reflexivity.
Qed.

Lemma multiply_holds a b sa sb va vb :
  holds a sa va -> holds b sb vb -> va <> 0 -> vb <> 0 ->
  exists a', multiply_big a b = Ok (mkOutcome a' RThis) /\
             holds a' (sa * sb) (va * vb) /\ rest a' = rest a.
Proof.
  intros Ha Hb Hza Hzb.
  pose proof Ha as (la & Na & Ca & Ma & Sa).
  pose proof Hb as (lb & Nb & Cb & Mb & Sb).
  unfold multiply_big.
  rewrite (isZero_holds _ _ _ Ha), (isZero_holds _ _ _ Hb).
  destruct (Z.eqb_spec va 0); [contradiction|].
  destruct (Z.eqb_spec vb 0); [contradiction|]. cbn [orb].
  cbn [set_sign number]. rewrite Na, Nb.
  eexists. split; [reflexivity|]. split; [|reflexivity].
  pose proof (canonical_in_range _ Ca) as Ra.
  pose proof (canonical_in_range _ Cb) as Rb.
  destruct (multiply_loop_spec la lb [] Ra Rb) as (I1 & I2 & I3);
    [reflexivity|simpl; lia|].
  exists (multiply_loop la lb []). cbn [set_number number sign].
  split; [reflexivity|]. split.
  - unfold canonical. rewrite I1, I3; [reflexivity| |];
      apply canonical_top; auto; congruence.
  - split; [cbn [mag] in I2; rewrite I2; subst; lia|subst; reflexivity].
Qed.

(** ** Division *)

Lemma subtract_while_spec fuel bigNumber D limb divisor :
  holds bigNumber 1 D -> 0 < D ->
  forall robj R,
  holds robj 1 R -> R / D < Z.of_nat fuel ->
  exists robj',
    subtract_while fuel bigNumber robj limb divisor
      = Ok (robj', limb + R / D * divisor) /\
    holds robj' 1 (R mod D) /\ rest robj' = rest robj.
Proof.
  intros Hb HD. revert limb.
  induction fuel as [|fuel IH]; intros limb robj R Hr Hfuel.
  - pose proof (holds_nonneg _ _ _ Hr).
    pose proof (Z.div_pos R D ltac:(lia) ltac:(lia)). simpl in Hfuel. lia.
  - pose proof (holds_nonneg _ _ _ Hr) as HR.
    cbn [subtract_while]. rewrite !copy_id.
    rewrite (lte_holds _ _ _ _ _ Hb Hr). cbn [bind].
    destruct (Z.leb_spec (1 * Z.sgn (D - R)) 0) as [Hle|Hgt].
    + assert (D <= R).
      { destruct (Z_lt_le_dec R D); [|lia].
        rewrite Z.sgn_pos in Hle; lia. }
      destruct (subtract_holds _ _ _ _ Hr Hb ltac:(lia)) as (r1 & E1 & H1 & R1).
      rewrite E1. cbn [bind this_after].
      assert (Hq : (R - D) / D = R / D - 1).
      { replace (R - D) with (R + (-1) * D) by lia.
        rewrite Z.div_add by lia. lia. }
      destruct (IH (limb + divisor) r1 (R - D) H1 ltac:(lia)) as (r' & E' & H' & R').
      exists r'. rewrite E'. split; [f_equal; f_equal; rewrite Hq; ring|].
      split; [|congruence].
      replace (R mod D) with ((R - D) mod D); [exact H'|].
      replace (R - D) with (R + (-1) * D) by lia. apply Z.mod_add. lia.
    + assert (R < D).
      { destruct (Z_lt_le_dec R D); [lia|].
        pose proof (Z.sgn_nonpos (D - R)). lia. }
      exists robj. rewrite Z.div_small, Z.mod_small by lia.
      split; [f_equal; f_equal; lia|]. split; [exact Hr|reflexivity].
Qed.

Lemma factor_loop_spec bigNumber D :
  holds bigNumber 1 D -> 0 < D ->
  forall fs robj R divisor digit limb,
  forallb (fun f => 0 <? f) fs = true -> divisor = product fs ->
  0 <= digit < divisor -> holds robj 1 R -> R < D ->
  exists robj',
    factor_loop fs bigNumber robj divisor digit limb
      = Ok (robj', limb + (R * divisor + digit) / D) /\
    holds robj' 1 ((R * divisor + digit) mod D) /\
    rest robj' = rest robj.
Proof.
  intros Hb HD fs.
  induction fs as [|f fs IH]; intros robj R divisor digit limb Hfs Hdiv Hdig Hr HRD.
  - cbn in Hdiv. subst divisor. assert (digit = 0) by lia. subst digit.
    pose proof (holds_nonneg _ _ _ Hr).
    exists robj. cbn [factor_loop].
    replace (R * 1 + 0) with R by lia.
    rewrite Z.div_small, Z.mod_small by lia.
    split; [f_equal; f_equal; lia|]. split; [exact Hr|reflexivity].
  - cbn [forallb] in Hfs. apply andb_true_iff in Hfs as [Hf Hfs].
    apply Z.ltb_lt in Hf. cbn [product fold_right] in Hdiv.
    fold (product fs) in Hdiv.
    pose proof (holds_nonneg _ _ _ Hr) as HR.
    assert (Hd' : divisor / f = product fs).
    { subst divisor. rewrite Z.mul_comm. apply Z.div_mul. lia. }
    assert (Hp : 0 < product fs) by nia.
    cbn [factor_loop]. cbv zeta. rewrite Hd'.
    (* rest.multiply(factors[i]) *)
    assert (exists r1, multiply_big robj (of_number f) = Ok (mkOutcome r1
              (if R =? 0 then RNew zero else RThis)) /\
            holds r1 1 (R * f) /\ rest r1 = rest robj)
      as (r1 & E1 & H1 & R1).
    { destruct (Z.eqb_spec R 0) as [->|HR0].
      - exists robj.
        rewrite (multiply_holds_zero _ _ _ _ _ _ Hr (holds_of_number f ltac:(lia)))
          by auto.
        auto.
      - destruct (multiply_holds _ _ _ _ _ _ Hr (holds_of_number f ltac:(lia)))
          as (r1 & E1 & H1 & R1); [lia|lia|].
        exists r1. auto. }
    rewrite E1. cbn [bind this_after].
    (* rest.add(Math.floor(digit/divisor)) *)
    assert (Hq : 0 <= digit / product fs < f).
    { split; [apply Z.div_pos; lia|apply Z.div_lt_upper_bound; nia]. }
    destruct (add_holds _ _ _ _ _ H1 (holds_of_number (digit / product fs) ltac:(lia)))
      as (r2 & E2 & H2 & R2).
    rewrite E2. cbn [bind this_after].
    rewrite Z.rem_mod_nonneg by lia.
    pose proof (Z.mod_pos_bound digit (product fs) Hp) as Hm.
    pose proof (Z.div_mod digit (product fs) ltac:(lia)) as Hdm.
    set (R2v := R * f + digit / product fs) in *.
    assert (HR2 : 0 <= R2v < D * f) by (subst R2v; nia).
    (* while (bigNumber.lte(rest)) *)
    destruct (subtract_while_spec (S (Z.to_nat f)) bigNumber D limb (product fs)
                Hb HD r2 R2v H2) as (r3 & E3 & H3 & R3).
    { assert (R2v / D < f) by (apply Z.div_lt_upper_bound; lia). lia. }
    rewrite E3. cbn [bind].
    pose proof (Z.mod_pos_bound R2v D HD) as Hm3.
    destruct (IH r3 (R2v mod D) (product fs) (digit mod product fs)
                 (limb + R2v / D * product fs) Hfs eq_refl Hm H3 ltac:(lia))
      as (r' & E' & H' & R').
    exists r'. rewrite E'.
    assert (Key : R * divisor + digit
                  = (R2v mod D * product fs + digit mod product fs)
                    + (R2v / D * product fs) * D).
    { pose proof (Z.div_mod R2v D ltac:(lia)). subst R2v divisor. nia. }
    rewrite Key, Z.div_add, Z.mod_add by lia.
    split; [f_equal; f_equal; ring|]. split; [exact H'|congruence].
Qed.

(** The state of the loop over the limbs of a dividend, on both
    branches. *)
Lemma divide_loop_native D bigNumber l :
  0 < D -> in_range l = true ->
  exists q,
    divide_loop D bigNumber l = Ok (mkDivideState q zero (mag l mod D)) /\
    in_range q = true /\ List.length q = List.length l /\
    mag q = mag l / D.
Proof.
  intros HD. induction l as [|x l IH]; intros Hl.
  - exists []. cbn [divide_loop mag List.length].
    rewrite Z.mod_0_l, Z.div_0_l by lia. auto.
  - apply in_range_cons in Hl as [Hx Hl].
    destruct (IH Hl) as (q & E & Rq & Lq & Mq).
    cbn [divide_loop]. rewrite E. cbn [bind].
    destruct (Z.eqb_spec D 0); [lia|]. cbn [negb nativerest result_limbs rest_object].
    cbv zeta.
    pose proof (Z.mod_pos_bound (mag l) D HD) as Hm.
    pose proof (Z.div_mod (mag l) D ltac:(lia)) as Hdm.
    set (t := mag l mod D * base + x).
    assert (Ht : 0 <= t < D * base) by (subst t; nia).
    assert (Key : mag (x :: l) = t + (base * (mag l / D)) * D)
      by (cbn [mag]; subst t; nia).
    exists (t / D :: q). split.
    + f_equal. f_equal. rewrite Key, Z.mod_add by lia.
      rewrite Z.mod_eq by lia. ring.
    + split.
      * apply in_range_cons. split; [|exact Rq].
        split; [apply Z.div_pos; lia|apply Z.div_lt_upper_bound; lia].
      * split; [cbn [List.length]; congruence|].
        rewrite Key, Z.div_add by lia. cbn [mag]. rewrite Mq. ring.
Qed.

Lemma divide_loop_generic D bigNumber l :
  holds bigNumber 1 D -> 0 < D -> in_range l = true ->
  exists q r,
    divide_loop 0 bigNumber l = Ok (mkDivideState q r 0) /\
    in_range q = true /\ List.length q = List.length l /\
    mag q = mag l / D /\
    holds r 1 (mag l mod D) /\ rest r = None.
Proof.
  intros Hb HD. induction l as [|x l IH]; intros Hl.
  - exists [], zero. cbn [divide_loop mag List.length].
    rewrite Z.mod_0_l, Z.div_0_l by lia.
    repeat split; auto using holds_zero.
  - apply in_range_cons in Hl as [Hx Hl].
    destruct (IH Hl) as (q & r & E & Rq & Lq & Mq & Hr & Rr).
    cbn [divide_loop]. rewrite E. cbn [bind negb Z.eqb rest_object result_limbs nativerest].
    pose proof (Z.mod_pos_bound (mag l) D HD) as Hm.
    pose proof (Z.div_mod (mag l) D ltac:(lia)) as Hdm.
    destruct (factor_loop_spec bigNumber D Hb HD factors r (mag l mod D) base x 0
                factors_positive (eq_sym product_factors) Hx Hr ltac:(lia))
      as (r' & E' & H' & R').
    rewrite E'. cbn [bind].
    set (t := mag l mod D * base + x) in *.
    assert (Ht : 0 <= t < D * base) by (subst t; nia).
    assert (Key : mag (x :: l) = t + (base * (mag l / D)) * D)
      by (cbn [mag]; subst t; nia).
    exists (0 + t / D :: q), r'. split; [reflexivity|].
    split.
    + apply in_range_cons. split; [|exact Rq].
      rewrite Z.add_0_l.
      split; [apply Z.div_pos; lia|apply Z.div_lt_upper_bound; lia].
    + split; [cbn [List.length]; congruence|].
      rewrite Key, Z.div_add, Z.mod_add by lia. cbn [mag]. rewrite Mq.
      split; [ring|]. split; [exact H'|congruence].
Qed.

Lemma valid_holds b :
  valid b = true ->
  holds b (sign b) (magnitude b) /\ (sign b = 1 \/ sign b = -1).
Proof.
  unfold valid, holds, magnitude, limbs_of.
  destruct (number b) as [l|]; [|discriminate].
  rewrite andb_true_iff, orb_true_iff, !Z.eqb_eq. intros [C S].
  split; [exists l; auto|exact S].
Qed.

Lemma holds_valid b s v :
  holds b s v -> s = 1 \/ s = -1 -> valid b = true /\ magnitude b = v.
Proof.
  intros (l & N & C & M & S) Hs. unfold valid, magnitude, limbs_of.
  rewrite N, C, S. split; [|exact M].
  destruct Hs as [-> | ->]; reflexivity.
Qed.

Lemma holds_set_sign b s v s' : holds b s v -> holds (set_sign b s') s' v.
Proof. intros (l & N & C & M & S). exists l. auto. Qed.

(** What the loop of [divide] and the lines after it leave in the
    dividend, on the native branch and on the branch of the BigNumber
    arithmetic. *)
Lemma divide_body_native D this bigNumber s v :
  holds this s v -> 0 < D ->
  exists q,
    divide_body D this bigNumber =
      Ok (mkOutcome (mkBigNumber (Limbs q) s (Some (of_number (v mod D)))) RThis)
    /\ canonical q = true /\ mag q = v / D.
Proof.
  intros (l & N & C & M & S) HD. unfold divide_body. rewrite N.
  destruct (divide_loop_native D bigNumber l HD (canonical_in_range _ C))
    as (q & E & Rq & Lq & Mq).
  rewrite E. cbn [bind result_limbs nativerest rest_object].
  destruct (Z.eqb_spec D 0); [lia|]. cbn [negb].
  destruct (trim_spec q Rq) as [T1 T2].
  { pose proof (canonical_length _ C). intros ->. simpl in Lq. lia. }
  exists (trim q). unfold set_number, set_rest. cbn [number sign rest].
  rewrite S, M. split; [reflexivity|]. split; [exact T1|]. congruence.
Qed.

Lemma divide_body_generic D this bigNumber s v :
  holds this s v -> holds bigNumber 1 D -> 0 < D ->
  exists q,
    divide_body 0 this bigNumber =
      Ok (mkOutcome (mkBigNumber (Limbs q) s (Some (of_number (v mod D)))) RThis)
    /\ canonical q = true /\ mag q = v / D.
Proof.
  intros (l & N & C & M & S) Hb HD. unfold divide_body. rewrite N.
  destruct (divide_loop_generic D bigNumber l Hb HD (canonical_in_range _ C))
    as (q & r & E & Rq & Lq & Mq & Hr & Rr).
  rewrite E. cbn [bind result_limbs nativerest rest_object negb Z.eqb].
  destruct (trim_spec q Rq) as [T1 T2].
  { pose proof (canonical_length _ C). intros ->. simpl in Lq. lia. }
  exists (trim q). unfold set_number, set_rest. cbn [number sign rest].
  rewrite S. split; [|split; [exact T1|congruence]].
  do 4 f_equal. rewrite <- M.
  apply (holds_unique _ _ 1 (mag l mod D)); auto.
  - apply holds_of_number. apply Z.mod_pos_bound. exact HD.
  - rewrite rest_of_number. exact Rr.
Qed.

(** The two branches leave the same quotient and the same remainder. *)
Lemma divide_body_agree D this bigNumber s v :
  holds this s v -> holds bigNumber 1 D -> 0 < D ->
  divide_body D this bigNumber = divide_body 0 this bigNumber.
Proof.
  intros Ht Hb HD.
  destruct (divide_body_native D this bigNumber s v Ht HD) as (q1 & E1 & C1 & M1).
  destruct (divide_body_generic D this bigNumber s v Ht Hb HD) as (q2 & E2 & C2 & M2).
  rewrite E1, E2. do 4 f_equal. apply canonical_unique; auto. congruence.
Qed.

Lemma native_of_holds b s v :
  holds b s v -> native_of b = v \/ native_of b = 0.
Proof.
  intros (l & N & C & M & S). unfold native_of. rewrite N.
  destruct l as [|x [|y l]]; auto. left. cbn in M. lia.
Qed.

Lemma is_one_holds b s v : holds b s v -> is_one b = (v =? 1).
Proof.
  intros (l & N & C & M & S). unfold is_one. rewrite N.
  destruct l as [|x [|y l]].
  - cbn in M. subst v. reflexivity.
  - cbn in M. replace v with x by lia. reflexivity.
  - pose proof (canonical_pow_le _ C ltac:(simpl; lia)) as P.
    assert (base ^ 1 <= base ^ (Z.of_nat (List.length (x :: y :: l)) - 1)).
    { apply Z.pow_le_mono_r; [pose proof base_pos; lia|].
      cbn [List.length]. lia. }
    rewrite Z.pow_1_r in *. pose proof base_pos.
    symmetry. apply Z.eqb_neq. lia.
Qed.

(** [divide] on a dividend other than zero and a divisor of magnitude 2
    or more. *)
Lemma divide_big_spec this bigNumber s v sb D :
  holds this s v -> holds bigNumber sb D -> v <> 0 -> 2 <= D ->
  exists q,
    divide_big this bigNumber =
      Ok (mkOutcome (mkBigNumber (Limbs q) (s * sb)
                                 (Some (of_number (v mod D)))) RThis)
    /\ canonical q = true /\ mag q = v / D.
Proof.
  intros Ht Hb Hv HD. unfold divide_big.
  rewrite (isZero_holds _ _ _ Hb), (isZero_holds _ _ _ Ht).
  destruct (Z.eqb_spec D 0); [lia|]. destruct (Z.eqb_spec v 0); [lia|].
  pose proof Ht as (lt & Nt & Ct & Mt & St).
  pose proof Hb as (lb & Nb & Cb & Mb & Sb).
  rewrite St, Sb.
  pose proof (holds_set_sign _ _ _ (s * sb) Ht) as Ht'.
  pose proof (holds_set_sign _ _ _ 1 Hb) as Hb'.
  rewrite (is_one_holds _ _ _ Hb').
  destruct (Z.eqb_spec D 1); [lia|].
  destruct (native_of_holds _ _ _ Hb) as [E|E]; rewrite E.
  - apply divide_body_native; [exact Ht'|lia].
  - apply (divide_body_generic D); [exact Ht'|exact Hb'|lia].
Qed.

(** The native branch of the loop is the fast path of the
    specification. *)
Lemma divide_loop_fast_path D bigNumber l :
  D <> 0 ->
  divide_loop D bigNumber l =
    Ok (mkDivideState (fst (fast_path D l)) zero (snd (fast_path D l))).
Proof.
  intros HD. unfold fast_path. induction l as [|x l IH].
  - reflexivity.
  - cbn [divide_loop rev]. rewrite IH. cbn [bind].
    destruct (Z.eqb_spec D 0); [contradiction|]. cbn [negb].
    rewrite fold_left_app. cbn [fold_left result_limbs nativerest rest_object].
    reflexivity.
Qed.

Lemma native_of_small b s v :
  holds b s v -> v < base -> native_of b = v.
Proof.
  intros (l & N & C & M & S) Hv. unfold native_of. rewrite N.
  destruct l as [|x [|y l]].
  - cbn in M. exact M.
  - cbn in M. lia.
  - pose proof (canonical_pow_le _ C ltac:(simpl; lia)) as P.
    assert (base ^ 1 <= base ^ (Z.of_nat (List.length (x :: y :: l)) - 1)).
    { apply Z.pow_le_mono_r; [pose proof base_pos; lia|].
      cbn [List.length]. lia. }
    rewrite Z.pow_1_r in *. lia.
Qed.

Lemma quot_signed s sb v D :
  (s = 1 \/ s = -1) -> (sb = 1 \/ sb = -1) -> 0 <= v -> 0 < D ->
  Z.quot (s * v) (sb * D) = s * sb * (v / D) /\
  Z.rem (s * v) (sb * D) = s * (v mod D).
Proof.
  intros Hs Hsb Hv HD.
  pose proof (Z.quot_div_nonneg v D Hv HD) as Q.
  pose proof (Z.rem_mod_nonneg v D Hv HD) as R.
  destruct Hs as [-> | ->], Hsb as [-> | ->];
    rewrite ?Z.mul_1_l;
    replace (-1 * v) with (- v) by lia; replace (-1 * D) with (- D) by lia;
    rewrite ?Z.quot_opp_l, ?Z.quot_opp_r, ?Z.rem_opp_l, ?Z.rem_opp_r by lia;
    rewrite ?Z.quot_opp_l, ?Z.rem_opp_l by lia; lia.
Qed.

(** The value of the digit a character stands for, 0 for another
    character. *)
(** The integer a list of decimal digits stands for, the list starting
    with the least significant digit. *)
(** The decimal digits of a non-negative integer of fewer than [n]
    digits, most significant first, none for zero. *)
(** ** The constructor on strings *)

Lemma add_tail_canonical l : canonical l = true -> add_tail l 0 = l.
Proof.
  intros C. pose proof (canonical_in_range _ C) as R.
  destruct (add_tail_spec l 0 R ltac:(lia)) as (T1 & T2 & T3).
  pose proof (mag_bound _ R).
  apply in_range_same_value; auto; [|lia].
  destruct T3 as [[L _]|[_ M]]; [exact L|lia].
Qed.

Lemma add_partial a b va vb :
  partial a va -> holds b 1 vb ->
  exists a', add_big a b = Ok (mkOutcome a' RThis) /\ holds a' 1 (va + vb).
Proof.
  intros [(N & S & ->)|Ha] Hb.
  - destruct Hb as (lb & Nb & Cb & Mb & Sb).
    unfold add_big, _add. rewrite S, Sb, N, Nb. cbn [Z.eqb negb bind add_loop].
    rewrite add_tail_canonical by exact Cb.
    eexists. split; [reflexivity|]. exists lb. cbn [set_number number sign].
    repeat split; auto.
  - destruct (add_holds _ _ _ _ _ Ha Hb) as (a' & E & H & _).
    exists a'. auto.
Qed.

Lemma addDigit_spec this multipleoftens digit v m d :
  partial this v -> holds multipleoftens 1 m -> 0 < m -> holds digit 1 d ->
  exists this' multipleoftens',
    addDigit this multipleoftens digit = Ok (this', multipleoftens') /\
    holds this' 1 (v + d * m) /\ holds multipleoftens' 1 (m * 10).
Proof.
  intros Ht Hm Hpos Hdig. unfold addDigit. rewrite !copy_id.
  assert (exists x, (exists o, multiply_big digit multipleoftens = Ok o /\
                               ret_value o = x) /\ holds x 1 (d * m))
    as (x & (o & E1 & R1) & Hx).
  { destruct (Z.eq_dec d 0) as [->|Hnz].
    - exists zero. split; [|exact holds_zero].
      eexists. split; [apply (multiply_holds_zero _ _ _ _ _ _ Hdig Hm); auto|].
      reflexivity.
    - destruct (multiply_holds _ _ _ _ _ _ Hdig Hm) as (x & E & H & _);
        [lia|lia|].
      exists x. split; [eexists; split; [exact E|reflexivity]|exact H]. }
  rewrite E1. cbn [bind]. rewrite copy_id, R1.
  destruct (add_partial _ _ _ _ Ht Hx) as (t' & E2 & H2).
  rewrite E2. cbn [bind this_after]. rewrite ?copy_id.
  destruct (multiply_holds _ _ _ _ _ _ Hm (holds_of_number 10 ltac:(lia)))
    as (m' & E3 & H3 & _); [lia|lia|].
  rewrite E3. cbn [bind this_after].
  exists t', m'. auto.
Qed.

Lemma string_loop_spec chars :
  forallb is_digit chars = true ->
  forall this multipleoftens v m,
  partial this v -> holds multipleoftens 1 m -> 0 < m ->
  exists this',
    string_loop chars this multipleoftens = Ok (true, this') /\
    partial this' (v + m * decimal_value chars) /\
    (chars <> [] -> holds this' 1 (v + m * decimal_value chars)).
Proof.
  induction chars as [|c chars IH]; intros Hd this mt v m Ht Hm Hpos.
  - exists this. cbn [string_loop decimal_value].
    replace (v + m * 0) with v by lia. split; [reflexivity|].
    split; [exact Ht|congruence].
  - cbn [forallb] in Hd. apply andb_true_iff in Hd as [Hc Hd].
    cbn [string_loop decimal_value]. unfold is_digit, digit_of in *.
    destruct (parseInt c) as [d|] eqn:P; [|discriminate].
    assert (0 <= d).
    { unfold parseInt in P.
      destruct ((48 <=? Z.of_N (N_of_ascii c)) && (Z.of_N (N_of_ascii c) <=? 57)) eqn:B;
        [|discriminate].
      apply andb_true_iff in B as [B1 B2]. apply Z.leb_le in B1.
      injection P as <-. lia. }
    destruct (addDigit_spec this mt (of_number d) v m d Ht Hm Hpos
                (holds_of_number d ltac:(lia)))
      as (t' & m' & E & H1 & H2).
    rewrite E. cbn [bind].
    destruct (IH Hd t' m' (v + d * m) (m * 10) (or_intror H1) H2 ltac:(lia))
      as (t'' & E' & P' & H').
    exists t''. split; [exact E'|].
    replace (v + m * (d + 10 * decimal_value chars))
      with (v + d * m + m * 10 * decimal_value chars) by ring.
    destruct chars as [|c' chars'].
    + cbn [string_loop] in E'. injection E' as <-.
      cbn [decimal_value]. replace (v + d * m + m * 10 * 0) with (v + d * m) by lia.
      split; [right; exact H1|intros _; exact H1].
    + split; [exact P'|intros _; apply H'; discriminate].
Qed.

(** ** Decimal output *)

Lemma append_assoc (a b c : string) :
  ((a ++ b) ++ c = a ++ (b ++ c))%string.
Proof. induction a as [|x a IH]; cbn; [reflexivity|rewrite IH; reflexivity]. Qed.

Lemma append_nil_r (a : string) : (a ++ EmptyString = a)%string.
Proof. induction a as [|x a IH]; cbn; [reflexivity|rewrite IH; reflexivity]. Qed.

Lemma number_toString_digit d :
  0 <= d <= 9 -> number_toString d = String (digit_char d) EmptyString.
Proof.
  intros H.
  assert (d = 0 \/ d = 1 \/ d = 2 \/ d = 3 \/ d = 4 \/ d = 5 \/ d = 6 \/
          d = 7 \/ d = 8 \/ d = 9) as C by lia.
  repeat (destruct C as [->|C]; [reflexivity|]). subst d. reflexivity.
Qed.

Lemma singleDigit_of_number d :
  0 <= d <= 9 -> _singleDigit (of_number d) = number_toString d.
Proof.
  intros H. pose proof base_pos.
  assert (base = 2 ^ 25) by reflexivity.
  rewrite of_number_small by lia.
  unfold _singleDigit. cbn [number singleDigit_loop].
  change (0 <? 10) with true. change (1 <? 2 ^ 1024) with true. cbn iota.
  replace (0 + 1 * d) with d by lia.
  destruct (Z.ltb_spec d 10); [reflexivity|lia].
Qed.

Lemma toString_loop_step fuel clone ten str :
  toString_loop (S fuel) clone ten str =
    if negb (isZero clone) then
      o <- divide_big clone (copy ten) ;;
      match rest (ret_value o) with
      | Some r => toString_loop fuel (this_after o) ten (_singleDigit r ++ str)
      | None => Abort NoRestObject
      end
    else Ok str.
Proof. reflexivity. Qed.

Lemma toString_loop_spec k :
  forall clone v str,
  holds clone 1 v -> v < 10 ^ Z.of_nat k ->
  toString_loop (S k) clone (of_number 10) str
    = Ok (decimal_digits k v ++ str)%string.
Proof.
  induction k as [|k IH]; intros clone v str Hc Hv.
  - pose proof (holds_nonneg _ _ _ Hc). change (10 ^ Z.of_nat 0) with 1 in Hv.
    assert (v = 0) by lia. subst v.
    cbn [toString_loop decimal_digits]. rewrite (isZero_holds _ _ _ Hc).
    reflexivity.
  - pose proof (holds_nonneg _ _ _ Hc) as Hn.
    rewrite toString_loop_step. cbn [decimal_digits].
    rewrite (isZero_holds _ _ _ Hc).
    destruct (Z.eqb_spec v 0) as [->|Hnz]; [reflexivity|]. cbn [negb].
    rewrite copy_id.
    destruct (divide_big_spec clone (of_number 10) 1 v 1 10 Hc
                (holds_of_number 10 ltac:(lia)) Hnz ltac:(lia))
      as (q & E & Cq & Mq).
    rewrite E. cbn [bind ret_value returned this_after rest].
    pose proof (Z.mod_pos_bound v 10 ltac:(lia)) as Hm.
    rewrite singleDigit_of_number by lia.
    rewrite IH with (v := v / 10).
    + rewrite append_assoc. reflexivity.
    + exists q. cbn [number sign]. auto.
    + rewrite Nat2Z.inj_succ, Z.pow_succ_r in Hv by lia.
      apply Z.div_lt_upper_bound; lia.
Qed.

Lemma base_below_ten_pow n : base ^ Z.of_nat n <= 10 ^ Z.of_nat (8 * n).
Proof.
  rewrite Nat2Z.inj_mul. change (Z.of_nat 8) with 8.
  rewrite Z.pow_mul_r by lia.
  apply Z.pow_le_mono_l. split; [pose proof base_pos; lia|].
  vm_compute. discriminate.
Qed.

Lemma append_nonempty (a : string) c :
  String.length (a ++ String c EmptyString) <> 0%nat.
Proof. induction a; cbn; lia. Qed.

(** [toString] on a valid value: the sign, then the digits. *)
Lemma toString_holds b s v :
  holds b s v ->
  exists k,
    v < 10 ^ Z.of_nat k /\
    toString b = Ok ((if (s >? 0)%Z then EmptyString else "-")
                     ++ (if (v =? 0)%Z then "0" else decimal_digits k v))%string.
Proof.
  intros Hb. pose proof Hb as (l & N & C & M & S).
  exists (8 * List.length l)%nat.
  assert (Hv : v < 10 ^ Z.of_nat (8 * List.length l)).
  { pose proof (mag_bound _ (canonical_in_range _ C)).
    pose proof (base_below_ten_pow (List.length l)). lia. }
  split; [exact Hv|].
  unfold toString. rewrite N.
  rewrite toString_loop_spec with (v := v); [|
    unfold abs; cbn [this_after]; rewrite copy_id;
    apply holds_set_sign with (s := s); exact Hb | exact Hv].
  cbn [bind]. rewrite S, append_nil_r.
  assert (Hlen : (String.length (decimal_digits (8 * List.length l) v) =? 0)%nat
                 = (v =? 0)).
  { pose proof (canonical_length _ C).
    destruct (8 * List.length l)%nat as [|k] eqn:Ek; [lia|].
    cbn [decimal_digits]. destruct (Z.eqb_spec v 0) as [E|E]; [reflexivity|].
    pose proof (holds_nonneg _ _ _ Hb).
    pose proof (Z.mod_pos_bound v 10 ltac:(lia)).
    rewrite number_toString_digit by lia.
    apply Nat.eqb_neq, append_nonempty. }
  rewrite Hlen. destruct (s >? 0), (v =? 0); reflexivity.
Qed.

(** ** Decimal strings *)

Lemma is_digit_char c :
  is_digit c = true ->
  0 <= digit_of c <= 9 /\ digit_char (digit_of c) = c /\
  (digit_of c = 0 <-> c = "0"%char).
Proof.
  destruct c as [[] [] [] [] [] [] [] []]; vm_compute; intros H;
    try discriminate H;
    (split; [split; discriminate|]); (split; [reflexivity|]);
    split; intros E; try reflexivity; discriminate E.
Qed.

Lemma decimal_value_nonneg cs :
  forallb is_digit cs = true -> 0 <= decimal_value cs.
Proof.
  induction cs as [|c cs IH]; cbn [forallb decimal_value]; [lia|].
  rewrite andb_true_iff. intros [Hc Hcs].
  destruct (is_digit_char c Hc) as (? & _). specialize (IH Hcs). lia.
Qed.

Lemma drop_zeros_app t c :
  drop_zeros (t ++ String c EmptyString) =
    match drop_zeros t with
    | EmptyString =>
        if Ascii.eqb c "0" then EmptyString else String c EmptyString
    | d => (d ++ String c EmptyString)%string
    end.
Proof.
  induction t as [|x t IH]; cbn [append drop_zeros].
  - reflexivity.
  - destruct (Ascii.eqb x "0"); [exact IH|reflexivity].
Qed.

Lemma list_ascii_app a b :
  list_ascii_of_string (a ++ b) =
    (list_ascii_of_string a ++ list_ascii_of_string b)%list.
Proof. induction a as [|x a IH]; cbn; [reflexivity|rewrite IH; reflexivity]. Qed.

Lemma string_value_snoc t c :
  string_value (t ++ String c EmptyString) = digit_of c + 10 * string_value t.
Proof.
  unfold string_value. rewrite list_ascii_app, rev_app_distr. reflexivity.
Qed.

Lemma all_digits_snoc t c :
  all_digits (t ++ String c EmptyString) = all_digits t && is_digit c.
Proof.
  unfold all_digits. rewrite list_ascii_app, forallb_app. cbn [forallb list_ascii_of_string].
  rewrite andb_true_r. reflexivity.
Qed.

(** Induction on a string from its last character. *)
Lemma string_rev_ind (P : string -> Prop) :
  P EmptyString ->
  (forall t c, P t -> P (t ++ String c EmptyString)%string) ->
  forall t, P t.
Proof.
  intros H0 H1 t. rewrite <- (string_of_list_ascii_of_string t).
  induction (list_ascii_of_string t) as [|c l IH] using rev_ind.
  - exact H0.
  - replace (string_of_list_ascii (l ++ [c]))
      with (string_of_list_ascii l ++ String c EmptyString)%string.
    + apply H1, IH.
    + clear. induction l as [|x l IH]; cbn; [reflexivity|rewrite IH; reflexivity].
Qed.

Lemma string_value_nonneg t : all_digits t = true -> 0 <= string_value t.
Proof.
  intros H. apply decimal_value_nonneg. unfold all_digits in H.
  rewrite forallb_forall in *. intros x Hx. apply H, in_rev, Hx.
Qed.

Lemma string_value_zero t :
  all_digits t = true ->
  string_value t = 0 <-> drop_zeros t = EmptyString.
Proof.
  induction t as [|t c IH] using string_rev_ind; intros Hd.
  - split; reflexivity.
  - rewrite all_digits_snoc, andb_true_iff in Hd. destruct Hd as [Ht Hc].
    rewrite string_value_snoc, drop_zeros_app.
    destruct (is_digit_char c Hc) as (Hr & _ & Hz).
    pose proof (string_value_nonneg t Ht). specialize (IH Ht).
    destruct (drop_zeros t) eqn:E.
    + destruct (Ascii.eqb_spec c "0") as [->|Hne].
      * split; [reflexivity|]. intros _. apply proj2 in IH.
        rewrite IH by reflexivity. reflexivity.
      * split; [|discriminate]. intros H0. exfalso. apply Hne, Hz. lia.
    + split.
      * intros H0. assert (string_value t = 0) by lia.
        apply IH in H1. discriminate.
      * destruct s; discriminate.
Qed.

(** The digits [toString] puts out are the digits of the string without
    its leading zeros. *)
Lemma decimal_digits_string t :
  all_digits t = true ->
  forall k, string_value t < 10 ^ Z.of_nat k ->
  decimal_digits k (string_value t) = drop_zeros t.
Proof.
  induction t as [|t c IH] using string_rev_ind; intros Hd k Hk.
  - destruct k; reflexivity.
  - pose proof (string_value_zero _ Hd) as Hz.
    rewrite all_digits_snoc, andb_true_iff in Hd. destruct Hd as [Ht Hc].
    destruct (is_digit_char c Hc) as (Hr & Hch & _).
    pose proof (string_value_nonneg t Ht) as Hn.
    rewrite string_value_snoc in *.
    destruct k as [|k].
    + change (10 ^ Z.of_nat 0) with 1 in Hk.
      cbn [decimal_digits]. symmetry. apply Hz. lia.
    + cbn [decimal_digits].
      destruct (Z.eqb_spec (digit_of c + 10 * string_value t) 0) as [E|E].
      * symmetry. apply Hz, E.
      * replace ((digit_of c + 10 * string_value t) / 10) with (string_value t).
        2:{ rewrite Z.mul_comm, Z.div_add by lia.
            rewrite Z.div_small by lia. lia. }
        replace ((digit_of c + 10 * string_value t) mod 10) with (digit_of c).
        2:{ rewrite Z.mul_comm, Z.mod_add by lia.
            rewrite Z.mod_small by lia. reflexivity. }
        rewrite number_toString_digit, Hch by lia.
        rewrite IH; [|exact Ht|].
        2:{ rewrite Nat2Z.inj_succ, Z.pow_succ_r in Hk by lia. lia. }
        rewrite drop_zeros_app.
        destruct (drop_zeros t) eqn:Ed; [|reflexivity].
        destruct (Ascii.eqb_spec c "0") as [->|Hne]; [|reflexivity].
        exfalso. apply E. apply Hz. rewrite drop_zeros_app, Ed. reflexivity.
Qed.

Lemma digits_loop digits :
  digits <> EmptyString -> all_digits digits = true ->
  exists this,
    string_loop (rev (list_ascii_of_string digits)) blank (of_number 1)
      = Ok (true, this) /\
    holds this 1 (string_value digits).
Proof.
  intros Hne Hd.
  destruct (string_loop_spec (rev (list_ascii_of_string digits))) with
    (this := blank) (multipleoftens := of_number 1) (v := 0) (m := 1)
    as (this & E & _ & H).
  - unfold all_digits in Hd. rewrite forallb_forall in *.
    intros x Hx. apply Hd, in_rev, Hx.
  - left. repeat split.
  - apply holds_of_number. lia.
  - lia.
  - exists this. split; [exact E|].
    replace (string_value digits)
      with (0 + 1 * decimal_value (rev (list_ascii_of_string digits)))
      by (unfold string_value; lia).
    apply H. destruct digits; [congruence|].
    cbn [list_ascii_of_string rev]. intros E'. apply app_eq_nil in E'.
    destruct E' as [_ E']. discriminate.
Qed.

(** The decimal text of the value built from a sign and digits. *)
Lemma signed_digits_toString digits this s :
  all_digits digits = true -> holds this 1 (string_value digits) ->
  toString (set_sign this s) =
    Ok ((if s >? 0 then EmptyString else "-") ++
        match drop_zeros digits with
        | EmptyString => "0"
        | d => d
        end)%string.
Proof.
  intros Hd Ht.
  destruct (toString_holds (set_sign this s) s (string_value digits))
    as (k & Hk & E).
  { apply holds_set_sign with (s := 1). exact Ht. }
  rewrite E. do 2 f_equal.
  pose proof (string_value_zero digits Hd) as Hz.
  destruct (Z.eqb_spec (string_value digits) 0) as [E0|E0].
  - apply Hz in E0. rewrite E0. reflexivity.
  - rewrite decimal_digits_string by assumption.
    destruct (drop_zeros digits); [exfalso; apply E0, Hz; reflexivity|reflexivity].
Qed.

(** ** Invalid strings *)

Lemma string_loop_invalid chars :
  forallb is_digit chars = false ->
  forall this multipleoftens v m,
  partial this v -> holds multipleoftens 1 m -> 0 < m ->
  exists this', string_loop chars this multipleoftens = Ok (false, this').
Proof.
  induction chars as [|c chars IH]; intros Hd this mt v m Ht Hm Hpos.
  - discriminate.
  - cbn [forallb] in Hd. cbn [string_loop]. unfold is_digit in Hd at 1.
    destruct (parseInt c) as [d|] eqn:P.
    + cbn [andb] in Hd.
      assert (0 <= d).
      { assert (Hc : is_digit c = true) by (unfold is_digit; rewrite P; reflexivity).
        destruct (is_digit_char c Hc) as (Hr & _). unfold digit_of in Hr.
        rewrite P in Hr. lia. }
      destruct (addDigit_spec this mt (of_number d) v m d Ht Hm Hpos
                  (holds_of_number d ltac:(lia)))
        as (t' & m' & E & H1 & H2).
      rewrite E. cbn [bind].
      apply (IH Hd t' m' (v + d * m) (m * 10)); [right; exact H1|exact H2|lia].
    + exists this. reflexivity.
Qed.

(** A string with a character that is no digit, after an optional sign,
    builds a value in the state InvalidFormat. *)
Lemma invalid_string s :
  all_digits (digits_part s) = false ->
  exists b, of_string s = Ok b /\ error_state b = Some invalid /\
            toString b = Ok (errors invalid).
Proof.
  intros Hd. destruct s as [|c t]; [discriminate|].
  unfold of_string. cbn [digits_part] in Hd.
  assert (L : forall digits, all_digits digits = false ->
            exists this, string_loop (rev (list_ascii_of_string digits)) blank
                           (of_number 1) = Ok (false, this)).
  { intros digits H.
    apply (string_loop_invalid _) with (v := 0) (m := 1).
    - unfold all_digits in H.
      destruct (forallb is_digit (rev (list_ascii_of_string digits))) eqn:F;
        [|reflexivity].
      rewrite <- H. symmetry. rewrite forallb_forall in *.
      intros x Hx. apply F. apply -> in_rev. exact Hx.
    - left. repeat split.
    - apply holds_of_number. lia.
    - lia. }
  destruct (Ascii.eqb c "-" || Ascii.eqb c "+");
    destruct (L _ Hd) as (this & E); rewrite E; cbn [bind];
    eexists; (split; [reflexivity|]); split; reflexivity.
Qed.

(** ** The constructor and its input *)

Lemma of_string_total s : exists b, of_string s = Ok b.
Proof.
  destruct s as [|c t]; [eexists; reflexivity|].
  unfold of_string.
  assert (L : forall digits, exists ok this,
            string_loop (rev (list_ascii_of_string digits)) blank (of_number 1)
              = Ok (ok, this)).
  { intros digits.
    destruct (forallb is_digit (rev (list_ascii_of_string digits))) eqn:F.
    - destruct (string_loop_spec _ F blank (of_number 1) 0 1) as (this & E & _);
        [left; repeat split|apply holds_of_number; lia|lia|].
      exists true, this. exact E.
    - destruct (string_loop_invalid _ F blank (of_number 1) 0 1) as (this & E);
        [left; repeat split|apply holds_of_number; lia|lia|].
      exists false, this. exact E. }
  destruct (Ascii.eqb c "-" || Ascii.eqb c "+");
    [destruct (L t) as (ok & this & E)
    |destruct (L (String c t)) as (ok & this & E)];
    rewrite E; cbn [bind]; destruct ok; eexists; reflexivity.
Qed.

Lemma of_elem_digit e :
  testDigit e = true -> exists digit d, of_elem e = Ok digit /\ holds digit 1 d.
Proof.
  destruct e as [n|s]; cbn [testDigit of_elem].
  - rewrite andb_true_iff, Z.leb_le. intros [Hn _].
    exists (of_number n), n. split; [reflexivity|apply holds_of_number, Hn].
  - destruct s as [|c [|c' t]]; try discriminate.
    intros Hc. fold (is_digit c) in Hc.
    destruct (digits_loop (String c EmptyString)) as (this & E & H);
      [discriminate|unfold all_digits; cbn; rewrite Hc; reflexivity|].
    unfold of_string.
    destruct (is_digit_char c Hc) as (_ & Hch & _).
    assert (Hs : Ascii.eqb c "-" || Ascii.eqb c "+" = false).
    { destruct (Ascii.eqb_spec c "-") as [->|]; [discriminate|].
      destruct (Ascii.eqb_spec c "+") as [->|]; [discriminate|reflexivity]. }
    rewrite Hs, E. cbn [bind].
    exists (set_sign this 1), (string_value (String c EmptyString)).
    split; [reflexivity|]. apply holds_set_sign with (s := 1). exact H.
Qed.

Lemma array_loop_total elems :
  forall this multipleoftens v m,
  partial this v -> holds multipleoftens 1 m -> 0 < m ->
  exists ok this', array_loop elems this multipleoftens = Ok (ok, this').
Proof.
  induction elems as [|e elems IH]; intros this mt v m Ht Hm Hpos.
  - exists true, this. reflexivity.
  - cbn [array_loop]. destruct (testDigit e) eqn:T.
    + destruct (of_elem_digit e T) as (digit & d & E & Hd).
      rewrite E. cbn [bind].
      destruct (addDigit_spec this mt digit v m d Ht Hm Hpos Hd)
        as (t' & m' & E' & H1 & H2).
      rewrite E'. cbn [bind].
      apply (IH t' m' (v + d * m) (m * 10)); [right; exact H1|exact H2|lia].
    + exists false, this. reflexivity.
Qed.

(** ** Exponentiation *)

Lemma rounds_odd n :
  0 < n -> Z.odd n = true -> rounds (n - 1) <= rounds n - 1.
Proof.
  intros Hn Ho. unfold rounds. rewrite Ho.
  destruct (Z.leb_spec n 0); [lia|].
  destruct (Z.leb_spec (n - 1) 0).
  - pose proof (Z.log2_nonneg n). lia.
  - replace (Z.odd (n - 1)) with false.
    + pose proof (Z.log2_le_mono (n - 1) n ltac:(lia)). lia.
    + rewrite Z.odd_sub, Ho. reflexivity.
Qed.

Lemma rounds_even n :
  0 < n -> Z.odd n = false -> rounds (n / 2) <= rounds n - 1.
Proof.
  intros Hn Ho. unfold rounds. rewrite Ho.
  destruct (Z.leb_spec n 0); [lia|].
  assert (2 <= n).
  { destruct (Z.eq_dec n 1) as [->|]; [discriminate|lia]. }
  assert (Z.log2 (n / 2) = Z.log2 n - 1).
  { change 2 with (2 ^ 1) at 1.
    rewrite <- Z.shiftr_div_pow2 by lia. rewrite Z.log2_shiftr by lia.
    assert (1 <= Z.log2 n) by (apply Z.log2_le_pow2; simpl; lia). lia. }
  assert (0 < n / 2) by (apply Z.div_str_pos; lia).
  destruct (Z.leb_spec (n / 2) 0); [lia|].
  destruct (Z.odd (n / 2)); lia.
Qed.

Lemma rem_two n : 0 <= n -> (Z.rem n 2 =? 1) = Z.odd n.
Proof.
  intros Hn. rewrite Z.rem_mod_nonneg by lia.
  rewrite Zmod_odd. destruct (Z.odd n); reflexivity.
Qed.

Lemma power_loop_spec n :
  0 <= n ->
  forall fuel this bigNumber sa A sb B,
  holds this sa A -> holds bigNumber sb B -> A <> 0 -> B <> 0 ->
  sb = 1 \/ sb = -1 ->
  rounds n <= Z.of_nat fuel ->
  exists r,
    power_loop fuel n this bigNumber = Ok r /\
    holds r (sa * (if Z.odd n then sb else 1)) (A * B ^ n) /\
    rest r = rest this.
Proof.
  intros Hn. generalize Hn. pattern n.
  apply Z_lt_induction; [clear n Hn|exact Hn].
  intros n IH Hn fuel this bn sa A sb B Ht Hb HA HB Hsb Hfuel.
  destruct fuel as [|fuel].
  { unfold rounds in Hfuel. pose proof (Z.log2_nonneg n).
    change (Z.of_nat 0) with 0 in Hfuel.
    destruct (n <=? 0), (Z.odd n); lia. }
  cbn [power_loop]. rewrite copy_id.
  destruct (Z.gtb_spec n 0) as [Hpos|Hle].
  2:{ assert (n = 0) by lia. subst n. exists this.
      split; [reflexivity|]. cbn [Z.odd].
      rewrite Z.pow_0_r, !Z.mul_1_r. split; [exact Ht|reflexivity]. }
  rewrite rem_two by lia.
  destruct (Z.odd n) eqn:Ho.
  - destruct (multiply_holds _ _ _ _ _ _ Ht Hb HA HB) as (t' & E & H' & R').
    rewrite E. cbn [bind this_after].
    destruct (IH (n - 1) ltac:(lia) ltac:(lia) fuel t' bn (sa * sb) (A * B) sb B H' Hb)
      as (r & E' & Hr & Rr); [nia|exact HB|exact Hsb| |].
    { pose proof (rounds_odd n Hpos Ho). lia. }
    exists r. split; [exact E'|].
    replace (A * B ^ n) with (A * B * B ^ (n - 1)).
    2:{ replace n with (Z.succ (n - 1)) at 2 by lia.
        rewrite Z.pow_succ_r by lia. ring. }
    replace (Z.odd (n - 1)) with false in Hr
      by (rewrite Z.odd_sub, Ho; reflexivity).
    rewrite Z.mul_1_r in Hr. split; [exact Hr|congruence].
  - destruct (multiply_holds _ _ _ _ _ _ Hb Hb HB HB) as (b' & E & H' & R').
    rewrite E. cbn [bind this_after].
    assert (Hdiv : n = 2 * (n / 2)).
    { pose proof (Z.div_mod n 2 ltac:(lia)) as D. rewrite Zmod_odd, Ho in D. lia. }
    assert (Hs : sb * sb = 1) by (destruct Hsb as [-> | ->]; reflexivity).
    rewrite Hs in H'.
    destruct (IH (n / 2) ltac:(lia) ltac:(lia) fuel this b' sa A 1 (B * B) Ht H')
      as (r & E' & Hr & Rr); [exact HA|nia|auto| |].
    { pose proof (rounds_even n Hpos Ho). lia. }
    exists r. split; [exact E'|].
    replace (A * B ^ n) with (A * (B * B) ^ (n / 2)).
    2:{ rewrite Hdiv at 2. rewrite Z.pow_mul_r by lia.
        rewrite Z.pow_2_r. reflexivity. }
    replace (if Z.odd (n / 2) then 1 else 1) with 1 in Hr
      by (destruct (Z.odd (n / 2)); reflexivity).
    split; [exact Hr|exact Rr].
Qed.

Lemma rounds_fuel n :
  0 <= n -> rounds n <= Z.of_nat (S (2 * Z.to_nat (Z.log2 n + 1))).
Proof.
  intros Hn. unfold rounds. pose proof (Z.log2_nonneg n).
  destruct (n <=? 0), (Z.odd n); lia.
Qed.

(** [power] on a valid receiver other than zero: the magnitude is the
    power of the magnitude; the sign is the sign of the receiver for an
    even exponent of 2 or more and + for an odd one. *)
Lemma power_holds a s v n :
  holds a s v -> s = 1 \/ s = -1 -> v <> 0 -> 2 <= n ->
  exists r,
    power a (Some n) = Ok (Some (mkOutcome r RThis)) /\
    holds r (if Z.odd n then 1 else s) (v ^ n) /\ rest r = rest a.
Proof.
  intros Ha Hs Hv Hn. unfold power.
  destruct (Z.eqb_spec n 0); [lia|]. destruct (Z.eqb_spec n 1); [lia|].
  rewrite copy_id.
  assert (H1 : holds (set_number a (Limbs [1])) s 1).
  { destruct Ha as (l & N & C & M & S). exists [1].
    cbn [set_number number sign]. repeat split; auto. }
  destruct (power_loop_spec n ltac:(lia) _ _ _ s 1 s v H1 Ha ltac:(lia) Hv Hs
              (rounds_fuel n ltac:(lia))) as (r & E & Hr & Rr).
  rewrite E. cbn [bind]. exists r. split; [reflexivity|].
  rewrite Z.mul_1_l in Hr. split; [|exact Rr].
  destruct (Z.odd n); [|rewrite Z.mul_1_r in Hr; exact Hr].
  replace (s * s) with 1 in Hr by (destruct Hs as [-> | ->]; reflexivity).
  exact Hr.
Qed.

(** * The claims *)

(** ** C1: the contract of division *)

(** C1 on the code: [divide(-7, 2)] gives the quotient -3, truncated
    toward zero, and the remainder +1 where the truncated division has
    -1: [quotient*divisor + remainder] is -5 and not the dividend.  Both
    branches of [divide] work on magnitudes and store [rest] with the
    sign +1. *)
Lemma divide_negative_dividend_remainder :
  exists o,
    divide (of_number (-7)) (INum 2) = Ok o /\
    returned o = RThis /\
    value (ret_value o) = -3 /\
    rest_value (rest (ret_value o)) = 1 /\
    Z.rem (-7) 2 = -1 /\
    value (ret_value o) * 2 + rest_value (rest (ret_value o)) <> -7.
Proof.
  eexists. split; [vm_compute; reflexivity|].
  vm_compute. repeat split; discriminate.
Qed.

(** What [divide] does give: for every valid dividend [a] and every valid
    divisor [b] of magnitude 2 or more, a valid quotient [q], which is
    [a] divided by [b] and truncated toward zero, and in [q.rest] the
    remainder as a magnitude, [r = |a rem b|]: [|q|*|b| + r = |a|] and
    [0 <= r < |b|].  The sign of the dividend is what [r] lacks:
    [q*b + sgn(a)*r = a]. *)
Theorem divide_contract (a b : BigNumber) :
  valid a = true -> valid b = true -> 2 <= magnitude b ->
  exists o,
    divide a (IBig b) = Ok o /\
    let q := ret_value o in
    let r := rest_value (rest q) in
    valid q = true /\
    value q = Z.quot (value a) (value b) /\
    r = Z.abs (Z.rem (value a) (value b)) /\
    magnitude q * magnitude b + r = magnitude a /\
    0 <= r < magnitude b /\
    value q * value b + Z.sgn (value a) * r = value a.
Proof.
  intros Va Vb HD.
  destruct (valid_holds a Va) as [Ha Sa]. destruct (valid_holds b Vb) as [Hb Sb].
  pose proof (holds_nonneg _ _ _ Ha) as Hv.
  unfold divide, method. cbn [new_BigNumber bind]. rewrite copy_id.
  unfold value.
  set (s := sign a) in *. set (sb := sign b) in *.
  set (v := magnitude a) in *. set (D := magnitude b) in *.
  destruct (quot_signed s sb v D Sa Sb Hv ltac:(lia)) as [Q R].
  pose proof (Z.mod_pos_bound v D ltac:(lia)) as Hm.
  pose proof (Z.div_mod v D ltac:(lia)) as Hdm.
  destruct (Z.eq_dec v 0) as [Hz|Hnz].
  - exists (mkOutcome a (RNew zero)). split.
    { unfold divide_big. rewrite (isZero_holds _ _ _ Hb), (isZero_holds _ _ _ Ha).
      destruct (Z.eqb_spec D 0); [lia|]. destruct (Z.eqb_spec v 0); [|lia].
      reflexivity. }
    cbv zeta. cbn [ret_value returned].
    change (valid zero) with true. change (sign zero) with 1.
    change (magnitude zero) with 0. change (rest_value (rest zero)) with 0.
    rewrite Q, R, Hz. rewrite Z.div_0_l, Z.mod_0_l by lia.
    repeat split; try lia.
  - destruct (divide_big_spec a b s v sb D Ha Hb Hnz HD) as (q & E & Cq & Mq).
    eexists. split; [exact E|]. cbv zeta. cbn [ret_value returned this_after rest].
    cbn [rest_value]. rewrite of_number_value.
    assert (Vq : valid (mkBigNumber (Limbs q) (s * sb)
                          (Some (of_number (v mod D)))) = true
                 /\ magnitude (mkBigNumber (Limbs q) (s * sb)
                          (Some (of_number (v mod D)))) = v / D).
    { apply (holds_valid _ (s * sb)); [exists q; auto|].
      destruct Sa as [-> | ->], Sb as [-> | ->]; auto. }
    destruct Vq as [Vq Mq']. rewrite Mq'. cbn [sign].
    rewrite Q, R.
    split; [exact Vq|]. split; [reflexivity|].
    split; [destruct Sa as [-> | ->]; lia|].
    split; [nia|]. split; [lia|].
    assert (Z.sgn (s * v) = s).
    { destruct Sa as [-> | ->]; [rewrite Z.sgn_pos|rewrite Z.sgn_neg]; lia. }
    assert (s * s = 1) by (destruct Sa as [-> | ->]; lia).
    assert (sb * sb = 1) by (destruct Sb as [-> | ->]; lia).
    nia.
Qed.

(** ** C2: error states *)


(** *** What the operations do with an operand in an error state *)




















(** Division by zero puts a valid receiver in the state DivisionByZero as
    well. *)
Lemma divide_by_zero (a zero_operand : BigNumber) :
  isZero zero_operand = true ->
  divide a (IBig zero_operand)
    = Ok (mkOutcome (set_number a (Sentinel division_by_zero)) RThis).
Proof.
  intros Hz. unfold divide, method. cbn [new_BigNumber bind].
  rewrite copy_id. unfold divide_big. rewrite Hz. reflexivity.
Qed.

(** ** C3: exponent laws *)

(** [power(a, 0)] is a fresh 1, whatever the receiver. *)
Lemma power_exponent_zero (a : BigNumber) :
  power a (Some 0) = Ok (Some (mkOutcome a (RNew (of_number 1)))).
Proof. reflexivity. Qed.

(** [power(a, 1)] returns the receiver as it is. *)
Lemma power_exponent_one (a : BigNumber) :
  power a (Some 1) = Ok (Some (mkOutcome a RThis)).
Proof. reflexivity. Qed.

(** C3 on the code: [power(0, 2)] is 1 and not 0, while
    [multiply(power(0, 1), power(0, 1))] is 0; the accumulator is set to
    [[1]] and [multiply], which returns a fresh zero when an operand is
    zero, leaves it there.  The accumulator also starts with the sign of
    the receiver: [power(-2, 2)] is -4. *)
Lemma power_of_zero_is_one :
  (exists o, power (of_number 0) (Some 2) = Ok (Some o) /\
             returned o = RThis /\
             value (ret_value o) = 1 /\
             toString (ret_value o) = Ok "1"%string) /\
  (exists p m, power (of_number 0) (Some 1) = Ok (Some p) /\
               multiply (ret_value p) (IBig (ret_value p)) = Ok m /\
               value (ret_value m) = 0) /\
  (exists o, power (of_number (-2)) (Some 2) = Ok (Some o) /\
             value (ret_value o) = -4).
Proof.
  split; [|split].
  - eexists. split; [vm_compute; reflexivity|]. vm_compute. repeat split.
  - do 2 eexists. split; [vm_compute; reflexivity|].
    split; [vm_compute; reflexivity|]. vm_compute; reflexivity.
  - eexists. split; [vm_compute; reflexivity|]. vm_compute. reflexivity.
Qed.

(** On a positive receiver the loop is right: [power(a, n)] is a valid
    value, the [n]-th power of [a]. *)
Theorem power_positive a n :
  valid a = true -> 0 < value a -> 0 <= n ->
  exists o,
    power a (Some n) = Ok (Some o) /\
    valid (ret_value o) = true /\ value (ret_value o) = value a ^ n.
Proof.
  intros Va Hpos Hn. destruct (valid_holds a Va) as [Ha Hs].
  unfold value in *. pose proof (holds_nonneg _ _ _ Ha) as Hm.
  assert (S1 : sign a = 1) by (destruct Hs as [S|S]; rewrite S in *; lia).
  rewrite S1 in *. rewrite Z.mul_1_l in *.
  destruct (Z.eq_dec n 0) as [->|N0].
  { eexists. split; [reflexivity|]. cbn [ret_value returned].
    split; reflexivity. }
  destruct (Z.eq_dec n 1) as [->|N1].
  { eexists. split; [reflexivity|]. cbn [ret_value returned this_after].
    rewrite S1, Z.pow_1_r. split; [exact Va|lia]. }
  destruct (power_holds a 1 (magnitude a) n Ha ltac:(auto) ltac:(lia) ltac:(lia))
    as (r & E & Hr & _).
  eexists. split; [exact E|]. cbn [ret_value returned this_after].
  replace (if Z.odd n then 1 else 1) with 1 in Hr by (destruct (Z.odd n); reflexivity).
  destruct (holds_valid _ _ _ Hr ltac:(auto)) as [Vr Mr].
  split; [exact Vr|]. destruct Hr as (l & _ & _ & _ & Sr).
  rewrite Sr, Mr. lia.
Qed.

(** On a positive receiver the value of [power(a, m+n)] is the value of
    [multiply(power(a, m), power(a, n))]. *)
Theorem exponent_law_positive a m n :
  valid a = true -> 0 < value a -> 0 <= m -> 0 <= n ->
  exists o om on p,
    power a (Some (m + n)) = Ok (Some o) /\
    power a (Some m) = Ok (Some om) /\
    power a (Some n) = Ok (Some on) /\
    multiply (ret_value om) (IBig (ret_value on)) = Ok p /\
    value (ret_value p) = value (ret_value o).
Proof.
  intros Va Hpos Hm Hn.
  destruct (power_positive a (m + n) Va Hpos ltac:(lia)) as (o & E & Vo & Xo).
  destruct (power_positive a m Va Hpos Hm) as (om & Em & Vm & Xm).
  destruct (power_positive a n Va Hpos Hn) as (on & En & Vn & Xn).
  destruct (valid_holds _ Vm) as [Hom Sm]. destruct (valid_holds _ Vn) as [Hon Sn].
  assert (Pm : 0 < value a ^ m) by (apply Z.pow_pos_nonneg; lia).
  assert (Pn : 0 < value a ^ n) by (apply Z.pow_pos_nonneg; lia).
  assert (Nm : magnitude (ret_value om) <> 0)
    by (intros Z0; unfold value in Xm at 1; rewrite Z0 in Xm; lia).
  assert (Nn : magnitude (ret_value on) <> 0)
    by (intros Z0; unfold value in Xn at 1; rewrite Z0 in Xn; lia).
  destruct (multiply_holds _ _ _ _ _ _ Hom Hon Nm Nn) as (r & Er & Hr & _).
  exists o, om, on, (mkOutcome r RThis).
  split; [exact E|]. split; [exact Em|]. split; [exact En|].
  split.
  - unfold multiply, method. cbn [new_BigNumber bind]. rewrite copy_id. exact Er.
  - cbn [ret_value returned this_after]. rewrite Xo, Z.pow_add_r by lia.
    rewrite <- Xm, <- Xn. unfold value.
    destruct Hr as (l & N & C & M & S). unfold magnitude at 1, limbs_of at 1.
    rewrite N, S, M. ring.
Qed.

(** ** C4 and C5: the sign of zero *)

(** C4 on the code: the quotient of 3 by -5 is a zero with sign -1, and
    [toString] renders it "-0"; so does the value built from "-0". *)
Lemma negative_zero_rendered :
  (exists o, divide (of_number 3) (INum (-5)) = Ok o /\
             valid (ret_value o) = true /\
             magnitude (ret_value o) = 0 /\ sign (ret_value o) = -1 /\
             toString (ret_value o) = Ok "-0"%string) /\
  (exists b, of_string "-0" = Ok b /\
             magnitude b = 0 /\ sign b = -1 /\
             toString b = Ok "-0"%string).
Proof.
  split.
  - eexists. split; [vm_compute; reflexivity|]. vm_compute. repeat split.
  - eexists. split; [vm_compute; reflexivity|]. vm_compute. repeat split.
Qed.

(** C5 on the code: the valid decimal strings "-0" and "-000" come back
    as "-0", and their sign-normalized form is "0". *)
Lemma round_trip_negative_zero :
  val_of (IStr "-0") = Ok "-0"%string /\ normalize "-0" = "0"%string /\
  val_of (IStr "-000") = Ok "-0"%string /\ normalize "-000" = "0"%string.
Proof. vm_compute. repeat split. Qed.

(** Every other valid decimal string makes the round trip: the decimal
    text of the value built from it is its sign-normalized form; a
    minus sign in front of zeros only comes back as "-0". *)
Theorem decimal_round_trip s :
  valid_decimal s = true ->
  val_of (IStr s) = Ok (if negative_zero s then "-0"%string else normalize s).
Proof.
  intros V. unfold val_of. cbn [new_BigNumber]. unfold valid_decimal in V.
  destruct s as [|c t]; [discriminate|].
  unfold of_string, normalize, negative_zero.
  destruct (Ascii.eqb_spec c "-") as [->|Hm].
  - cbn [orb Ascii.eqb Bool.eqb andb] in *.
    destruct t as [|c' t']; [discriminate|].
    destruct (digits_loop (String c' t') ltac:(discriminate) V) as (this & E & H).
    rewrite E. cbn [bind].
    rewrite (signed_digits_toString (String c' t') this (-1) V H).
    change (-1 >? 0) with false. cbn iota.
    destruct (drop_zeros (String c' t')); reflexivity.
  - destruct (Ascii.eqb_spec c "+") as [->|Hp].
    + cbn [orb Ascii.eqb Bool.eqb andb] in *.
      destruct t as [|c' t']; [discriminate|].
      destruct (digits_loop (String c' t') ltac:(discriminate) V) as (this & E & H).
      rewrite E. cbn [bind].
      rewrite (signed_digits_toString (String c' t') this 1 V H).
      change (1 >? 0) with true. cbn iota.
      destruct (drop_zeros (String c' t')); reflexivity.
    + cbn [orb andb] in *.
      destruct (digits_loop (String c t) ltac:(discriminate) V) as (this & E & H).
      rewrite E. cbn [bind].
      rewrite (signed_digits_toString (String c t) this 1 V H).
      change (1 >? 0) with true. cbn iota.
      destruct (drop_zeros (String c t)); reflexivity.
Qed.

(** ** C6: the remainder field *)

(** C6 on the code: 7 divided by 2 leaves the quotient 3 with [rest] 1;
    dividing that 3 by 1 returns before [rest] is written, so that its
    [rest] is still 1 and [mod] by 1 reports 1, where 3 mod 1 is 0. *)
Lemma divide_by_one_keeps_stale_rest :
  exists o1 o2,
    divide (of_number 7) (INum 2) = Ok o1 /\
    value (this_after o1) = 3 /\ rest_value (rest (this_after o1)) = 1 /\
    divide (this_after o1) (INum 1) = Ok o2 /\
    returned o2 = RThis /\ value (this_after o2) = 3 /\
    rest_value (rest (this_after o2)) = 1 /\
    mod_ (this_after o1) (INum 1) = Ok (Some (of_number 1)) /\
    3 mod 1 = 0.
Proof.
  do 2 eexists. split; [vm_compute; reflexivity|].
  split; [vm_compute; reflexivity|]. split; [vm_compute; reflexivity|].
  split; [vm_compute; reflexivity|]. vm_compute. repeat split.
Qed.

(** ** C7: the limb base *)

(** C7, as stated, fails: 2^26 is a power of two above the base whose
    square does not exceed the largest exactly represented integer. *)
Lemma base_not_largest_counterexample :
  base < 2 ^ 26 /\ 2 ^ 26 * 2 ^ 26 <= MAX_SAFE_INTEGER.
Proof. vm_compute. split; [reflexivity|discriminate]. Qed.

(** C7, amended: the base is the constant 2^25, the same for every
    value; its square, 2^50, does not exceed the largest exactly
    represented integer, and 2^25 is the largest power of two whose square
    does not exceed 2^50, the bound the source relies on.  On limbs below
    the base every intermediate value of the carry loops of [multiply] and
    [_add] is a non-negative integer not above the largest exactly
    represented one, and the carry passed on is below the base. *)
Theorem base_choice :
  base = 2 ^ 25 /\
  base * base = 2 ^ 50 /\
  base * base <= MAX_SAFE_INTEGER /\
  (forall k, 0 <= k -> 2 ^ k * 2 ^ k <= 2 ^ 50 -> 2 ^ k <= base) /\
  (forall remainder r x y,
     limb_ok remainder = true -> limb_ok r = true ->
     limb_ok x = true -> limb_ok y = true ->
     0 <= remainder + (r + x * y) <= MAX_SAFE_INTEGER /\
     limb_ok ((remainder + (r + x * y)) / base) = true /\
     0 <= remainder + (x + y) <= MAX_SAFE_INTEGER).
Proof.
  split; [reflexivity|]. split; [reflexivity|].
  split; [vm_compute; discriminate|]. split.
  - intros k Hk H.
    destruct (Z_le_gt_dec k 25) as [Hle|Hgt].
    + change base with (2 ^ 25). apply Z.pow_le_mono_r; lia.
    + exfalso. assert (2 ^ 26 <= 2 ^ k) by (apply Z.pow_le_mono_r; lia).
      assert (2 ^ 26 * 2 ^ 26 <= 2 ^ k * 2 ^ k) by nia.
      change (2 ^ 26 * 2 ^ 26) with (2 ^ 52) in *.
      assert (2 ^ 50 < 2 ^ 52) by reflexivity. lia.
  - intros c r x y Hc Hr Hx Hy.
    apply limb_ok_iff in Hc, Hr, Hx, Hy.
    pose proof (mul_limbs_bound c r x y Hc Hr Hx Hy) as B.
    assert (M : base * base <= MAX_SAFE_INTEGER) by (vm_compute; discriminate).
    pose proof base_pos.
    split; [lia|]. split; [|nia].
    apply limb_ok_iff. split; [apply Z.div_pos; lia|].
    apply Z.div_lt_upper_bound; lia.
Qed.

Lemma base_choice_witness :
  2 ^ 3 <= base /\ 0 <= 5 + (7 + 11 * 13) <= MAX_SAFE_INTEGER.
Proof.
  destruct base_choice as (_ & _ & _ & H1 & H2). split.
  - apply (H1 3); [lia|vm_compute; discriminate].
  - apply (H2 5 7 11 13); reflexivity.
Defined.

(** ** C8: the fast path of division *)

(** C8, as stated, fails on a divisor of magnitude 1: [divide] returns
    before the loop, so that the remainder of the native branch, 0, is
    not stored and the dividend keeps the [rest] it had. *)
Lemma divide_by_one_skips_fast_path_counterexample :
  exists a b,
    valid a = true /\ valid b = true /\
    magnitude b <> 0 /\ magnitude b < base /\
    divide a (IBig b)
      <> divide_body (native_of b) (set_sign a (sign a * sign b))
                     (set_sign b 1).
Proof.
  exists (mkBigNumber (Limbs [3]) 1 (Some (of_number 1))), (of_number 1).
  repeat split; try (vm_compute; congruence).
Qed.

(** C8, amended: for every valid dividend other than zero and every
    valid divisor whose magnitude is at least 2 and fits in one limb,
    [divide] runs the loop on its native branch, which is the fast path of
    the specification, and returns what the branch of the BigNumber
    arithmetic, segmented by the prime factors of the base, returns on the
    same operands: the same quotient and the same remainder. *)
Theorem native_path_agrees (a b : BigNumber) :
  valid a = true -> valid b = true ->
  magnitude a <> 0 -> 2 <= magnitude b < base ->
  let this := set_sign a (sign a * sign b) in
  let bigNumber := set_sign b 1 in
  let d := magnitude b in
  native_of b = d /\
  divide a (IBig b) = divide_body d this bigNumber /\
  divide_loop d bigNumber (limbs_of a)
    = Ok (mkDivideState (fst (fast_path d (limbs_of a))) zero
                        (snd (fast_path d (limbs_of a)))) /\
  divide_body d this bigNumber = divide_body 0 this bigNumber /\
  exists o, divide a (IBig b) = Ok o /\ returned o = RThis /\
            magnitude (this_after o) = magnitude a / d /\
            rest_value (rest (this_after o)) = magnitude a mod d.
Proof.
  intros Va Vb Hnz HD this bigNumber d.
  destruct (valid_holds a Va) as [Ha Sa]. destruct (valid_holds b Vb) as [Hb Sb].
  fold d in Hb.
  assert (N : native_of b = d) by (apply (native_of_small b (sign b)); [exact Hb|lia]).
  assert (Ht : holds this (sign a * sign b) (magnitude a))
    by (apply holds_set_sign with (s := sign a); exact Ha).
  assert (Hbn : holds bigNumber 1 d)
    by (apply holds_set_sign with (s := sign b); exact Hb).
  assert (E : divide a (IBig b) = divide_body d this bigNumber).
  { unfold divide, method. cbn [new_BigNumber bind]. rewrite copy_id.
    unfold divide_big. rewrite (isZero_holds _ _ _ Hb), (isZero_holds _ _ _ Ha).
    destruct (Z.eqb_spec d 0); [lia|].
    destruct (Z.eqb_spec (magnitude a) 0); [contradiction|].
    fold this bigNumber. rewrite (is_one_holds _ _ _ Hbn).
    destruct (Z.eqb_spec d 1); [lia|]. rewrite N. reflexivity. }
  split; [exact N|]. split; [exact E|].
  split; [apply divide_loop_fast_path; lia|].
  split; [apply (divide_body_agree d this bigNumber _ _ Ht Hbn); lia|].
  destruct (divide_body_native d this bigNumber _ _ Ht ltac:(lia))
    as (q & Eq & Cq & Mq).
  eexists. split; [rewrite E; exact Eq|]. cbn [returned this_after rest].
  split; [reflexivity|]. split; [exact Mq|].
  cbn [rest_value]. apply of_number_value.
Qed.

Lemma native_path_agrees_witness :
  divide (of_number 7321) (IBig (of_number 153))
    = divide_body 153 (of_number 7321) (of_number 153) /\
  divide_body 153 (of_number 7321) (of_number 153)
    = divide_body 0 (of_number 7321) (of_number 153).
Proof.
  destruct (native_path_agrees (of_number 7321) (of_number 153))
    as (_ & H1 & _ & H2 & _);
    [reflexivity | reflexivity | vm_compute; discriminate
    | vm_compute; split; [discriminate | reflexivity] |].
  split; [exact H1|exact H2].
Defined.

(** ** C9: the constructor and its input *)

(** C9 on the code: the constructor takes the sign token out of the
    caller's array, which is left with the digits only; a second
    construction from the same array gives 517 where the first gave
    -517. *)
Lemma constructor_shifts_input_array :
  exists b1 b2,
    new_BigNumber (IArr [EStr "-"; ENum 5; ENum 1; ENum 7])
      = Ok (b1, IArr [ENum 5; ENum 1; ENum 7]) /\
    toString b1 = Ok "-517"%string /\
    new_BigNumber (IArr [ENum 5; ENum 1; ENum 7])
      = Ok (b2, IArr [ENum 5; ENum 1; ENum 7]) /\
    toString b2 = Ok "517"%string.
Proof.
  do 2 eexists. split; [vm_compute; reflexivity|].
  split; [vm_compute; reflexivity|]. split; [vm_compute; reflexivity|]. vm_compute; reflexivity.
Qed.

(** An instance is copied field by field and is left as it was. *)
Lemma constructor_copies_instance (b : BigNumber) :
  new_BigNumber (IBig b) = Ok (b, IBig b).
Proof. cbn [new_BigNumber]. rewrite copy_id. reflexivity. Qed.

(** The constructor returns an object on every input, and leaves every
    input as it was but an array that starts with a sign token. *)
Lemma constructor_keeps_input x :
  has_sign_token x = false -> exists b, new_BigNumber x = Ok (b, x).
Proof.
  intros Hx. destruct x as [|n|s|a|b]; cbn [new_BigNumber].
  - eexists. reflexivity.
  - eexists. reflexivity.
  - destruct (of_string_total s) as (b & E). rewrite E. eexists. reflexivity.
  - unfold of_array.
    assert (L : exists ok this,
              array_loop (rev a) blank (of_number 1) = Ok (ok, this)).
    { apply (array_loop_total (rev a) blank (of_number 1) 0 1);
        [left; repeat split|apply holds_of_number; lia|lia]. }
    destruct L as (ok & this & E).
    destruct a as [|e a'].
    + cbn [rev] in *. rewrite E. cbn [bind]. destruct ok; eexists; reflexivity.
    + cbn [has_sign_token] in Hx. rewrite Hx. rewrite E. cbn [bind].
      destruct ok; eexists; reflexivity.
  - eexists. reflexivity.
Qed.

Lemma load_update h l b x :
  Legacy.load h l = Some x -> Legacy.load (Legacy.update h l b) l = Some b.
Proof.
  unfold Legacy.load. revert l. induction h as [|y h IH]; intros [|l] H;
    cbn in *; try discriminate; auto.
Qed.

(** In the legacy file the object the constructor returns for an instance
    is the instance: what is done to the one is done to the other. *)
Lemma legacy_constructor_aliases h a b :
  Legacy.load h a = Some b ->
  Legacy.construct h a false = (h, a) /\
  Legacy.load (fst (Legacy.abs h (snd (Legacy.construct h a false)))) a
    = Some (set_sign b 1).
Proof.
  intros H. split; [reflexivity|].
  cbn [Legacy.construct snd]. unfold Legacy.abs. rewrite H. cbn [fst].
  apply load_update with (x := b), H.
Qed.

Example legacy_alias_example :
  let h := [mkBigNumber (Limbs [7; 1; 5]) (-1) None] in
  let '(h1, c) := Legacy.construct h 0%nat false in
  let '(h2, _) := Legacy.abs h1 c in
  option_map Legacy.toString (Legacy.load h 0%nat) = Some "-517"%string /\
  option_map Legacy.toString (Legacy.load h2 0%nat) = Some "517"%string.
Proof. vm_compute. split; reflexivity. Qed.

(** ** C10: methods called without argument *)

(** C10: [power] without argument returns [undefined], while [add],
    [subtract], [multiply] and [divide] without argument return their
    receiver, unchanged. *)
Theorem power_without_argument (this : BigNumber) :
  power this None = Ok None /\
  add this IUndefined = Ok (mkOutcome this RThis) /\
  subtract this IUndefined = Ok (mkOutcome this RThis) /\
  multiply this IUndefined = Ok (mkOutcome this RThis) /\
  divide this IUndefined = Ok (mkOutcome this RThis).
Proof. repeat split. Qed.

(** * Further properties of the engine *)

(** ** Operands of any sign *)

Lemma compare_big_signs a b sa sb va vb :
  holds a sa va -> holds b sb vb ->
  compare_big a b
    = Ok (if sa =? sb then sa * Z.sgn (va - vb) else sa).
Proof.
  intros Ha Hb. destruct (Z.eqb_spec sa sb) as [->|N].
  - apply compare_holds; assumption.
  - destruct Ha as (la & _ & _ & _ & Sa), Hb as (lb & _ & _ & _ & Sb).
    unfold compare_big. rewrite Sa, Sb.
    destruct (Z.eqb_spec sa sb); [contradiction|reflexivity].
Qed.

Lemma well_formed_holds b :
  well_formed b = true ->
  holds b (sign b) (magnitude b) /\ (sign b = 1 \/ sign b = -1) /\
  (magnitude b = 0 -> sign b = 1) /\ 0 <= magnitude b.
Proof.
  unfold well_formed. rewrite andb_true_iff, orb_true_iff, negb_true_iff.
  intros [V W]. destruct (valid_holds b V) as [H S].
  split; [exact H|]. split; [exact S|]. split.
  - intros Z0. destruct W as [W|W]; [rewrite Z0 in W; discriminate|].
    apply Z.eqb_eq, W.
  - apply (holds_nonneg _ _ _ H).
Qed.

Lemma compare_big_value a b :
  well_formed a = true -> well_formed b = true ->
  compare_big a b = Ok (Z.sgn (value a - value b)).
Proof.
  intros Wa Wb.
  destruct (well_formed_holds a Wa) as (Ha & Sa & Za & Na).
  destruct (well_formed_holds b Wb) as (Hb & Sb & Zb & Nb).
  rewrite (compare_big_signs _ _ _ _ _ _ Ha Hb). unfold value. f_equal.
  destruct Sa as [Sa|Sa], Sb as [Sb|Sb]; rewrite Sa, Sb in *; cbn [Z.eqb Pos.eqb].
  - rewrite !Z.mul_1_l. reflexivity.
  - symmetry. apply Z.sgn_pos.
    assert (magnitude b <> 0) by (intros E; specialize (Zb E); lia). lia.
  - symmetry. apply Z.sgn_neg.
    assert (magnitude a <> 0) by (intros E; specialize (Za E); lia). lia.
  - replace (-1 * magnitude a - -1 * magnitude b)
      with (- (magnitude a - magnitude b)) by lia.
    rewrite Z.sgn_opp. ring.
Qed.

Lemma subtract_big_same a b s va vb :
  holds a s va -> holds b s vb ->
  exists a', subtract_big a b = Ok (mkOutcome a' RThis) /\
             holds a' (if s * Z.sgn (va - vb) <? 0 then -1 else 1)
                      (Z.abs (va - vb)) /\
             rest a' = rest a.
Proof.
  intros Ha Hb.
  pose proof Ha as (la & Na & Ca & Ma & Sa).
  pose proof Hb as (lb & Nb & Cb & Mb & Sb).
  unfold subtract_big. rewrite Sa, Sb, Z.eqb_refl. cbn [negb].
  rewrite copy_id. rewrite (lt_holds _ _ _ _ _ Ha Hb). cbn [bind].
  set (s' := if s * Z.sgn (va - vb) <? 0 then -1 else 1).
  rewrite copy_id.
  assert (Ha' : holds (set_sign a s') s' va).
  { exists la. cbn [set_sign number sign]. auto. }
  rewrite (lt_holds _ _ 1 va vb); [|apply (holds_abs_of _ s'), Ha'
                                   |apply (holds_abs_of _ s), Hb].
  cbn [bind].
  pose proof (canonical_in_range _ Ca) as Ra.
  pose proof (canonical_in_range _ Cb) as Rb.
  pose proof (canonical_length _ Ca) as La.
  pose proof (canonical_length _ Cb) as Lb.
  destruct (Z.ltb_spec (1 * Z.sgn (va - vb)) 0) as [Hlt|Hge].
  - assert (va < vb) by (destruct (Z.sgn_spec (va - vb)) as [[? ?]|[[? ?]|[? ?]]]; lia).
    unfold _subtract. cbn [set_sign number]. rewrite Na, Nb. cbn [bind].
    eexists. split; [reflexivity|]. split; [|reflexivity].
    destruct (subtract_loop_value lb la Rb Ra) as (I1 & I2 & I3);
      [apply canonical_length_le; auto; lia|lia|].
    destruct (trim_spec (subtract_loop lb la 0) I1) as [T1 T2].
    { intros E. rewrite E in I2. simpl in I2. lia. }
    exists (trim (subtract_loop lb la 0)). cbn [set_number set_sign number sign].
    repeat split; auto. lia.
  - assert (vb <= va) by (destruct (Z.sgn_spec (va - vb)) as [[? ?]|[[? ?]|[? ?]]]; lia).
    unfold _subtract. cbn [set_sign number]. rewrite Na, Nb. cbn [bind].
    eexists. split; [reflexivity|]. split; [|reflexivity].
    destruct (subtract_loop_value la lb Ra Rb) as (I1 & I2 & I3);
      [apply canonical_length_le; auto; lia|lia|].
    destruct (trim_spec (subtract_loop la lb 0) I1) as [T1 T2].
    { intros E. rewrite E in I2. simpl in I2. lia. }
    exists (trim (subtract_loop la lb 0)). cbn [set_number set_sign number sign].
    repeat split; auto. lia.
Qed.

Lemma subtract_big_unlike a b sa sb va vb :
  holds a sa va -> holds b sb vb -> sa <> sb ->
  exists a', subtract_big a b = Ok (mkOutcome a' RThis) /\
             holds a' sa (va + vb) /\ rest a' = rest a.
Proof.
  intros (la & Na & Ca & Ma & Sa) (lb & Nb & Cb & Mb & Sb) N.
  unfold subtract_big, _add. rewrite Sa, Sb.
  destruct (Z.eqb_spec sa sb); [contradiction|]. cbn [negb].
  rewrite Na, Nb. cbn [bind].
  eexists. split; [reflexivity|].
  destruct (add_loop_canonical la lb Ca Cb) as [C M].
  split; [|reflexivity].
  exists (add_loop la lb 0). cbn [set_number number sign].
  repeat split; auto. lia.
Qed.

(** The sign and the magnitude of a difference. *)
Lemma difference_sign s va vb :
  s = 1 \/ s = -1 -> 0 <= va -> 0 <= vb ->
  (if s * Z.sgn (va - vb) <? 0 then -1 else 1) * Z.abs (va - vb)
    = s * va - s * vb /\
  (Z.abs (va - vb) = 0 ->
   (if s * Z.sgn (va - vb) <? 0 then -1 else 1) = 1).
Proof.
  intros S Ha Hb.
  destruct (Z.sgn_spec (va - vb)) as [[? E]|[[? E]|[? E]]]; rewrite E;
    destruct S as [-> | ->];
    match goal with |- context [?x <? 0] => destruct (Z.ltb_spec x 0) end;
    lia.
Qed.

Lemma holds_well_formed b s v :
  holds b s v -> s = 1 \/ s = -1 -> (v = 0 -> s = 1) -> well_formed b = true.
Proof.
  intros H S Z0. destruct (holds_valid _ _ _ H S) as [V M].
  unfold well_formed. rewrite V, M. cbn [andb].
  destruct H as (l & _ & _ & _ & Sb). rewrite Sb.
  destruct (Z.eqb_spec v 0) as [E|E]; cbn [negb orb]; [|reflexivity].
  apply Z.eqb_eq, Z0, E.
Qed.

Lemma holds_value b s v : holds b s v -> value b = s * v.
Proof.
  intros (l & N & _ & M & S). unfold value, magnitude, limbs_of.
  rewrite N, S, M. reflexivity.
Qed.

(** [subtract] on valid operands, whatever their signs. *)
Lemma subtract_big_valid a b :
  valid a = true -> valid b = true ->
  exists a' s v,
    subtract_big a b = Ok (mkOutcome a' RThis) /\
    holds a' s v /\ (s = 1 \/ s = -1) /\
    s * v = value a - value b /\
    (v = 0 -> s = -1 -> magnitude a = 0 /\ sign a = -1) /\
    rest a' = rest a.
Proof.
  intros Va Vb.
  destruct (valid_holds a Va) as [Ha Sa]. destruct (valid_holds b Vb) as [Hb Sb].
  pose proof (holds_nonneg _ _ _ Ha) as Na.
  pose proof (holds_nonneg _ _ _ Hb) as Nb.
  unfold value.
  destruct (Z.eq_dec (sign a) (sign b)) as [E|N].
  - rewrite <- E in Hb.
    destruct (subtract_big_same a b _ _ _ Ha Hb) as (a' & Ea & H' & R').
    destruct (difference_sign (sign a) _ _ Sa Na Nb) as [D1 D2].
    exists a'. do 2 eexists. split; [exact Ea|]. split; [exact H'|].
    split; [destruct (_ <? 0); auto|].
    split; [rewrite D1, <- E; reflexivity|].
    split; [|exact R']. intros Z0 S1. rewrite (D2 Z0) in S1. discriminate.
  - destruct (subtract_big_unlike a b _ _ _ _ Ha Hb N) as (a' & Ea & H' & R').
    exists a'. do 2 eexists. split; [exact Ea|]. split; [exact H'|].
    split; [exact Sa|].
    split; [destruct Sa as [S|S], Sb as [T|T]; rewrite S, T in *; lia|].
    split; [|exact R']. intros Z0 S1. split; [lia|exact S1].
Qed.

(** [add] on valid operands, whatever their signs.  A receiver below
    zero that takes an operand of sign 1 is left with its magnitude and
    the sign 1; the sum is the object that [bigNumber.minus(this)]
    returns. *)
Lemma add_big_valid a b :
  valid a = true -> valid b = true ->
  exists o s v,
    add_big a b = Ok o /\
    holds (ret_value o) s v /\ (s = 1 \/ s = -1) /\
    s * v = value a + value b /\
    (v = 0 -> s = -1 -> magnitude a = 0 /\ sign a = -1) /\
    (if (sign a =? -1) && (sign b =? 1)
     then returned o = RNew (ret_value o) /\ this_after o = set_sign a 1
     else returned o = RThis /\ rest (this_after o) = rest a).
Proof.
  intros Va Vb.
  destruct (valid_holds a Va) as [Ha Sa]. destruct (valid_holds b Vb) as [Hb Sb].
  pose proof (holds_nonneg _ _ _ Ha) as Na.
  pose proof (holds_nonneg _ _ _ Hb) as Nb.
  unfold value.
  destruct (Z.eq_dec (sign a) (sign b)) as [E|N].
  - rewrite <- E in Hb.
    destruct (add_holds a b _ _ _ Ha Hb) as (a' & Ea & H' & R').
    exists (mkOutcome a' RThis). do 2 eexists. split; [exact Ea|].
    cbn [ret_value returned this_after].
    split; [exact H'|]. split; [exact Sa|].
    split; [rewrite <- E; lia|].
    split; [intros Z0 S1; split; [lia|exact S1]|].
    rewrite <- E. destruct Sa as [S|S]; rewrite S; cbn [Z.eqb Pos.eqb andb];
      split; auto.
  - unfold add_big. destruct (Z.eqb_spec (sign a) (sign b)); [contradiction|].
    cbn [negb]. rewrite !copy_id.
    destruct Sa as [S|S], Sb as [T|T]; try (exfalso; apply N; congruence);
      rewrite ?S, ?T in *.
    + change (1 >? 0) with true. cbv iota.
      assert (Hb' : holds (set_sign b 1) 1 (magnitude b))
        by (apply holds_set_sign with (s := -1); exact Hb).
      destruct (subtract_big_same a (set_sign b 1) 1 _ _ Ha Hb')
        as (a' & Ea & H' & R').
      destruct (difference_sign 1 (magnitude a) (magnitude b)) as [D1 D2];
        auto.
      exists (mkOutcome a' RThis). do 2 eexists. split; [exact Ea|].
      cbn [ret_value returned this_after].
      split; [exact H'|]. split; [destruct (_ <? 0); auto|].
      split; [rewrite D1; lia|].
      split; [intros Z0 S1; rewrite (D2 Z0) in S1; discriminate|].
      cbn [Z.eqb Pos.eqb andb]. split; auto.
    + change (-1 >? 0) with false. cbv iota.
      assert (Ha' : holds (set_sign a 1) 1 (magnitude a))
        by (apply holds_set_sign with (s := -1); exact Ha).
      destruct (subtract_big_same b (set_sign a 1) 1 _ _ Hb Ha')
        as (b' & Eb & H' & R').
      destruct (difference_sign 1 (magnitude b) (magnitude a)) as [D1 D2];
        auto.
      rewrite Eb. cbn [bind].
      eexists. do 2 eexists. split; [reflexivity|].
      cbn [ret_value returned this_after on_local].
      split; [exact H'|]. split; [destruct (_ <? 0); auto|].
      split; [rewrite D1; lia|].
      split; [intros Z0 S1; rewrite (D2 Z0) in S1; discriminate|].
      cbn [Z.eqb Pos.eqb andb]. split; reflexivity.
Qed.

(** [multiply] on valid operands. *)
Lemma multiply_big_valid a b :
  valid a = true -> valid b = true ->
  exists o s v,
    multiply_big a b = Ok o /\
    holds (ret_value o) s v /\ (s = 1 \/ s = -1) /\
    s * v = value a * value b /\ (v = 0 -> s = 1) /\
    (if value a * value b =? 0
     then returned o = RNew zero /\ this_after o = a
     else returned o = RThis /\ rest (this_after o) = rest a).
Proof.
  intros Va Vb.
  destruct (valid_holds a Va) as [Ha Sa]. destruct (valid_holds b Vb) as [Hb Sb].
  pose proof (holds_nonneg _ _ _ Ha) as Na.
  pose proof (holds_nonneg _ _ _ Hb) as Nb.
  unfold value.
  destruct (Z.eq_dec (magnitude a) 0) as [Za|Za];
    [|destruct (Z.eq_dec (magnitude b) 0) as [Zb|Zb]].
  - exists (mkOutcome a (RNew zero)), 1, 0.
    split; [apply (multiply_holds_zero _ _ _ _ _ _ Ha Hb); auto|].
    cbn [ret_value returned this_after].
    split; [apply holds_zero|]. split; [auto|]. split; [rewrite Za; lia|].
    split; [auto|]. rewrite Za.
    replace (sign a * 0 * (sign b * magnitude b)) with 0 by lia.
    split; reflexivity.
  - exists (mkOutcome a (RNew zero)), 1, 0.
    split; [apply (multiply_holds_zero _ _ _ _ _ _ Ha Hb); auto|].
    cbn [ret_value returned this_after].
    split; [apply holds_zero|]. split; [auto|]. split; [rewrite Zb; lia|].
    split; [auto|]. rewrite Zb.
    replace (sign a * magnitude a * (sign b * 0)) with 0 by lia.
    split; reflexivity.
  - destruct (multiply_holds _ _ _ _ _ _ Ha Hb Za Zb) as (a' & Ea & H' & R').
    exists (mkOutcome a' RThis). do 2 eexists. split; [exact Ea|].
    cbn [ret_value returned this_after].
    split; [exact H'|].
    split; [destruct Sa as [S|S], Sb as [T|T]; rewrite S, T; auto|].
    split; [ring|]. split; [nia|].
    destruct (Z.eqb_spec (sign a * magnitude a * (sign b * magnitude b)) 0)
      as [E|E]; [|split; auto].
    exfalso. destruct Sa as [S|S], Sb as [T|T]; rewrite S, T in E; nia.
Qed.

(** ** Comparison *)

(** X1: on two valid values, none of them a zero of sign -1, [_compare]
    returns the sign of the difference of their values: -1, 0 or 1. *)
Theorem compare_sign_of_difference (a b : BigNumber) :
  well_formed a = true -> well_formed b = true ->
  _compare a (IBig b) = Ok (Z.sgn (value a - value b)).
Proof.
  intros Wa Wb. unfold _compare. cbn [new_BigNumber bind].
  rewrite copy_id. apply compare_big_value; assumption.
Qed.

Lemma compare_sign_of_difference_witness :
  _compare (of_number (-40000000)) (IBig (of_number 3))
    = Ok (Z.sgn (value (of_number (-40000000)) - value (of_number 3))).
Proof.
  apply (compare_sign_of_difference (of_number (-40000000)) (of_number 3));
    reflexivity.
Defined.

(** X2: on two valid values, none of them a zero of sign -1, the methods
    [lt], [lte], [gt], [gte] and [equals] decide the order of the values;
    two values that [equals] accepts have the same limbs and the same
    sign. *)
Theorem comparison_methods (a b : BigNumber) :
  well_formed a = true -> well_formed b = true ->
  lt a (IBig b) = Ok (value a <? value b) /\
  lte a (IBig b) = Ok (value a <=? value b) /\
  gt a (IBig b) = Ok (value a >? value b) /\
  gte a (IBig b) = Ok (value a >=? value b) /\
  equals a (IBig b) = Ok (value a =? value b) /\
  (equals a (IBig b) = Ok true -> number a = number b /\ sign a = sign b).
Proof.
  intros Wa Wb.
  assert (C : _compare a (IBig b) = Ok (Z.sgn (value a - value b))).
  { unfold _compare. cbn [new_BigNumber bind].
    rewrite copy_id. apply compare_big_value; assumption. }
  unfold lt, lte, gt, gte, equals. rewrite C. cbn [bind].
  assert (S : Z.sgn (value a - value b) = -1 /\ value a < value b \/
              Z.sgn (value a - value b) = 0 /\ value a = value b \/
              Z.sgn (value a - value b) = 1 /\ value a > value b).
  { destruct (Z.sgn_spec (value a - value b)) as [[? ?]|[[? ?]|[? ?]]]; lia. }
  assert (E5 : (Z.sgn (value a - value b) =? 0) = (value a =? value b)).
  { destruct S as [[-> ?]|[[-> ?]|[-> ?]]];
      destruct (Z.eqb_spec (value a) (value b)); try reflexivity; lia. }
  split.
  { f_equal. destruct S as [[-> ?]|[[-> ?]|[-> ?]]];
      destruct (Z.ltb_spec (value a) (value b)); try reflexivity; lia. }
  split.
  { f_equal. destruct S as [[-> ?]|[[-> ?]|[-> ?]]];
      destruct (Z.leb_spec (value a) (value b)); try reflexivity; lia. }
  split.
  { f_equal. destruct S as [[-> ?]|[[-> ?]|[-> ?]]];
      destruct (Z.gtb_spec (value a) (value b)); try reflexivity; lia. }
  split.
  { f_equal. destruct S as [[-> ?]|[[-> ?]|[-> ?]]];
      destruct (Z.geb_spec (value a) (value b)); try reflexivity; lia. }
  split; [f_equal; exact E5|].
  intros Q. injection Q as Q. rewrite E5 in Q. apply Z.eqb_eq in Q.
  destruct (well_formed_holds a Wa) as ((la & Na & Ca & Ma & _) & Sa & Za & Pa).
  destruct (well_formed_holds b Wb) as ((lb & Nb & Cb & Mb & _) & Sb & Zb & Pb).
  unfold value in Q.
  assert (M : magnitude a = magnitude b)
    by (destruct Sa as [S1|S1], Sb as [S2|S2]; rewrite S1, S2 in *; lia).
  split.
  - rewrite Na, Nb. f_equal. apply canonical_unique; auto. congruence.
  - destruct Sa as [S1|S1], Sb as [S2|S2]; rewrite S1, S2 in *; auto; lia.
Qed.

Lemma comparison_methods_witness :
  lt (of_number (-40000000)) (IBig (of_number 3))
    = Ok (value (of_number (-40000000)) <? value (of_number 3)) /\
  equals (of_number 12) (IBig (of_number 12))
    = Ok (value (of_number 12) =? value (of_number 12)).
Proof.
  split.
  - apply (comparison_methods (of_number (-40000000)) (of_number 3));
      reflexivity.
  - apply (comparison_methods (of_number 12) (of_number 12)); reflexivity.
Defined.

(** X3: [_compare] looks at the signs first and, when they differ, at
    nothing else: a value of sign -1 is below every value of sign 1 and
    not equal to it, so that a zero of sign -1 is below a zero of
    sign 1. *)
Theorem negative_sign_is_below (a b : BigNumber) :
  valid a = true -> valid b = true -> sign a = -1 -> sign b = 1 ->
  lt a (IBig b) = Ok true /\ equals a (IBig b) = Ok false /\
  gt b (IBig a) = Ok true /\ equals b (IBig a) = Ok false.
Proof.
  intros Va Vb Sa Sb.
  destruct (valid_holds a Va) as [Ha _]. destruct (valid_holds b Vb) as [Hb _].
  unfold lt, gt, equals, _compare. cbn [new_BigNumber bind]. rewrite !copy_id.
  rewrite (compare_big_signs _ _ _ _ _ _ Ha Hb).
  rewrite (compare_big_signs _ _ _ _ _ _ Hb Ha).
  rewrite Sa, Sb. repeat split.
Qed.

Lemma negative_sign_is_below_witness :
  lt (mkBigNumber (Limbs [0]) (-1) None) (IBig zero) = Ok true /\
  equals (mkBigNumber (Limbs [0]) (-1) None) (IBig zero) = Ok false.
Proof.
  destruct (negative_sign_is_below (mkBigNumber (Limbs [0]) (-1) None) zero)
    as (H1 & H2 & _); try reflexivity.
  split; [exact H1|exact H2].
Defined.

(** ** Addition, subtraction and multiplication *)

(** X4: on valid operands of any signs [add] returns a valid value, the
    sum of the two. *)
Theorem add_sum (a b : BigNumber) :
  valid a = true -> valid b = true ->
  exists o,
    add a (IBig b) = Ok o /\
    valid (ret_value o) = true /\
    value (ret_value o) = value a + value b.
Proof.
  intros Va Vb.
  destruct (add_big_valid a b Va Vb) as (o & s & v & E & H & S & X & _).
  exists o. unfold add, method. cbn [new_BigNumber bind]. rewrite copy_id.
  split; [exact E|].
  split; [apply (holds_valid _ _ _ H S)|].
  rewrite (holds_value _ _ _ H). exact X.
Qed.

Lemma add_sum_witness :
  exists o,
    add (of_number (-5)) (IBig (of_number 40000000)) = Ok o /\
    valid (ret_value o) = true /\
    value (ret_value o) = value (of_number (-5)) + value (of_number 40000000).
Proof.
  apply (add_sum (of_number (-5)) (of_number 40000000)); reflexivity.
Defined.

(** X5: [add] returns its receiver, which then holds the sum, unless the
    receiver has the sign -1 and the operand the sign 1: then the sum is
    another object, and the receiver is left with its own magnitude and
    the sign 1. *)
Theorem add_receiver (a b : BigNumber) :
  valid a = true -> valid b = true ->
  exists o,
    add a (IBig b) = Ok o /\
    if (sign a =? -1) && (sign b =? 1)
    then returned o = RNew (ret_value o) /\
         this_after o = set_sign a 1 /\
         value (this_after o) = - value a
    else returned o = RThis /\
         value (this_after o) = value a + value b.
Proof.
  intros Va Vb.
  destruct (add_big_valid a b Va Vb) as (o & s & v & E & H & S & X & _ & R).
  exists o. unfold add, method. cbn [new_BigNumber bind]. rewrite copy_id.
  split; [exact E|].
  destruct ((sign a =? -1) && (sign b =? 1)) eqn:C.
  - destruct R as [R1 R2]. split; [exact R1|]. split; [exact R2|].
    apply andb_true_iff in C as [C _]. apply Z.eqb_eq in C.
    rewrite R2. unfold value, magnitude, limbs_of. cbn [set_sign sign number].
    rewrite C. lia.
  - destruct R as [R1 _]. split; [exact R1|].
    rewrite <- X, <- (holds_value _ _ _ H).
    unfold ret_value. rewrite R1. reflexivity.
Qed.

Lemma add_receiver_witness :
  exists o,
    add (of_number (-5)) (IBig (of_number 3)) = Ok o /\
    returned o = RNew (ret_value o) /\
    this_after o = set_sign (of_number (-5)) 1 /\
    value (this_after o) = - value (of_number (-5)).
Proof.
  apply (add_receiver (of_number (-5)) (of_number 3)); reflexivity.
Defined.

(** X6: on valid operands of any signs [subtract] returns its receiver,
    which then is a valid value, the difference of the two, with the
    [rest] it had. *)
Theorem subtract_difference (a b : BigNumber) :
  valid a = true -> valid b = true ->
  exists o,
    subtract a (IBig b) = Ok o /\
    returned o = RThis /\
    valid (this_after o) = true /\
    value (this_after o) = value a - value b /\
    rest (this_after o) = rest a.
Proof.
  intros Va Vb.
  destruct (subtract_big_valid a b Va Vb)
    as (a' & s & v & E & H & S & X & _ & R).
  exists (mkOutcome a' RThis).
  unfold subtract, method. cbn [new_BigNumber bind]. rewrite copy_id.
  split; [exact E|]. cbn [returned this_after].
  split; [reflexivity|].
  split; [apply (holds_valid _ _ _ H S)|].
  split; [rewrite (holds_value _ _ _ H); exact X|exact R].
Qed.

Lemma subtract_difference_witness :
  exists o,
    subtract (of_number (-5)) (IBig (of_number (-40000000))) = Ok o /\
    returned o = RThis /\
    valid (this_after o) = true /\
    value (this_after o)
      = value (of_number (-5)) - value (of_number (-40000000)) /\
    rest (this_after o) = rest (of_number (-5)).
Proof.
  apply (subtract_difference (of_number (-5)) (of_number (-40000000)));
    reflexivity.
Defined.

(** X7: on valid operands [multiply] returns a valid value, the product
    of the two.  When the product is not zero it is the receiver that
    holds it; when an operand is zero the receiver is left as it was and
    a fresh zero is returned. *)
Theorem multiply_product (a b : BigNumber) :
  valid a = true -> valid b = true ->
  exists o,
    multiply a (IBig b) = Ok o /\
    valid (ret_value o) = true /\
    value (ret_value o) = value a * value b /\
    if value a * value b =? 0
    then returned o = RNew zero /\ this_after o = a
    else returned o = RThis.
Proof.
  intros Va Vb.
  destruct (multiply_big_valid a b Va Vb) as (o & s & v & E & H & S & X & _ & R).
  exists o. unfold multiply, method. cbn [new_BigNumber bind]. rewrite copy_id.
  split; [exact E|].
  split; [apply (holds_valid _ _ _ H S)|].
  split; [rewrite (holds_value _ _ _ H); exact X|].
  destruct (value a * value b =? 0); [exact R|apply R].
Qed.

Lemma multiply_product_witness :
  exists o,
    multiply (of_number (-40000000)) (IBig (of_number 40000001)) = Ok o /\
    valid (ret_value o) = true /\
    value (ret_value o)
      = value (of_number (-40000000)) * value (of_number 40000001).
Proof.
  destruct (multiply_product (of_number (-40000000)) (of_number 40000001))
    as (o & H1 & H2 & H3 & _); try reflexivity.
  exists o. split; [exact H1|]. split; [exact H2|exact H3].
Defined.

(** X8: [add], [subtract] and [multiply] do not make a zero of sign -1:
    on a receiver that is none, and any valid operand, what they return
    is none. *)
Theorem sign_of_zero_kept (a b : BigNumber) :
  well_formed a = true -> valid b = true ->
  (exists o, add a (IBig b) = Ok o /\ well_formed (ret_value o) = true) /\
  (exists o, subtract a (IBig b) = Ok o /\ well_formed (ret_value o) = true) /\
  (exists o, multiply a (IBig b) = Ok o /\ well_formed (ret_value o) = true).
Proof.
  intros Wa Vb.
  destruct (well_formed_holds a Wa) as (_ & _ & Za & _).
  assert (Va : valid a = true)
    by (unfold well_formed in Wa; apply andb_true_iff in Wa; apply Wa).
  unfold add, subtract, multiply, method. cbn [new_BigNumber bind].
  rewrite copy_id. split; [|split].
  - destruct (add_big_valid a b Va Vb) as (o & s & v & E & H & S & _ & Z0 & _).
    exists o. split; [exact E|]. apply (holds_well_formed _ _ _ H S).
    intros Zv. destruct S as [S|S]; [exact S|].
    destruct (Z0 Zv S) as [M N]. specialize (Za M). lia.
  - destruct (subtract_big_valid a b Va Vb)
      as (a' & s & v & E & H & S & _ & Z0 & _).
    exists (mkOutcome a' RThis). split; [exact E|]. cbn [ret_value returned this_after].
    apply (holds_well_formed _ _ _ H S).
    intros Zv. destruct S as [S|S]; [exact S|].
    destruct (Z0 Zv S) as [M N]. specialize (Za M). lia.
  - destruct (multiply_big_valid a b Va Vb)
      as (o & s & v & E & H & S & _ & Z0 & _).
    exists o. split; [exact E|]. apply (holds_well_formed _ _ _ H S), Z0.
Qed.

Lemma sign_of_zero_kept_witness :
  exists o, add (of_number 5) (IBig (of_number (-5))) = Ok o /\
            well_formed (ret_value o) = true.
Proof.
  apply (sign_of_zero_kept (of_number 5) (of_number (-5))); reflexivity.
Defined.

(** ** Division by any divisor *)

(** [divide] on valid operands and a divisor other than zero. *)
Lemma divide_big_valid a b :
  valid a = true -> valid b = true -> magnitude b <> 0 ->
  exists o s v,
    divide_big a b = Ok o /\
    holds (ret_value o) s v /\ (s = 1 \/ s = -1) /\
    s * v = Z.quot (value a) (value b).
Proof.
  intros Va Vb Nz.
  destruct (valid_holds a Va) as [Ha Sa]. destruct (valid_holds b Vb) as [Hb Sb].
  pose proof (holds_nonneg _ _ _ Ha) as Na.
  pose proof (holds_nonneg _ _ _ Hb) as Nb.
  destruct (quot_signed (sign a) (sign b) (magnitude a) (magnitude b) Sa Sb Na
              ltac:(lia)) as [Q _].
  unfold value. rewrite Q.
  destruct (Z.eq_dec (magnitude a) 0) as [Za|Za].
  - exists (mkOutcome a (RNew zero)), 1, 0. split.
    { unfold divide_big. rewrite (isZero_holds _ _ _ Hb), (isZero_holds _ _ _ Ha).
      destruct (Z.eqb_spec (magnitude b) 0); [contradiction|].
      destruct (Z.eqb_spec (magnitude a) 0); [reflexivity|contradiction]. }
    cbn [ret_value returned]. split; [apply holds_zero|]. split; [auto|].
    rewrite Za, Z.div_0_l by lia. lia.
  - destruct (Z.eq_dec (magnitude b) 1) as [Ob|Ob].
    + exists (mkOutcome (set_sign a (sign a * sign b)) RThis).
      exists (sign a * sign b), (magnitude a). split.
      { unfold divide_big.
        rewrite (isZero_holds _ _ _ Hb), (isZero_holds _ _ _ Ha).
        destruct (Z.eqb_spec (magnitude b) 0); [contradiction|].
        destruct (Z.eqb_spec (magnitude a) 0); [contradiction|].
        rewrite (is_one_holds (set_sign b 1) 1 (magnitude b))
          by (apply holds_set_sign with (s := sign b); exact Hb).
        rewrite Ob. reflexivity. }
      cbn [ret_value returned this_after].
      split; [apply holds_set_sign with (s := sign a); exact Ha|].
      split; [destruct Sa as [S|S], Sb as [T|T]; rewrite S, T; auto|].
      rewrite Ob, Z.div_1_r. reflexivity.
    + destruct (divide_big_spec a b _ _ _ _ Ha Hb Za ltac:(lia))
        as (q & E & Cq & Mq).
      eexists. exists (sign a * sign b), (magnitude a / magnitude b).
      split; [exact E|]. cbn [ret_value returned this_after].
      split; [exists q; cbn [number sign]; auto|].
      split; [destruct Sa as [S|S], Sb as [T|T]; rewrite S, T; auto|].
      reflexivity.
Qed.

Lemma multiplier_finite i :
  (i <= 40)%nat -> 0 < base ^ Z.of_nat i < 2 ^ 1024.
Proof.
  intros H. change base with (2 ^ 25).
  rewrite <- Z.pow_mul_r by lia. split.
  - apply Z.pow_pos_nonneg; lia.
  - apply Z.pow_lt_mono_r; lia.
Qed.

Lemma multiplier_infinite : 2 ^ 1024 <= base ^ Z.of_nat 41.
Proof.
  change base with (2 ^ 25).
  rewrite <- Z.pow_mul_r by lia. apply Z.pow_le_mono_r; lia.
Qed.

Lemma singleDigit_loop_stop l digit multiplier :
  10 <= digit -> singleDigit_loop l digit multiplier = Some digit.
Proof.
  intros H. destruct l as [|x l]; cbn [singleDigit_loop]; [reflexivity|].
  destruct (Z.ltb_spec digit 10); [lia|reflexivity].
Qed.

(** The loop of [_singleDigit] from the index [i] on, with a [digit]
    below 10: it ends with the exact sum where that is below 10 and no
    index from 41 on is visited, with [NaN] or [Infinity] where the sum
    is below 10 and the index 41 is visited, and with no number below 10
    where the sum is 10 or more. *)
Lemma singleDigit_loop_spec l :
  in_range l = true ->
  forall i digit,
  (i <= 41)%nat -> 0 <= digit < 10 ->
  (digit + base ^ Z.of_nat i * mag l < 10 ->
   singleDigit_loop l digit (base ^ Z.of_nat i) =
     if (i + List.length l <=? 41)%nat
     then Some (digit + base ^ Z.of_nat i * mag l) else None) /\
  (10 <= digit + base ^ Z.of_nat i * mag l ->
   match singleDigit_loop l digit (base ^ Z.of_nat i) with
   | Some d => 10 <= d
   | None => True
   end).
Proof.
  induction l as [|x l IH]; intros Hl i digit Hi Hd;
    cbn [singleDigit_loop mag List.length].
  - rewrite Nat.add_0_r. destruct (Nat.leb_spec i 41); [|lia].
    split; intros; [f_equal|]; lia.
  - apply in_range_cons in Hl as [Hx Hl].
    pose proof (mag_nonneg _ Hl) as Hp. pose proof base_pos as Hb.
    destruct (Z.ltb_spec digit 10) as [_|]; [|lia].
    destruct (Nat.eq_dec i 41) as [->|Hne].
    + pose proof multiplier_infinite.
      destruct (Z.ltb_spec (base ^ Z.of_nat 41) (2 ^ 1024)); [lia|].
      split; [reflexivity|trivial].
    + destruct (multiplier_finite i ltac:(lia)) as [Hm Hf].
      destruct (Z.ltb_spec (base ^ Z.of_nat i) (2 ^ 1024)); [|lia].
      assert (base ^ Z.of_nat i * base = base ^ Z.of_nat (S i)) as ->
        by (rewrite Nat2Z.inj_succ, Z.pow_succ_r by lia; ring).
      assert (0 <= base ^ Z.of_nat i * x) by nia.
      assert (0 <= base ^ Z.of_nat (S i) * mag l)
        by (apply Z.mul_nonneg_nonneg; [apply Z.pow_nonneg|]; lia).
      assert (base ^ Z.of_nat i * (x + base * mag l)
              = base ^ Z.of_nat i * x + base ^ Z.of_nat (S i) * mag l) as ->
        by (rewrite Nat2Z.inj_succ, Z.pow_succ_r by lia; ring).
      replace (i + S (List.length l))%nat with (S i + List.length l)%nat
        by lia.
      rewrite Z.add_assoc.
      destruct (Z.ltb_spec (digit + base ^ Z.of_nat i * x) 10) as [Hlt|Hge].
      * exact (IH Hl (S i) (digit + base ^ Z.of_nat i * x)
                  ltac:(lia) ltac:(lia)).
      * rewrite singleDigit_loop_stop by exact Hge.
        split; intros; lia.
Qed.

(** ** Division, remainder and powers *)

(** X9: on valid operands and a divisor other than zero, [divide] returns
    a valid value, the quotient of the values truncated toward zero; this
    is so for the divisors 1 and -1 and for the dividend zero too, where
    [divide] returns before its loop. *)
Theorem divide_quotient (a b : BigNumber) :
  valid a = true -> valid b = true -> value b <> 0 ->
  exists o,
    divide a (IBig b) = Ok o /\
    valid (ret_value o) = true /\
    value (ret_value o) = Z.quot (value a) (value b).
Proof.
  intros Va Vb Nz.
  assert (Mb : magnitude b <> 0) by (unfold value in Nz; lia).
  destruct (divide_big_valid a b Va Vb Mb) as (o & s & v & E & H & S & X).
  exists o. unfold divide, method. cbn [new_BigNumber bind]. rewrite copy_id.
  split; [exact E|].
  split; [apply (holds_valid _ _ _ H S)|].
  rewrite (holds_value _ _ _ H). exact X.
Qed.

Lemma divide_quotient_witness :
  exists o,
    divide (of_number (-40000007)) (IBig (of_number (-1))) = Ok o /\
    valid (ret_value o) = true /\
    value (ret_value o)
      = Z.quot (value (of_number (-40000007))) (value (of_number (-1))).
Proof.
  apply (divide_quotient (of_number (-40000007)) (of_number (-1)));
    [reflexivity|reflexivity|vm_compute; discriminate].
Defined.

(** X10: division undoes multiplication: for valid [a] and [b], [b]
    other than zero, dividing by [b] what [a.multiply(b)] returned gives
    a value equal to [a]. *)
Theorem multiply_then_divide (a b : BigNumber) :
  valid a = true -> valid b = true -> value b <> 0 ->
  exists o1 o2,
    multiply a (IBig b) = Ok o1 /\
    divide (ret_value o1) (IBig b) = Ok o2 /\
    valid (ret_value o2) = true /\
    value (ret_value o2) = value a.
Proof.
  intros Va Vb Nz.
  assert (Mb : magnitude b <> 0) by (unfold value in Nz; lia).
  destruct (multiply_big_valid a b Va Vb) as (o1 & s1 & v1 & E1 & H1 & S1 & X1 & _).
  destruct (holds_valid _ _ _ H1 S1) as [V1 _].
  destruct (divide_big_valid (ret_value o1) b V1 Vb Mb)
    as (o2 & s2 & v2 & E2 & H2 & S2 & X2).
  exists o1, o2. unfold multiply, divide, method. cbn [new_BigNumber bind].
  rewrite !copy_id. split; [exact E1|]. split; [exact E2|].
  split; [apply (holds_valid _ _ _ H2 S2)|].
  rewrite (holds_value _ _ _ H2), X2, (holds_value _ _ _ H1), X1.
  apply Z.quot_mul, Nz.
Qed.

Lemma multiply_then_divide_witness :
  exists o1 o2,
    multiply (of_number (-40000007)) (IBig (of_number 33554433)) = Ok o1 /\
    divide (ret_value o1) (IBig (of_number 33554433)) = Ok o2 /\
    valid (ret_value o2) = true /\
    value (ret_value o2) = value (of_number (-40000007)).
Proof.
  apply (multiply_then_divide (of_number (-40000007)) (of_number 33554433));
    [reflexivity|reflexivity|vm_compute; discriminate].
Defined.

(** X11: subtraction undoes addition and addition undoes subtraction:
    for valid [a] and [b], subtracting [b] from what [a.add(b)] returned,
    and adding [b] to what [a.subtract(b)] returned, give values equal
    to [a]. *)
Theorem add_then_subtract (a b : BigNumber) :
  valid a = true -> valid b = true ->
  (exists o1 o2,
     add a (IBig b) = Ok o1 /\
     subtract (ret_value o1) (IBig b) = Ok o2 /\
     valid (ret_value o2) = true /\ value (ret_value o2) = value a) /\
  (exists o1 o2,
     subtract a (IBig b) = Ok o1 /\
     add (ret_value o1) (IBig b) = Ok o2 /\
     valid (ret_value o2) = true /\ value (ret_value o2) = value a).
Proof.
  intros Va Vb.
  unfold add, subtract, method. cbn [new_BigNumber bind]. rewrite !copy_id.
  split.
  - destruct (add_big_valid a b Va Vb) as (o1 & s1 & v1 & E1 & H1 & S1 & X1 & _).
    destruct (holds_valid _ _ _ H1 S1) as [V1 _].
    destruct (subtract_big_valid (ret_value o1) b V1 Vb)
      as (a2 & s2 & v2 & E2 & H2 & S2 & X2 & _).
    exists o1, (mkOutcome a2 RThis). split; [exact E1|]. split; [exact E2|].
    cbn [ret_value returned this_after].
    split; [apply (holds_valid _ _ _ H2 S2)|].
    rewrite (holds_value _ _ _ H2), X2, (holds_value _ _ _ H1), X1. ring.
  - destruct (subtract_big_valid a b Va Vb)
      as (a1 & s1 & v1 & E1 & H1 & S1 & X1 & _).
    destruct (holds_valid _ _ _ H1 S1) as [V1 _].
    destruct (add_big_valid a1 b V1 Vb) as (o2 & s2 & v2 & E2 & H2 & S2 & X2 & _).
    exists (mkOutcome a1 RThis), o2. split; [exact E1|].
    cbn [ret_value returned this_after]. split; [exact E2|].
    split; [apply (holds_valid _ _ _ H2 S2)|].
    rewrite (holds_value _ _ _ H2), X2, (holds_value _ _ _ H1), X1. ring.
Qed.

Lemma add_then_subtract_witness :
  exists o1 o2,
    add (of_number (-5)) (IBig (of_number 40000000)) = Ok o1 /\
    subtract (ret_value o1) (IBig (of_number 40000000)) = Ok o2 /\
    valid (ret_value o2) = true /\
    value (ret_value o2) = value (of_number (-5)).
Proof.
  apply (add_then_subtract (of_number (-5)) (of_number 40000000)); reflexivity.
Defined.

(** X12: for a valid dividend other than zero and a valid divisor of
    magnitude 2 or more, [mod] returns an object, a valid value that is
    not negative: the remainder of the magnitude of the dividend by the
    magnitude of the divisor, whatever the signs of the two. *)
Theorem mod_remainder (a b : BigNumber) :
  valid a = true -> valid b = true -> value a <> 0 -> 2 <= magnitude b ->
  exists r,
    mod_ a (IBig b) = Ok (Some r) /\
    valid r = true /\ sign r = 1 /\
    value r = magnitude a mod magnitude b /\
    0 <= value r < magnitude b.
Proof.
  intros Va Vb Nz HD.
  destruct (valid_holds a Va) as [Ha Sa]. destruct (valid_holds b Vb) as [Hb Sb].
  assert (Ma : magnitude a <> 0) by (unfold value in Nz; lia).
  destruct (divide_big_spec a b _ _ _ _ Ha Hb Ma HD) as (q & E & _).
  pose proof (Z.mod_pos_bound (magnitude a) (magnitude b) ltac:(lia)) as B.
  exists (of_number (magnitude a mod magnitude b)).
  unfold mod_, divide, method. cbn [new_BigNumber bind]. rewrite copy_id, E.
  cbn [bind ret_value returned this_after rest].
  split; [reflexivity|]. split; [apply of_number_valid|].
  destruct (holds_of_number (magnitude a mod magnitude b) ltac:(lia))
    as (l & _ & _ & _ & S).
  split; [exact S|]. rewrite of_number_value. split; [reflexivity|exact B].
Qed.

Lemma mod_remainder_witness :
  exists r,
    mod_ (of_number (-40000007)) (IBig (of_number 12)) = Ok (Some r) /\
    valid r = true /\ sign r = 1 /\
    value r = magnitude (of_number (-40000007)) mod magnitude (of_number 12) /\
    0 <= value r < magnitude (of_number 12).
Proof.
  apply (mod_remainder (of_number (-40000007)) (of_number 12));
    [reflexivity|reflexivity|vm_compute; discriminate|vm_compute; discriminate].
Defined.

(** X13: where [divide] returns before its loop, [mod] has no remainder
    of this division to return.  On a divisor zero, and on a divisor 1 or
    -1 with a dividend other than zero, it returns what the field [rest]
    of the dividend held before the call; on a dividend zero and a
    divisor other than zero it returns the native 0 of a fresh zero. *)
Theorem mod_without_loop (a b : BigNumber) :
  valid a = true -> valid b = true ->
  (value b = 0 -> mod_ a (IBig b) = Ok (rest a)) /\
  (magnitude b = 1 -> value a <> 0 -> mod_ a (IBig b) = Ok (rest a)) /\
  (value b <> 0 -> value a = 0 -> mod_ a (IBig b) = Ok None).
Proof.
  intros Va Vb.
  destruct (valid_holds a Va) as [Ha Sa]. destruct (valid_holds b Vb) as [Hb Sb].
  unfold mod_, divide, method, divide_big. cbn [new_BigNumber bind].
  rewrite copy_id.
  rewrite (isZero_holds _ _ _ Hb), (isZero_holds _ _ _ Ha).
  rewrite (is_one_holds (set_sign b 1) 1 (magnitude b))
    by (apply holds_set_sign with (s := sign b); exact Hb).
  unfold value. split; [|split].
  - intros Zb. assert (M : magnitude b = 0) by lia. rewrite M. reflexivity.
  - intros Ob Nz. rewrite Ob.
    destruct (Z.eqb_spec (magnitude a) 0); [lia|]. reflexivity.
  - intros Nb Za.
    destruct (Z.eqb_spec (magnitude b) 0); [lia|].
    destruct (Z.eqb_spec (magnitude a) 0); [reflexivity|lia].
Qed.

Lemma mod_without_loop_witness :
  mod_ (of_number 5) (IBig (of_number 0)) = Ok (rest (of_number 5)).
Proof.
  destruct (mod_without_loop (of_number 5) (of_number 0)) as (H & _);
    [reflexivity|reflexivity|].
  apply H. reflexivity.
Defined.

(** X14: a division of a valid value by a valid zero does not throw: it
    returns its receiver, which from then on is in the error state of a
    division by zero and renders as the text of that error; its sign and
    its [rest] are as before. *)
Theorem divide_by_zero_error (a b : BigNumber) :
  valid a = true -> valid b = true -> value b = 0 ->
  exists o,
    divide a (IBig b) = Ok o /\
    returned o = RThis /\
    error_state (this_after o) = Some division_by_zero /\
    valid (this_after o) = false /\
    toString (this_after o) = Ok "Invalid Number - Division By Zero"%string /\
    sign (this_after o) = sign a /\ rest (this_after o) = rest a.
Proof.
  intros Va Vb Zb.
  destruct (valid_holds b Vb) as [Hb Sb].
  assert (M : magnitude b = 0) by (unfold value in Zb; lia).
  eexists. unfold divide, method, divide_big. cbn [new_BigNumber bind].
  rewrite copy_id, (isZero_holds _ _ _ Hb), M. cbn [Z.eqb].
  split; [reflexivity|]. repeat split.
Qed.

Lemma divide_by_zero_error_witness :
  exists o,
    divide (of_number 5) (IBig (of_number 0)) = Ok o /\
    returned o = RThis /\
    error_state (this_after o) = Some division_by_zero /\
    valid (this_after o) = false /\
    toString (this_after o) = Ok "Invalid Number - Division By Zero"%string /\
    sign (this_after o) = sign (of_number 5) /\
    rest (this_after o) = rest (of_number 5).
Proof.
  apply (divide_by_zero_error (of_number 5) (of_number 0)); reflexivity.
Defined.

(** X15: for a valid receiver other than zero and an exponent of 2 or
    more, [power] returns its receiver as a valid value whose magnitude
    is the power of the magnitude.  Its sign is 1 when the exponent is
    odd and the sign of the receiver when the exponent is even, so that
    the value is the power of the value exactly when the receiver is
    above zero. *)
Theorem power_sign_and_magnitude (a : BigNumber) (n : Z) :
  valid a = true -> value a <> 0 -> 2 <= n ->
  exists o,
    power a (Some n) = Ok (Some o) /\
    returned o = RThis /\
    valid (this_after o) = true /\
    magnitude (this_after o) = magnitude a ^ n /\
    sign (this_after o) = (if Z.odd n then 1 else sign a) /\
    (value (this_after o) = value a ^ n <-> 0 < value a).
Proof.
  intros Va Nz Hn.
  destruct (valid_holds a Va) as [Ha Sa].
  pose proof (holds_nonneg _ _ _ Ha) as Na.
  assert (Ma : magnitude a <> 0) by (unfold value in Nz; lia).
  destruct (power_holds a _ _ n Ha Sa Ma Hn) as (r & E & Hr & _).
  exists (mkOutcome r RThis). split; [exact E|]. cbn [returned this_after].
  split; [reflexivity|].
  assert (Sr : (if Z.odd n then 1 else sign a) = 1 \/
               (if Z.odd n then 1 else sign a) = -1)
    by (destruct (Z.odd n); auto).
  destruct (holds_valid _ _ _ Hr Sr) as [Vr Mr].
  split; [exact Vr|]. split; [exact Mr|].
  pose proof Hr as (l & _ & _ & _ & S). split; [exact S|].
  rewrite (holds_value _ _ _ Hr). unfold value.
  assert (P : 0 < magnitude a ^ n) by (apply Z.pow_pos_nonneg; lia).
  destruct Sa as [S1|S1]; rewrite S1.
  - rewrite Z.mul_1_l. destruct (Z.odd n); split; intros; lia.
  - replace (-1 * magnitude a) with (- magnitude a) by lia.
    destruct (Z.odd n) eqn:O.
    + rewrite Z.pow_opp_odd by (apply Z.odd_spec, O). split; intros; lia.
    + rewrite Z.pow_opp_even by (apply Z.even_spec; rewrite <- Z.negb_odd, O; reflexivity).
      split; intros; lia.
Qed.

Lemma power_sign_and_magnitude_witness :
  exists o,
    power (of_number (-3)) (Some 5) = Ok (Some o) /\
    returned o = RThis /\
    valid (this_after o) = true /\
    magnitude (this_after o) = magnitude (of_number (-3)) ^ 5 /\
    sign (this_after o) = 1.
Proof.
  destruct (power_sign_and_magnitude (of_number (-3)) 5)
    as (o & H1 & H2 & H3 & H4 & H5 & _);
    [reflexivity|vm_compute; discriminate|lia|].
  exists o. repeat split; assumption.
Defined.

(** ** Tests and digits *)

(** X16: on limbs in range, canonical or not, [isZero] holds exactly of
    the arrays that stand for zero. *)
Theorem isZero_value (a : BigNumber) (l : list Z) :
  number a = Limbs l -> in_range l = true ->
  isZero a = (magnitude a =? 0).
Proof.
  intros N R. unfold isZero, magnitude, limbs_of. rewrite N.
  pose proof (isZero_in_range l R) as H.
  destruct (Z.eqb_spec (mag l) 0) as [E|E].
  - apply H, E.
  - destruct (forallb _ l); [exfalso; apply E, H; reflexivity|reflexivity].
Qed.

Lemma isZero_value_witness :
  isZero (mkBigNumber (Limbs [0; 0; 0]) (-1) None)
    = (magnitude (mkBigNumber (Limbs [0; 0; 0]) (-1) None) =? 0).
Proof.
  apply (isZero_value _ [0; 0; 0]); reflexivity.
Defined.

(** X17: on limbs in range [_singleDigit] returns the one decimal digit
    of a magnitude below 10 held in at most 41 limbs, and the empty
    string for every magnitude of 10 or more and for every array of more
    than 41 limbs: [multiplier] is [Infinity] from the index 41 on. *)
Theorem singleDigit_value (a : BigNumber) (l : list Z) :
  number a = Limbs l -> in_range l = true ->
  _singleDigit a =
    if (magnitude a <? 10) && (List.length l <=? 41)%nat
    then String (digit_char (magnitude a)) EmptyString
    else EmptyString.
Proof.
  intros N R. unfold _singleDigit, magnitude, limbs_of. rewrite N.
  destruct (singleDigit_loop_spec l R 0 0 ltac:(lia) ltac:(lia)) as [I1 I2].
  pose proof (mag_nonneg _ R) as P.
  change (base ^ Z.of_nat 0) with 1 in I1, I2.
  rewrite Z.add_0_l, Z.mul_1_l in I1, I2. cbn [Nat.add] in I1.
  destruct (Z.ltb_spec (mag l) 10) as [Hlt|Hge]; cbn [andb].
  - rewrite (I1 Hlt).
    destruct (Nat.leb_spec (List.length l) 41); [|reflexivity].
    destruct (Z.ltb_spec (mag l) 10); [|lia].
    apply number_toString_digit. lia.
  - specialize (I2 Hge).
    destruct (singleDigit_loop l 0 1) as [d|]; [|reflexivity].
    destruct (Z.ltb_spec d 10); [lia|reflexivity].
Qed.

Lemma singleDigit_value_witness :
  _singleDigit (mkBigNumber (Limbs [7; 0]) 1 None) = "7"%string /\
  _singleDigit (mkBigNumber (Limbs [7; 1]) 1 None) = EmptyString /\
  _singleDigit (mkBigNumber (Limbs (7 :: repeat 0 41)) 1 None) = EmptyString.
Proof.
  split; [|split].
  - apply (singleDigit_value (mkBigNumber (Limbs [7; 0]) 1 None) [7; 0]);
      reflexivity.
  - apply (singleDigit_value (mkBigNumber (Limbs [7; 1]) 1 None) [7; 1]);
      reflexivity.
  - apply (singleDigit_value (mkBigNumber (Limbs (7 :: repeat 0 41)) 1 None)
                             (7 :: repeat 0 41));
      reflexivity.
Defined.

(** ** The decimal text of a value *)

Lemma digit_char_digit d :
  0 <= d <= 9 ->
  is_digit (digit_char d) = true /\ digit_of (digit_char d) = d /\
  Ascii.eqb (digit_char d) "-" = false /\ Ascii.eqb (digit_char d) "+" = false.
Proof.
  intros H.
  assert (E : d = 0 \/ d = 1 \/ d = 2 \/ d = 3 \/ d = 4 \/ d = 5 \/ d = 6 \/
              d = 7 \/ d = 8 \/ d = 9) by lia.
  repeat (destruct E as [->|E]; [repeat split; reflexivity|]).
  subst. repeat split; reflexivity.
Qed.

Lemma decimal_digits_zero k : decimal_digits k 0 = EmptyString.
Proof. destruct k; reflexivity. Qed.

(** The digits that [toString] collects: all of them digits, the first
    of them not 0, and their decimal value the number they come from. *)
Lemma decimal_digits_spec k :
  forall v, 0 < v < 10 ^ Z.of_nat k ->
  all_digits (decimal_digits k v) = true /\
  string_value (decimal_digits k v) = v /\
  drop_zeros (decimal_digits k v) = decimal_digits k v /\
  decimal_digits k v <> EmptyString.
Proof.
  induction k as [|k IH]; intros v Hv.
  - change (10 ^ Z.of_nat 0) with 1 in Hv. lia.
  - cbn [decimal_digits]. destruct (Z.eqb_spec v 0) as [E|E]; [lia|].
    pose proof (Z.mod_pos_bound v 10 ltac:(lia)) as Hm.
    pose proof (Z.div_mod v 10 ltac:(lia)) as Hdm.
    rewrite number_toString_digit by lia.
    destruct (digit_char_digit (v mod 10) ltac:(lia)) as (D1 & D2 & _).
    rewrite all_digits_snoc, string_value_snoc, drop_zeros_app, D1, D2.
    assert (Hq : v / 10 < 10 ^ Z.of_nat k).
    { apply Z.div_lt_upper_bound; [lia|].
      rewrite Nat2Z.inj_succ, Z.pow_succ_r in Hv by lia. lia. }
    destruct (Z.eq_dec (v / 10) 0) as [Q|Q].
    + rewrite Q, decimal_digits_zero. cbn [drop_zeros all_digits forallb
        list_ascii_of_string andb append].
      change (string_value EmptyString) with 0.
      split; [reflexivity|]. split; [lia|]. split; [|discriminate].
      destruct (Ascii.eqb_spec (digit_char (v mod 10)) "0") as [Z0|Z0];
        [|reflexivity].
      exfalso. rewrite <- D2, Z0 in Hdm. change (digit_of "0") with 0 in Hdm. lia.
    + assert (0 <= v / 10) by (apply Z.div_pos; lia).
      destruct (IH (v / 10) ltac:(lia)) as (I1 & I2 & I3 & I4).
      rewrite I1, I2, I3. split; [reflexivity|]. split; [lia|].
      split.
      * destruct (decimal_digits k (v / 10)); [congruence|reflexivity].
      * destruct (decimal_digits k (v / 10)); [congruence|discriminate].
Qed.

Lemma normalize_digits d :
  all_digits d = true -> d <> EmptyString ->
  d = "0"%string \/ drop_zeros d = d -> normalize d = d.
Proof.
  intros A N [->|Z0]; [reflexivity|].
  destruct d as [|c t]; [congruence|].
  unfold normalize.
  assert (C : is_digit c = true).
  { unfold all_digits in A. cbn [list_ascii_of_string forallb] in A.
    apply andb_true_iff in A. apply A. }
  destruct (is_digit_char c C) as (B & R & _).
  destruct (digit_char_digit (digit_of c) B) as (_ & _ & M & P).
  rewrite R in M, P. rewrite M, P, Z0. reflexivity.
Qed.

(** The text that [toString] returns for a valid value. *)
Lemma toString_valid b :
  valid b = true ->
  exists digits,
    toString b = Ok ((if (sign b >? 0)%Z then EmptyString else "-") ++ digits)%string /\
    all_digits digits = true /\ digits <> EmptyString /\
    string_value digits = magnitude b /\
    (digits = "0"%string \/ drop_zeros digits = digits).
Proof.
  intros V. destruct (valid_holds b V) as [H S].
  pose proof (holds_nonneg _ _ _ H) as P.
  destruct (toString_holds b _ _ H) as (k & B & E).
  destruct (Z.eqb_spec (magnitude b) 0) as [Z0|Z0].
  - exists "0"%string. split; [exact E|]. split; [reflexivity|].
    split; [discriminate|]. split; [rewrite Z0; reflexivity|left; reflexivity].
  - destruct (decimal_digits_spec k (magnitude b) ltac:(lia)) as (D1 & D2 & D3 & D4).
    exists (decimal_digits k (magnitude b)). repeat split; auto.
Qed.

(** X18: the text of a valid value is a minus sign when its sign is -1,
    and then decimal digits in normal form (no zero in front, but the one
    digit of zero) whose decimal value is the magnitude. *)
Theorem toString_decimal (b : BigNumber) :
  valid b = true ->
  exists digits,
    toString b
      = Ok ((if (sign b =? -1)%Z then "-" else EmptyString) ++ digits)%string /\
    all_digits digits = true /\
    normalize digits = digits /\
    string_value digits = magnitude b.
Proof.
  intros V. destruct (toString_valid b V) as (d & E & A & N & X & Z0).
  exists d. split.
  - rewrite E. destruct (valid_holds b V) as [_ [S|S]]; rewrite S; reflexivity.
  - split; [exact A|]. split; [apply normalize_digits; assumption|exact X].
Qed.

Lemma toString_decimal_witness :
  exists digits,
    toString (of_number (-40000007))
      = Ok ((if (sign (of_number (-40000007)) =? -1)%Z then "-" else EmptyString)
            ++ digits)%string /\
    all_digits digits = true /\
    normalize digits = digits /\
    string_value digits = magnitude (of_number (-40000007)).
Proof.
  apply (toString_decimal (of_number (-40000007))); reflexivity.
Defined.

(** X19: the constructor reads back what [toString] wrote: the text of
    a valid value, given to the constructor, makes a value with the same
    limbs and the same sign. *)
Theorem parse_after_print (b : BigNumber) :
  valid b = true ->
  exists s b',
    toString b = Ok s /\
    new_BigNumber (IStr s) = Ok (b', IStr s) /\
    number b' = number b /\ sign b' = sign b.
Proof.
  intros V. destruct (toString_valid b V) as (d & E & A & N & X & _).
  destruct (valid_holds b V) as [(l & Nb & Cb & Mb & _) S].
  destruct (digits_loop d N A) as (this & L & (l' & N' & C' & M' & _)).
  assert (Q : l' = l) by (apply canonical_unique; auto; congruence).
  destruct d as [|c t]; [congruence|].
  assert (C : is_digit c = true).
  { unfold all_digits in A. cbn [list_ascii_of_string forallb] in A.
    apply andb_true_iff in A. apply A. }
  destruct (is_digit_char c C) as (B & R & _).
  destruct (digit_char_digit (digit_of c) B) as (_ & _ & M & P).
  rewrite R in M, P.
  destruct S as [S|S]; rewrite S in E; rewrite S.
  - change (1 >? 0) with true in E. cbv iota in E. cbn [append] in E.
    do 2 eexists. split; [exact E|]. cbn [new_BigNumber of_string].
    rewrite M, P. cbn [orb]. rewrite L. cbn [bind].
    split; [reflexivity|]. cbn [set_sign number sign].
    split; [congruence|reflexivity].
  - change (-1 >? 0) with false in E. cbv iota in E. cbn [append] in E.
    do 2 eexists. split; [exact E|]. cbn [new_BigNumber of_string].
    change (Ascii.eqb "-" "-") with true. cbn [orb].
    change (Ascii.eqb "-" "+") with false. cbv iota.
    rewrite L. cbn [bind].
    split; [reflexivity|]. cbn [set_sign number sign].
    split; [congruence|reflexivity].
Qed.

Lemma parse_after_print_witness :
  exists s b',
    toString (of_number (-40000007)) = Ok s /\
    new_BigNumber (IStr s) = Ok (b', IStr s) /\
    number b' = number (of_number (-40000007)) /\
    sign b' = sign (of_number (-40000007)).
Proof.
  apply (parse_after_print (of_number (-40000007))); reflexivity.
Defined.

(** ** The constructor *)

Lemma of_number_well_formed n : well_formed (of_number n) = true.
Proof.
  unfold of_number. destruct (Z.eqb_spec n 0) as [E|E]; [reflexivity|].
  destruct (carry_limbs_spec (Z.abs n) ltac:(lia)) as (H1 & H2 & H3).
  assert (H : holds (mkBigNumber (Limbs (carry_limbs (Z.abs n)))
                       (if n <? 0 then -1 else 1) None)
                    (if n <? 0 then -1 else 1) (Z.abs n)).
  { exists (carry_limbs (Z.abs n)). cbn [number sign].
    split; [reflexivity|]. split; [|auto].
    unfold canonical. rewrite H1, H3 by lia. reflexivity. }
  apply (holds_well_formed _ _ _ H); [destruct (n <? 0); auto|lia].
Qed.

(** X20: for every native integer, zero and the integers below zero
    among them, the constructor makes a valid value with the value of
    that integer, without [rest]; its zero has the sign 1. *)
Theorem native_constructor (n : Z) :
  exists b,
    new_BigNumber (INum n) = Ok (b, INum n) /\
    valid b = true /\ value b = n /\
    well_formed b = true /\ rest b = None.
Proof.
  exists (of_number n). split; [reflexivity|].
  split; [apply of_number_valid|]. split; [apply of_number_value|].
  split; [apply of_number_well_formed|apply rest_of_number].
Qed.

Lemma digit_not_sign c :
  is_digit c = true -> Ascii.eqb c "-" || Ascii.eqb c "+" = false.
Proof.
  intros Hc.
  destruct (Ascii.eqb_spec c "-") as [->|]; [discriminate|].
  destruct (Ascii.eqb_spec c "+") as [->|]; [discriminate|reflexivity].
Qed.

(** The branch of the constructor for a string, on digits that are all
    digits. *)
Lemma of_string_digits s :
  all_digits (digits_part s) = true -> digits_part s <> EmptyString ->
  exists this,
    of_string s = Ok (set_sign this (sign_part s)) /\
    holds this 1 (string_value (digits_part s)).
Proof.
  intros A N. destruct s as [|c t]; [cbn in N; congruence|].
  destruct (digits_loop _ N A) as (this & E & H).
  exists this. split; [|exact H].
  unfold of_string, sign_part. cbn [digits_part] in E.
  destruct (Ascii.eqb_spec c "-") as [->|Hm].
  - cbn [orb Ascii.eqb Bool.eqb andb] in *. rewrite E. reflexivity.
  - destruct (Ascii.eqb_spec c "+") as [->|Hp].
    + cbn [orb Ascii.eqb Bool.eqb andb] in *. rewrite E. reflexivity.
    + cbn [orb] in *. rewrite E. reflexivity.
Qed.

(** X21: the constructor on a string never throws, and what it makes is
    settled by the characters after an optional sign.  A character that
    is no digit gives a value in the error state of an invalid number;
    one digit or more give a valid value with the sign of the string and
    the decimal value of the digits as magnitude; the empty string gives
    zero; and a sign alone gives an object without limbs. *)
Theorem string_constructor (s : string) :
  exists b,
    new_BigNumber (IStr s) = Ok (b, IStr s) /\
    (all_digits (digits_part s) = false ->
     error_state b = Some invalid /\ toString b = Ok "Invalid Number"%string) /\
    (all_digits (digits_part s) = true -> digits_part s <> EmptyString ->
     valid b = true /\ sign b = sign_part s /\
     magnitude b = string_value (digits_part s)) /\
    (s = EmptyString -> b = zero) /\
    (s <> EmptyString -> digits_part s = EmptyString ->
     number b = Limbs [] /\ sign b = sign_part s).
Proof.
  cbn [new_BigNumber].
  destruct (all_digits (digits_part s)) eqn:A.
  - destruct s as [|c t].
    { exists zero. split; [reflexivity|]. split; [discriminate|].
      split; [intros _ N; cbn in N; congruence|].
      split; [reflexivity|congruence]. }
    destruct (digits_part (String c t)) as [|c' t'] eqn:D.
    + (* a sign alone *)
      cbn [digits_part] in D.
      destruct (Ascii.eqb c "-" || Ascii.eqb c "+") eqn:S; [|discriminate].
      subst t. eexists. unfold of_string. rewrite S.
      cbn [list_ascii_of_string rev string_loop bind].
      split; [reflexivity|]. split; [discriminate|].
      split; [intros _ N; congruence|]. split; [discriminate|].
      intros _ _. cbn [set_sign number sign sign_part].
      split; [reflexivity|].
      destruct (Ascii.eqb c "-") eqn:Hm.
      * apply Ascii.eqb_eq in Hm. subst c. reflexivity.
      * cbn [orb] in S. rewrite S. reflexivity.
    + rewrite <- D in A.
      destruct (of_string_digits (String c t) A) as (this & E & H);
        [rewrite D; discriminate|].
      rewrite E. cbn [bind]. eexists. split; [reflexivity|].
      split; [discriminate|]. split.
      * intros _ _.
        assert (H' : holds (set_sign this (sign_part (String c t)))
                           (sign_part (String c t))
                           (string_value (digits_part (String c t))))
          by (apply holds_set_sign with (s := 1); exact H).
        destruct (holds_valid _ _ _ H') as [V M].
        { unfold sign_part. destruct (Ascii.eqb c "-"); auto. }
        split; [exact V|]. split; [reflexivity|rewrite <- D; exact M].
      * split; [discriminate|]. intros _ N. discriminate.
  - destruct (invalid_string s A) as (b & E & X & T).
    exists b. rewrite E. cbn [bind]. split; [reflexivity|].
    split; [intros _; split; [exact X|exact T]|].
    split; [discriminate|].
    split.
    + intros ->. discriminate.
    + intros _ D. rewrite D in A. discriminate.
Qed.

Lemma string_constructor_witness :
  exists b,
    new_BigNumber (IStr "-0042") = Ok (b, IStr "-0042") /\
    valid b = true /\ sign b = -1 /\ magnitude b = 42.
Proof.
  destruct (string_constructor "-0042") as (b & E & _ & H & _).
  exists b. split; [exact E|]. apply H; [reflexivity|discriminate].
Defined.

Lemma forallb_rev {A : Type} (f : A -> bool) (l : list A) :
  forallb f (rev l) = forallb f l.
Proof.
  destruct (forallb f l) eqn:F.
  - rewrite forallb_forall in *. intros x Hx. apply F, in_rev, Hx.
  - destruct (forallb f (rev l)) eqn:G; [|reflexivity].
    rewrite <- F. symmetry. rewrite forallb_forall in *.
    intros x Hx. apply G. apply -> in_rev. exact Hx.
Qed.

Lemma of_elem_value e :
  testDigit e = true ->
  exists digit, of_elem e = Ok digit /\ holds digit 1 (elem_digit e).
Proof.
  destruct e as [n|s]; cbn [testDigit of_elem elem_digit].
  - rewrite andb_true_iff, Z.leb_le. intros [Hn _].
    exists (of_number n). split; [reflexivity|apply holds_of_number, Hn].
  - destruct s as [|c [|c' t]]; try discriminate.
    intros Hc. fold (is_digit c) in Hc.
    destruct (digits_loop (String c EmptyString)) as (this & E & H);
      [discriminate|unfold all_digits; cbn; rewrite Hc; reflexivity|].
    unfold of_string. rewrite (digit_not_sign c Hc), E. cbn [bind].
    exists (set_sign this 1). split; [reflexivity|].
    apply holds_set_sign with (s := 1).
    replace (digit_of c) with (string_value (String c EmptyString)); [exact H|].
    unfold string_value. cbn [list_ascii_of_string rev app decimal_value]. lia.
Qed.

Lemma array_loop_spec elems :
  forallb testDigit elems = true ->
  forall this multipleoftens v m,
  partial this v -> holds multipleoftens 1 m -> 0 < m ->
  exists this',
    array_loop elems this multipleoftens = Ok (true, this') /\
    partial this' (v + m * array_value elems) /\
    (elems <> [] -> holds this' 1 (v + m * array_value elems)).
Proof.
  induction elems as [|e elems IH]; intros Hd this mt v m Ht Hm Hpos.
  - exists this. cbn [array_loop array_value].
    replace (v + m * 0) with v by lia. split; [reflexivity|].
    split; [exact Ht|congruence].
  - cbn [forallb] in Hd. apply andb_true_iff in Hd as [He Hd].
    cbn [array_loop array_value]. rewrite He.
    destruct (of_elem_value e He) as (digit & E0 & H0).
    rewrite E0. cbn [bind].
    destruct (addDigit_spec this mt digit v m _ Ht Hm Hpos H0)
      as (t' & m' & E & H1 & H2).
    rewrite E. cbn [bind].
    destruct (IH Hd t' m' (v + elem_digit e * m) (m * 10) (or_intror H1) H2
                ltac:(lia)) as (t'' & E' & P' & H').
    exists t''. split; [exact E'|].
    replace (v + m * (elem_digit e + 10 * array_value elems))
      with (v + elem_digit e * m + m * 10 * array_value elems) by ring.
    destruct elems as [|e' elems'].
    + cbn [array_loop] in E'. injection E' as <-.
      cbn [array_value].
      replace (v + elem_digit e * m + m * 10 * 0)
        with (v + elem_digit e * m) by lia.
      split; [right; exact H1|intros _; exact H1].
    + split; [exact P'|intros _; apply H'; discriminate].
Qed.

Lemma array_loop_invalid elems :
  forallb testDigit elems = false ->
  forall this multipleoftens v m,
  partial this v -> holds multipleoftens 1 m -> 0 < m ->
  exists this', array_loop elems this multipleoftens = Ok (false, this').
Proof.
  induction elems as [|e elems IH]; intros Hd this mt v m Ht Hm Hpos.
  - discriminate.
  - cbn [forallb] in Hd. cbn [array_loop].
    destruct (testDigit e) eqn:T.
    + cbn [andb] in Hd.
      destruct (of_elem_value e T) as (digit & E0 & H0).
      rewrite E0. cbn [bind].
      destruct (addDigit_spec this mt digit v m _ Ht Hm Hpos H0)
        as (t' & m' & E & H1 & H2).
      rewrite E. cbn [bind].
      apply (IH Hd t' m' (v + elem_digit e * m) (m * 10));
        [right; exact H1|exact H2|lia].
    + exists this. reflexivity.
Qed.

Lemma of_array_digits a :
  of_array a =
    ('(ok, this) <- array_loop (rev (array_digits a)) blank (of_number 1) ;;
     if ok then Ok (set_sign this (array_sign a), array_digits a)
     else Ok (set_number this (Sentinel invalid), array_digits a)).
Proof.
  unfold of_array, array_digits, array_sign.
  destruct a as [|e tail]; [reflexivity|].
  destruct e as [n|s]; cbn [is_sign_token orb]; [reflexivity|].
  destruct (String.eqb_spec s "-") as [->|Hm]; [reflexivity|].
  destruct (String.eqb_spec s "+") as [->|Hp]; reflexivity.
Qed.

(** X22: the constructor on an array never throws, and what it makes is
    settled by the elements after an optional sign token.  An element
    that is no single decimal digit gives a value in the error state of
    an invalid number; one digit or more give a valid value with the
    sign of the token and, as magnitude, the decimal value of the digits
    read from the first to the last; no element at all gives an object
    without limbs. *)
Theorem array_constructor (a : list elem) :
  exists b,
    new_BigNumber (IArr a) = Ok (b, IArr (array_digits a)) /\
    (forallb testDigit (array_digits a) = false ->
     error_state b = Some invalid /\ toString b = Ok "Invalid Number"%string) /\
    (forallb testDigit (array_digits a) = true -> array_digits a <> [] ->
     valid b = true /\ sign b = array_sign a /\
     magnitude b = array_value (rev (array_digits a))) /\
    (array_digits a = [] -> number b = Limbs [] /\ sign b = array_sign a).
Proof.
  cbn [new_BigNumber]. rewrite of_array_digits.
  destruct (forallb testDigit (array_digits a)) eqn:F.
  - destruct (array_loop_spec (rev (array_digits a))) with
      (this := blank) (multipleoftens := of_number 1) (v := 0) (m := 1)
      as (this & E & _ & H);
      [rewrite forallb_rev; exact F|left; repeat split
      |apply holds_of_number; lia|lia|].
    rewrite E. cbn [bind]. eexists. split; [reflexivity|].
    split; [discriminate|]. split.
    + intros _ N.
      assert (N' : rev (array_digits a) <> []).
      { intros R. apply N. rewrite <- (rev_involutive (array_digits a)), R.
        reflexivity. }
      specialize (H N').
      replace (0 + 1 * array_value (rev (array_digits a)))
        with (array_value (rev (array_digits a))) in H by lia.
      assert (H' : holds (set_sign this (array_sign a)) (array_sign a)
                     (array_value (rev (array_digits a))))
        by (apply holds_set_sign with (s := 1); exact H).
      destruct (holds_valid _ _ _ H') as [V M].
      { unfold array_sign. destruct a as [|e ?]; auto.
        destruct (is_sign_token e "-"); auto. }
      split; [exact V|]. split; [reflexivity|exact M].
    + intros N. rewrite N in E. cbn [rev array_loop] in E.
      injection E as <-. split; reflexivity.
  - destruct (array_loop_invalid (rev (array_digits a))) with
      (this := blank) (multipleoftens := of_number 1) (v := 0) (m := 1)
      as (this & E);
      [rewrite forallb_rev; exact F|left; repeat split
      |apply holds_of_number; lia|lia|].
    rewrite E. cbn [bind]. eexists. split; [reflexivity|].
    split; [intros _; split; reflexivity|].
    split; [discriminate|].
    intros N. rewrite N in F. discriminate.
Qed.

Lemma array_constructor_witness :
  exists b,
    new_BigNumber (IArr [EStr "-"; ENum 5; EStr "1"; ENum 7])
      = Ok (b, IArr [ENum 5; EStr "1"; ENum 7]) /\
    valid b = true /\ sign b = -1 /\ magnitude b = 517.
Proof.
  destruct (array_constructor [EStr "-"; ENum 5; EStr "1"; ENum 7])
    as (b & E & _ & H & _).
  exists b. split; [exact E|]. apply H; [reflexivity|discriminate].
Defined.

(** ** The factors of the base *)

Lemma product_app a b : product (a ++ b) = product a * product b.
Proof.
  unfold product. induction a as [|x a IH]; cbn [app fold_right].
  - destruct (fold_right Z.mul 1 b); reflexivity.
  - rewrite IH. ring.
Qed.

Lemma isprime_false primes d :
  Factorise.isprime primes d = false ->
  exists q, In q primes /\ Z.rem d q = 0.
Proof.
  induction primes as [|p primes IH]; cbn [Factorise.isprime]; [discriminate|].
  destruct (p * p <? d); [|discriminate].
  destruct (Z.eqb_spec (Z.rem d p) 0) as [E|E].
  - intros _. exists p. split; [left; reflexivity|exact E].
  - intros H. destruct (IH H) as (q & I & R). exists q. split; [right; exact I|exact R].
Qed.

(** The candidate that [do ... while (!isprime(lastprime))] stops at is
    odd and above the last one, and [isprime] rejected every odd number
    between the two. *)
Lemma next_prime_spec fuel primes :
  forall lastprime p,
  Factorise.next_prime fuel primes lastprime = Some p ->
  lastprime = 2 \/ Z.Odd lastprime ->
  lastprime < p /\ Z.Odd p /\
  forall d, lastprime < d < p -> Z.Odd d -> Factorise.isprime primes d = false.
Proof.
  induction fuel as [|fuel IH]; intros lp p; cbn [Factorise.next_prime];
    [discriminate|].
  intros H Hlp.
  set (c := if lp =? 2 then 3 else lp + 2) in *.
  assert (Hc : lp < c /\ Z.Odd c /\ forall d, lp < d < c -> ~ Z.Odd d).
  { unfold c. destruct (Z.eqb_spec lp 2) as [->|N].
    - split; [lia|]. split; [exists 1; lia|].
      intros d Hd [k Hk]. lia.
    - destruct Hlp as [?|[k Hk]]; [contradiction|].
      split; [lia|]. split; [exists (k + 1); lia|].
      intros d Hd [j Hj]. lia. }
  destruct Hc as (C1 & C2 & C3).
  destruct (Factorise.isprime primes c) eqn:P.
  - injection H as <-. split; [exact C1|]. split; [exact C2|].
    intros d Hd Od. exfalso. apply (C3 d Hd Od).
  - destruct (IH c p H (or_intror C2)) as (I1 & I2 & I3).
    split; [lia|]. split; [exact I2|].
    intros d Hd Od.
    destruct (Z.lt_trichotomy d c) as [L|[->|G]].
    + exfalso. apply (C3 d); [lia|exact Od].
    + exact P.
    + apply I3; [lia|exact Od].
Qed.

(** The search stops at an odd number that [isprime] accepts, if there
    is one above, within as many rounds as it is away. *)
Lemma next_prime_total primes target :
  Z.Odd target -> Factorise.isprime primes target = true ->
  forall fuel lastprime,
  lastprime = 2 \/ Z.Odd lastprime -> 2 <= lastprime < target ->
  target - lastprime <= Z.of_nat fuel ->
  exists p, Factorise.next_prime fuel primes lastprime = Some p /\ p <= target.
Proof.
  intros Ot It. induction fuel as [|fuel IH]; intros lp Hpar Hlp Hf; [lia|].
  cbn [Factorise.next_prime].
  set (c := if lp =? 2 then 3 else lp + 2) in *.
  assert (Hc : lp < c <= target /\ Z.Odd c).
  { unfold c. destruct Ot as [t Ht]. destruct (Z.eqb_spec lp 2) as [->|N].
    - split; [lia|exists 1; lia].
    - destruct Hpar as [?|[k Hk]]; [contradiction|].
      split; [lia|exists (k + 1); lia]. }
  destruct Hc as (C1 & C2).
  destruct (Factorise.isprime primes c) eqn:P.
  - exists c. split; [reflexivity|lia].
  - assert (c <> target) by (intros ->; congruence).
    apply IH; [right; exact C2|lia|lia].
Qed.

Lemma next_prime_mono primes n :
  forall m lastprime p,
  Factorise.next_prime n primes lastprime = Some p -> (n <= m)%nat ->
  Factorise.next_prime m primes lastprime = Some p.
Proof.
  induction n as [|n IH]; intros m lp p H Hm; [discriminate|].
  destruct m as [|m]; [lia|]. cbn [Factorise.next_prime] in *.
  destruct (Factorise.isprime primes (if lp =? 2 then 3 else lp + 2));
    [exact H|]. apply IH; [exact H|lia].
Qed.

Lemma factorise_loop_mono n :
  forall m result primes factorisingbase lastprime r,
  Factorise.loop n result primes factorisingbase lastprime = Some r ->
  (n <= m)%nat ->
  Factorise.loop m result primes factorisingbase lastprime = Some r.
Proof.
  induction n as [|n IH]; intros m res primes fb lp r H Hm; [discriminate|].
  destruct m as [|m]; [lia|]. cbn [Factorise.loop] in *.
  destruct (fb >? 1); [|exact H].
  destruct (Z.rem fb lp =? 0).
  - apply IH; [exact H|lia].
  - destruct (Factorise.next_prime n primes lp) as [p|] eqn:NP; [|discriminate].
    rewrite (next_prime_mono primes n m lp p NP ltac:(lia)).
    apply IH; [exact H|lia].
Qed.

(** A factor that is taken out is a prime, and the invariant stays. *)
Lemma factorising_divide primes fb lp :
  factorising primes fb lp -> 1 < fb -> Z.rem fb lp = 0 ->
  factorising primes (fb / lp) lp /\ prime lp /\
  fb = lp * (fb / lp) /\ fb / lp < fb /\ lp <= fb.
Proof.
  intros (Hfb & Hpar & Hlp & Hnd & Hpr) G E.
  apply Z.rem_divide in E; [|lia].
  assert (Q : fb = lp * (fb / lp))
    by (destruct E as [k Hk]; rewrite Hk, Z.div_mul by lia; lia).
  assert (1 <= fb / lp) by nia.
  split; [|split; [|split; [exact Q|split; nia]]].
  - split; [assumption|]. split; [exact Hpar|]. split; [exact Hlp|].
    split; [|exact Hpr].
    intros d Hd [k Hk]. apply (Hnd d Hd).
    exists (k * lp). rewrite Q at 1. rewrite Hk. ring.
  - apply prime_alt. split; [lia|].
    intros n Hn Dn. apply (Hnd n ltac:(lia)).
    apply Z.divide_trans with (m := lp); assumption.
Qed.

(** Nothing up to [lastprime] divides what is left once [lastprime]
    itself does not. *)
Lemma factorising_no_divisor primes fb lp :
  factorising primes fb lp -> Z.rem fb lp <> 0 ->
  forall q, 2 <= q <= lp -> ~ Z.divide q fb.
Proof.
  intros (Hfb & Hpar & Hlp & Hnd & Hpr) E q Hq D.
  destruct (Z.eq_dec q lp) as [->|Nq].
  - apply E. apply Z.rem_divide; [lia|exact D].
  - apply (Hnd q); [lia|exact D].
Qed.

(** The invariant at the candidate the search stops at. *)
Lemma factorising_next fuel primes fb lp p :
  factorising primes fb lp -> Z.rem fb lp <> 0 ->
  Factorise.next_prime fuel primes lp = Some p ->
  factorising (primes ++ [p]) fb p /\ lp < p.
Proof.
  intros F E NP. pose proof (factorising_no_divisor _ _ _ F E) as ND.
  destruct F as (Hfb & Hpar & Hlp & Hnd & Hpr).
  destruct (next_prime_spec _ _ _ _ NP Hpar) as (N1 & N2 & N3).
  split; [|exact N1].
  split; [assumption|]. split; [right; exact N2|]. split; [lia|]. split.
  - intros d Hd D.
    destruct (Z.le_gt_cases d lp) as [L|L]; [apply (ND d); [lia|exact D]|].
    destruct (Z.Even_or_Odd d) as [[k Hk]|Od].
    + apply (ND 2); [lia|].
      apply Z.divide_trans with (m := d); [exists k; lia|exact D].
    + destruct (isprime_false primes d (N3 d ltac:(lia) Od)) as (q & Iq & Rq).
      pose proof (Hpr q Iq).
      apply (ND q); [lia|].
      apply Z.divide_trans with (m := d); [|exact D].
      apply Z.rem_divide; [lia|exact Rq].
  - intros q Iq. apply in_app_or in Iq as [Iq|[<-|[]]]; [|lia].
    pose proof (Hpr q Iq). lia.
Qed.

(** The search for the next candidate ends: what is left of the base is
    itself an odd number that [isprime] accepts. *)
Lemma factorising_next_total primes fb lp :
  factorising primes fb lp -> 1 < fb -> Z.rem fb lp <> 0 ->
  exists p,
    Factorise.next_prime (Z.to_nat (fb - lp)) primes lp = Some p /\ p <= fb.
Proof.
  intros F G E. pose proof (factorising_no_divisor _ _ _ F E) as ND.
  destruct F as (Hfb & Hpar & Hlp & Hnd & Hpr).
  assert (Hlt : lp < fb).
  { destruct (Z.le_gt_cases fb lp) as [L|L]; [|lia].
    exfalso. apply (ND fb); [lia|apply Z.divide_refl]. }
  assert (Od : Z.Odd fb).
  { destruct (Z.Even_or_Odd fb) as [[k Hk]|Od]; [|exact Od].
    exfalso. apply (ND 2); [lia|]. exists k. lia. }
  assert (Ip : Factorise.isprime primes fb = true).
  { destruct (Factorise.isprime primes fb) eqn:I; [reflexivity|].
    destruct (isprime_false primes fb I) as (q & Iq & Rq).
    pose proof (Hpr q Iq). exfalso. apply (ND q); [lia|].
    apply Z.rem_divide; [lia|exact Rq]. }
  apply (next_prime_total primes fb Od Ip); [exact Hpar|lia|lia].
Qed.

(** What the loop returns, when it returns. *)
Lemma factorise_loop_spec fuel :
  forall result primes fb lp r,
  Factorise.loop fuel result primes fb lp = Some r ->
  factorising primes fb lp -> Forall prime result ->
  product r = product result * fb /\ Forall prime r.
Proof.
  induction fuel as [|fuel IH]; intros res primes fb lp r;
    cbn [Factorise.loop]; [discriminate|].
  intros H F Hres.
  destruct (Z.gtb_spec fb 1) as [G|G].
  - destruct (Z.eqb_spec (Z.rem fb lp) 0) as [E|E].
    + destruct (factorising_divide _ _ _ F G E) as (F' & P & Q & _).
      destruct (IH _ _ _ _ _ H F') as [I1 I2].
      * apply Forall_app. split; [exact Hres|]. constructor; [exact P|constructor].
      * split; [|exact I2].
        rewrite I1, product_app. unfold product at 2. cbn [fold_right].
        rewrite Q at 2. ring.
    + destruct (Factorise.next_prime fuel primes lp) as [p|] eqn:NP;
        [|discriminate].
      destruct (factorising_next _ _ _ _ _ F E NP) as [F' _].
      apply (IH _ _ _ _ _ H F' Hres).
  - injection H as <-. split; [|exact Hres].
    destruct F as (Hfb & _). replace fb with 1 by lia. ring.
Qed.

(** The loop returns. *)
Lemma factorise_loop_total n :
  forall result primes fb lp,
  factorising primes fb lp -> 2 * fb - lp <= Z.of_nat n ->
  exists fuel r, Factorise.loop fuel result primes fb lp = Some r.
Proof.
  induction n as [|n IH]; intros res primes fb lp F Hn.
  - exists 1%nat, res. cbn [Factorise.loop].
    destruct (Z.gtb_spec fb 1) as [G|G]; [|reflexivity].
    exfalso. destruct F as (Hfb & Hpar & Hlp & Hnd & Hpr).
    assert (lp <= fb).
    { destruct (Z.le_gt_cases lp fb) as [L|L]; [exact L|].
      exfalso. apply (Hnd fb); [lia|apply Z.divide_refl]. }
    lia.
  - destruct (Z.gtb_spec fb 1) as [G|G].
    + destruct (Z.eqb_spec (Z.rem fb lp) 0) as [E|E].
      * destruct (factorising_divide _ _ _ F G E) as (F' & _ & _ & Lt & _).
        destruct (IH (res ++ [lp]) primes (fb / lp) lp F' ltac:(lia))
          as (f & r & H).
        exists (S f), r. cbn [Factorise.loop].
        destruct (Z.gtb_spec fb 1); [|lia].
        destruct (Z.eqb_spec (Z.rem fb lp) 0); [exact H|contradiction].
      * destruct (factorising_next_total _ _ _ F G E) as (p & NP & Hp).
        destruct (factorising_next _ _ _ _ _ F E NP) as [F' Lp].
        destruct (IH res (primes ++ [p]) fb p F' ltac:(lia)) as (f & r & H).
        exists (S (Nat.max (Z.to_nat (fb - lp)) f)), r. cbn [Factorise.loop].
        destruct (Z.gtb_spec fb 1); [|lia].
        destruct (Z.eqb_spec (Z.rem fb lp) 0); [contradiction|].
        rewrite (next_prime_mono primes _ _ lp p NP (Nat.le_max_l _ _)).
        apply (factorise_loop_mono f); [exact H|apply Nat.le_max_r].
    + exists 1%nat, res. cbn [Factorise.loop].
      destruct (Z.gtb_spec fb 1); [lia|reflexivity].
Qed.

(** X23: whatever the base, an integer of 1 or more, the factorisation
    of the base returns, and the list that it returns is made of primes
    only and has the base as its product; more rounds than it needs
    change nothing.  For the base of the engine this list is
    [factors]. *)
Theorem factorise_primes (b : Z) :
  1 <= b ->
  exists fuel r,
    (forall fuel', (fuel <= fuel')%nat ->
                   Factorise.loop fuel' [] [] b 2 = Some r) /\
    product r = b /\ Forall prime r /\
    (b = base -> r = factors).
Proof.
  intros Hb.
  assert (F : factorising [] b 2).
  { split; [exact Hb|]. split; [left; reflexivity|]. split; [lia|].
    split; [intros d Hd; lia|intros q []]. }
  destruct (factorise_loop_total (Z.to_nat (2 * b - 2)) [] [] b 2 F ltac:(lia))
    as (fuel & r & H).
  destruct (factorise_loop_spec fuel [] [] b 2 r H F) as [P Pr]; [constructor|].
  exists fuel, r. split; [|split; [|split; [exact Pr|]]].
  - intros fuel' Hf. apply (factorise_loop_mono fuel); assumption.
  - rewrite P. unfold product. cbn [fold_right]. ring.
  - intros ->. unfold factors.
    destruct (Nat.le_ge_cases fuel 64) as [L|L].
    + rewrite (factorise_loop_mono fuel 64 _ _ _ _ _ H L). reflexivity.
    + assert (H64 : Factorise.loop 64 [] [] base 2 = Some (repeat 2 25))
        by (vm_compute; reflexivity).
      rewrite (factorise_loop_mono 64 fuel _ _ _ _ _ H64 L) in H.
      injection H as <-. rewrite H64. reflexivity.
Qed.

Lemma factorise_primes_witness :
  exists fuel r,
    (forall fuel', (fuel <= fuel')%nat ->
                   Factorise.loop fuel' [] [] 360 2 = Some r) /\
    product r = 360 /\ Forall prime r.
Proof.
  destruct (factorise_primes 360) as (fuel & r & H1 & H2 & H3 & _); [lia|].
  exists fuel, r. split; [exact H1|]. split; [exact H2|exact H3].
Defined.

(** ** The legacy constructor and its text *)

Lemma push_digits_spec cs :
  forall acc,
  forallb is_digit cs = true ->
  Legacy.push_digits cs acc = Some (acc ++ map digit_of cs).
Proof.
  induction cs as [|c cs IH]; intros acc H; cbn [Legacy.push_digits map].
  - rewrite app_nil_r. reflexivity.
  - cbn [forallb] in H. apply andb_true_iff in H as [Hc H].
    unfold is_digit in Hc. unfold digit_of.
    destruct (parseInt c) as [d|]; [|discriminate].
    rewrite (IH _ H), <- app_assoc. reflexivity.
Qed.

Lemma push_digits_invalid cs :
  forall acc,
  forallb is_digit cs = false -> Legacy.push_digits cs acc = None.
Proof.
  induction cs as [|c cs IH]; intros acc H; cbn [Legacy.push_digits].
  - discriminate.
  - cbn [forallb] in H. unfold is_digit in H at 1.
    destruct (parseInt c) as [d|]; [|reflexivity].
    apply IH, H.
Qed.

Lemma digit_char_of c : is_digit c = true -> digit_char (digit_of c) = c.
Proof. intros H. apply (is_digit_char c H). Qed.

Lemma digits_text cs :
  forall acc,
  forallb is_digit cs = true ->
  fold_left (fun str digit => (str ++ number_toString digit)%string)
            (map digit_of cs) acc
    = (acc ++ string_of_list_ascii cs)%string.
Proof.
  induction cs as [|c cs IH]; intros acc H; cbn [map fold_left string_of_list_ascii].
  - rewrite append_nil_r. reflexivity.
  - cbn [forallb] in H. apply andb_true_iff in H as [Hc H].
    rewrite (IH _ H).
    destruct (is_digit_char c Hc) as (B & R & _).
    rewrite number_toString_digit, R by exact B.
    rewrite append_assoc. reflexivity.
Qed.

(** The legacy constructor on the digits of a string, and the text of
    what it makes. *)
Lemma legacy_digits digits sgn :
  Legacy.toString
    match Legacy.push_digits (rev (list_ascii_of_string digits)) [] with
    | Some number => mkBigNumber (Limbs number) sgn None
    | None => mkBigNumber (Sentinel invalid) sgn None
    end
  = if all_digits digits
    then ((if (sgn >? 0)%Z then EmptyString else "-") ++ digits)%string
    else "Invalid Number"%string.
Proof.
  unfold all_digits.
  destruct (forallb is_digit (list_ascii_of_string digits)) eqn:A.
  - rewrite push_digits_spec by (rewrite forallb_rev; exact A).
    unfold Legacy.toString. cbn [number sign app].
    rewrite <- map_rev, rev_involutive, digits_text by exact A.
    cbn [append]. rewrite string_of_list_ascii_of_string.
    destruct (sgn >? 0); reflexivity.
  - rewrite push_digits_invalid by (rewrite forallb_rev; exact A).
    reflexivity.
Qed.

(** X24: in the legacy file the text of the value made from a string
    that is not empty is the string itself, digit for digit and with the
    zeros it has in front, but for a plus sign, which is dropped; a
    character that is no digit gives the text of an invalid number. *)
Theorem legacy_text_round_trip (s : string) :
  s <> EmptyString ->
  Legacy.toString (Legacy.of_string s) =
    if all_digits (digits_part s)
    then ((if (sign_part s =? -1)%Z then "-" else EmptyString) ++ digits_part s)%string
    else "Invalid Number"%string.
Proof.
  intros N. destruct s as [|c t]; [congruence|].
  unfold Legacy.of_string, digits_part, sign_part.
  destruct (Ascii.eqb_spec c "-") as [->|Hm].
  - cbn [orb Ascii.eqb Bool.eqb andb]. rewrite legacy_digits. reflexivity.
  - destruct (Ascii.eqb_spec c "+") as [->|Hp].
    + cbn [orb Ascii.eqb Bool.eqb andb]. rewrite legacy_digits. reflexivity.
    + cbn [orb]. rewrite legacy_digits. reflexivity.
Qed.

Lemma legacy_text_round_trip_witness :
  Legacy.toString (Legacy.of_string "+0042") = "0042"%string /\
  Legacy.toString (Legacy.of_string "-4x2") = "Invalid Number"%string.
Proof.
  split.
  - apply (legacy_text_round_trip "+0042"). discriminate.
  - apply (legacy_text_round_trip "-4x2"). discriminate.
Defined.

Lemma limbs_text ds :
  forall acc,
  digit_limbs ds = true ->
  fold_left (fun str digit => (str ++ number_toString digit)%string) ds acc
    = (acc ++ string_of_list_ascii (map digit_char ds))%string.
Proof.
  induction ds as [|d ds IH]; intros acc H; cbn [map fold_left string_of_list_ascii].
  - rewrite append_nil_r. reflexivity.
  - cbn [digit_limbs forallb] in H. apply andb_true_iff in H as [Hd H].
    apply andb_true_iff in Hd as [H0 H9]. apply Z.leb_le in H0, H9.
    rewrite (IH _ H), number_toString_digit by lia.
    rewrite append_assoc. reflexivity.
Qed.

Lemma digit_limbs_chars ds :
  digit_limbs ds = true ->
  forallb is_digit (map digit_char ds) = true /\
  map digit_of (map digit_char ds) = ds.
Proof.
  induction ds as [|d ds IH]; intros H; cbn [map forallb]; [auto|].
  cbn [digit_limbs forallb] in H. apply andb_true_iff in H as [Hd H].
  apply andb_true_iff in Hd as [H0 H9]. apply Z.leb_le in H0, H9.
  destruct (digit_char_digit d ltac:(lia)) as (D1 & D2 & _).
  destruct (IH H) as [I1 I2]. rewrite D1, D2, I1, I2. auto.
Qed.

Lemma digit_limbs_rev ds : digit_limbs (rev ds) = digit_limbs ds.
Proof. apply forallb_rev. Qed.

(** The legacy constructor reads back the text of an array of digits. *)
Lemma legacy_of_string_toString b ds :
  number b = Limbs ds -> ds <> [] -> digit_limbs ds = true ->
  sign b = 1 \/ sign b = -1 ->
  Legacy.of_string (Legacy.toString b) = mkBigNumber (Limbs ds) (sign b) None.
Proof.
  intros N Ne D S.
  unfold Legacy.toString. rewrite N.
  rewrite limbs_text by (rewrite digit_limbs_rev; exact D).
  cbn [append].
  set (T := string_of_list_ascii (map digit_char (rev ds))).
  assert (P : Legacy.push_digits (rev (list_ascii_of_string T)) [] = Some ds).
  { unfold T. rewrite list_ascii_of_string_of_list_ascii, <- map_rev, rev_involutive.
    destruct (digit_limbs_chars ds D) as [C1 C2].
    rewrite push_digits_spec by exact C1. rewrite C2. reflexivity. }
  assert (F : exists c t, T = String c t /\
                          Ascii.eqb c "-" || Ascii.eqb c "+" = false).
  { unfold T. destruct (rev ds) as [|d ds'] eqn:R.
    - exfalso. apply Ne. rewrite <- (rev_involutive ds), R. reflexivity.
    - cbn [map string_of_list_ascii]. do 2 eexists. split; [reflexivity|].
      assert (Hd : digit_limbs (d :: ds') = true)
        by (rewrite <- R, digit_limbs_rev; exact D).
      cbn [digit_limbs forallb] in Hd. apply andb_true_iff in Hd as [Hd _].
      apply andb_true_iff in Hd as [H0 H9]. apply Z.leb_le in H0, H9.
      destruct (digit_char_digit d ltac:(lia)) as (_ & _ & M1 & M2).
      rewrite M1, M2. reflexivity. }
  destruct F as (c & t & ET & NS).
  destruct S as [S|S]; rewrite S.
  - change (1 >? 0) with true. cbv iota.
    rewrite ET in *. unfold Legacy.of_string. rewrite NS, P. reflexivity.
  - change (-1 >? 0) with false. cbv iota.
    unfold Legacy.of_string.
    change (Ascii.eqb "-" "-") with true. cbn [orb].
    change (Ascii.eqb "-" "+") with false. cbv iota.
    rewrite P. reflexivity.
Qed.

Lemma load_update_other h :
  forall l l' b, l <> l' -> Legacy.load (Legacy.update h l b) l' = Legacy.load h l'.
Proof.
  unfold Legacy.load.
  induction h as [|x h IH]; intros [|l] [|l'] b N; cbn; auto; congruence.
Qed.

(** X25: with [newCopy] set, the legacy constructor copies an instance by
    value: it leaves the instance and the store as they were and makes a
    new object with the same digits and the same sign, at a place of its
    own, so that [abs] on the copy leaves the instance as it was. *)
Theorem legacy_new_copy (h : Legacy.store) (a : nat) (b : BigNumber)
        (ds : list Z) :
  Legacy.load h a = Some b ->
  number b = Limbs ds -> ds <> [] -> digit_limbs ds = true ->
  sign b = 1 \/ sign b = -1 ->
  exists h' c,
    Legacy.construct h a true = (h', c) /\
    c <> a /\
    Legacy.load h' a = Some b /\
    Legacy.load h' c = Some (mkBigNumber (Limbs ds) (sign b) None) /\
    Legacy.load (fst (Legacy.abs h' c)) a = Some b /\
    Legacy.load (fst (Legacy.abs h' c)) c
      = Some (mkBigNumber (Limbs ds) 1 None).
Proof.
  intros L N Ne D S.
  unfold Legacy.construct. rewrite L.
  rewrite (legacy_of_string_toString b ds N Ne D S).
  unfold Legacy.alloc. do 2 eexists. split; [reflexivity|].
  assert (Hlt : (a < List.length h)%nat).
  { apply nth_error_Some. unfold Legacy.load in L. congruence. }
  assert (La : Legacy.load (h ++ [mkBigNumber (Limbs ds) (sign b) None]) a
               = Some b).
  { unfold Legacy.load in *. rewrite nth_error_app1 by exact Hlt. exact L. }
  assert (Lc : Legacy.load (h ++ [mkBigNumber (Limbs ds) (sign b) None])
                 (List.length h)
               = Some (mkBigNumber (Limbs ds) (sign b) None)).
  { unfold Legacy.load. rewrite nth_error_app2, Nat.sub_diag by lia.
    reflexivity. }
  split; [lia|]. split; [exact La|]. split; [exact Lc|].
  unfold Legacy.abs. rewrite Lc. cbn [fst]. split.
  - rewrite load_update_other by lia. exact La.
  - assert (G : forall (h0 : Legacy.store) y z,
              nth_error (Legacy.update (h0 ++ [y]) (List.length h0) z)
                        (List.length h0) = Some z).
    { induction h0 as [|w h0 IH0]; intros y z; cbn; auto. }
    unfold Legacy.load. exact (G h _ _).
Qed.

Lemma legacy_new_copy_witness :
  exists h' c,
    Legacy.construct [mkBigNumber (Limbs [7; 1; 5]) (-1) None] 0%nat true
      = (h', c) /\
    c <> 0%nat /\
    Legacy.load h' 0%nat = Some (mkBigNumber (Limbs [7; 1; 5]) (-1) None) /\
    Legacy.load h' c = Some (mkBigNumber (Limbs [7; 1; 5]) (-1) None).
Proof.
  destruct (legacy_new_copy [mkBigNumber (Limbs [7; 1; 5]) (-1) None] 0%nat
              (mkBigNumber (Limbs [7; 1; 5]) (-1) None) [7; 1; 5])
    as (h' & c & H1 & H2 & H3 & H4 & _);
    [reflexivity|reflexivity|discriminate|reflexivity|right; reflexivity|].
  exists h', c. repeat split; assumption.
Defined.

(** ** The division identity and the helpers on magnitudes *)

(** X26: quotient and remainder give the dividend back.  For a valid
    dividend [a] and a valid divisor [b] of magnitude 2 or more, [q]
    the value that [divide] returns and [r] the value of its [rest],
    which is what [mod] returns: [q * b + sgn(a) * r = a] and
    [0 <= r < |b|]. *)
Theorem division_identity (a b : BigNumber) :
  valid a = true -> valid b = true -> 2 <= magnitude b ->
  exists o,
    divide a (IBig b) = Ok o /\
    mod_ a (IBig b) = Ok (rest (ret_value o)) /\
    value (ret_value o) * value b
      + Z.sgn (value a) * rest_value (rest (ret_value o)) = value a /\
    0 <= rest_value (rest (ret_value o)) < magnitude b.
Proof.
  intros Va Vb HD.
  destruct (divide_contract a b Va Vb HD) as (o & E & H). cbv zeta in H.
  destruct H as (_ & _ & _ & _ & B & I).
  exists o. split; [exact E|]. unfold mod_. rewrite E. cbn [bind].
  split; [reflexivity|]. split; [exact I|exact B].
Qed.

Lemma division_identity_witness :
  exists o,
    divide (of_number (-40000007)) (IBig (of_number 12)) = Ok o /\
    mod_ (of_number (-40000007)) (IBig (of_number 12))
      = Ok (rest (ret_value o)) /\
    value (ret_value o) * value (of_number 12)
      + Z.sgn (value (of_number (-40000007)))
        * rest_value (rest (ret_value o))
      = value (of_number (-40000007)) /\
    0 <= rest_value (rest (ret_value o)) < magnitude (of_number 12).
Proof.
  apply (division_identity (of_number (-40000007)) (of_number 12));
    [reflexivity|reflexivity|vm_compute; discriminate].
Defined.

(** X27: the helpers [_add] and [_subtract] work on magnitudes, whatever
    the signs.  On valid operands [_add] gives the canonical limbs of the
    sum of the magnitudes, and [_subtract] those of their difference when
    the second magnitude is not above the first.  When it is above and
    the two arrays have the same length, [_subtract] gives the difference
    raised by the base to the power of that length. *)
Theorem magnitude_helpers (a b : BigNumber) :
  valid a = true -> valid b = true ->
  (exists l, _add a b = Ok (Limbs l) /\ canonical l = true /\
             mag l = magnitude a + magnitude b) /\
  (magnitude b <= magnitude a ->
   exists l, _subtract a b = Ok (Limbs l) /\ canonical l = true /\
             mag l = magnitude a - magnitude b) /\
  (magnitude a < magnitude b ->
   List.length (limbs_of b) = List.length (limbs_of a) ->
   exists l, _subtract a b = Ok (Limbs l) /\ canonical l = true /\
             mag l = magnitude a - magnitude b
                     + base ^ Z.of_nat (List.length (limbs_of a))).
Proof.
  intros Va Vb.
  destruct (valid_holds a Va) as [(la & Na & Ca & Ma & _) _].
  destruct (valid_holds b Vb) as [(lb & Nb & Cb & Mb & _) _].
  pose proof (canonical_in_range _ Ca) as Ra.
  pose proof (canonical_in_range _ Cb) as Rb.
  pose proof (canonical_length _ Ca) as La.
  unfold _add, _subtract, limbs_of. rewrite Na, Nb.
  split; [|split].
  - destruct (add_loop_canonical la lb Ca Cb) as [C M].
    eexists. split; [reflexivity|]. split; [exact C|]. rewrite M. lia.
  - intros Hle.
    destruct (subtract_loop_value la lb Ra Rb) as (I1 & I2 & I3);
      [apply canonical_length_le; auto; lia|lia|].
    destruct (trim_spec (subtract_loop la lb 0) I1) as [T1 T2].
    { intros E. rewrite E in I2. simpl in I2. lia. }
    eexists. split; [reflexivity|]. split; [exact T1|]. lia.
  - intros Hlt Hlen.
    destruct (subtract_loop_spec la lb 0 Ra Rb) as (I1 & I2 & bw & B & I3);
      [lia|lia|].
    destruct (trim_spec (subtract_loop la lb 0) I1) as [T1 T2].
    { intros E. rewrite E in I2. simpl in I2. lia. }
    eexists. split; [reflexivity|]. split; [exact T1|].
    pose proof (mag_nonneg _ I1).
    assert (Q : bw = 0 \/ bw = 1) by lia.
    destruct Q as [->| ->]; lia.
Qed.

Lemma magnitude_helpers_witness :
  exists l, _subtract (of_number 3) (of_number (-5)) = Ok (Limbs l) /\
            canonical l = true /\
            mag l = magnitude (of_number 3) - magnitude (of_number (-5))
                    + base ^ Z.of_nat (List.length (limbs_of (of_number 3))).
Proof.
  destruct (magnitude_helpers (of_number 3) (of_number (-5)))
    as (_ & _ & H); [reflexivity|reflexivity|].
  apply H; [vm_compute; reflexivity|reflexivity].
Defined.

(** ** The engine on a power of ten: constructor and text *)

Lemma string_length_append (a b : string) :
  String.length (a ++ b) = (String.length a + String.length b)%nat.
Proof. induction a as [|c a IH]; cbn; [reflexivity|rewrite IH; reflexivity]. Qed.

Lemma packed_base_ge L : 0 < L -> 10 <= Packed.base L.
Proof.
  intros H. unfold Packed.base. change 10 with (10 ^ 1) at 1.
  apply Z.pow_le_mono_r; lia.
Qed.

Lemma packed_base_pow L n :
  0 <= L -> Packed.base L ^ Z.of_nat n = 10 ^ (L * Z.of_nat n).
Proof. intros H. unfold Packed.base. rewrite Z.pow_mul_r by lia. reflexivity. Qed.

Lemma packed_mag_app L a b :
  Packed.mag L (a ++ b)
    = Packed.mag L a + Packed.base L ^ Z.of_nat (List.length a) * Packed.mag L b.
Proof.
  induction a as [|x a IH]; cbn [app Packed.mag List.length].
  - change (Z.of_nat 0) with 0. rewrite Z.pow_0_r. lia.
  - rewrite IH, Nat2Z.inj_succ, Z.pow_succ_r by lia. ring.
Qed.

Lemma packed_in_range_app L a b :
  Packed.in_range L (a ++ b) = Packed.in_range L a && Packed.in_range L b.
Proof. unfold Packed.in_range. apply forallb_app. Qed.

Lemma packed_mag_nonneg L l :
  0 < L -> Packed.in_range L l = true -> 0 <= Packed.mag L l.
Proof.
  intros HL. pose proof (packed_base_ge L HL).
  induction l as [|x l IH]; cbn [Packed.mag Packed.in_range forallb]; [lia|].
  rewrite !andb_true_iff, Z.leb_le. intros [[H0 _] Hl].
  specialize (IH Hl). nia.
Qed.

Lemma add_to_last_app l top x :
  Packed.add_to_last (l ++ [top]) x = l ++ [top + x].
Proof.
  induction l as [|y l IH]; [reflexivity|].
  cbn [app Packed.add_to_last]. rewrite IH.
  destruct (l ++ [top]) eqn:E; [|reflexivity].
  destruct l; discriminate.
Qed.

(** One digit more: the digit at the position [k] adds [d * 10 ^ k] to
    the value of the array, and the limbs stay in range. *)
Lemma packed_addDigit_spec L number k d :
  0 < L -> 0 <= d <= 9 -> 0 <= k ->
  Packed.in_range L number = true ->
  Packed.mag L number < 10 ^ k ->
  k <= L * Z.of_nat (List.length number) < k + L ->
  exists number',
    Packed.addDigit L d number k = (number', k + 1) /\
    Packed.in_range L number' = true /\
    Packed.mag L number' = Packed.mag L number + d * 10 ^ k /\
    k + 1 <= L * Z.of_nat (List.length number') < k + 1 + L.
Proof.
  intros HL Hd Hk R M Len.
  pose proof (packed_base_ge L HL) as HB.
  pose proof (packed_mag_nonneg L number HL R) as M0.
  unfold Packed.addDigit. rewrite Z.rem_mod_nonneg by lia.
  pose proof (Z.mod_pos_bound k L HL) as Hr.
  pose proof (Z.div_mod k L ltac:(lia)) as Hdm.
  assert (Hq : 0 <= k / L) by (apply Z.div_pos; lia).
  destruct (Z.eqb_spec (k mod L) 0) as [E|E].
  - assert (Q : k = L * Z.of_nat (List.length number)).
    { assert (k / L <= Z.of_nat (List.length number))
        by (apply (Z.mul_le_mono_pos_l _ _ L); lia).
      assert (Z.of_nat (List.length number) < k / L + 1)
        by (apply (Z.mul_lt_mono_pos_l L); lia).
      assert (Z.of_nat (List.length number) = k / L) by lia. nia. }
    rewrite E, add_to_last_app. change (10 ^ 0) with 1.
    eexists. split; [reflexivity|].
    rewrite packed_in_range_app, R, packed_mag_app, packed_base_pow by lia.
    rewrite <- Q. cbn [Packed.in_range forallb Packed.mag andb].
    rewrite length_app, Nat2Z.inj_add. cbn [List.length].
    split; [|split; [ring|lia]].
    rewrite andb_true_r. apply andb_true_iff.
    split; [apply Z.leb_le|apply Z.ltb_lt]; lia.
  - assert (Q : Z.of_nat (List.length number) = k / L + 1).
    { assert (k / L < Z.of_nat (List.length number))
        by (apply (Z.mul_lt_mono_pos_l L); lia).
      assert (Z.of_nat (List.length number) < k / L + 2)
        by (apply (Z.mul_lt_mono_pos_l L); lia).
      lia. }
    destruct (exists_last (l := number)) as (below & top & ->).
    { intros ->. cbn in Q. lia. }
    rewrite add_to_last_app.
    rewrite length_app, Nat2Z.inj_add in Q, Len. cbn [List.length] in Q, Len.
    assert (Lb : Z.of_nat (List.length below) = k / L) by lia.
    rewrite packed_in_range_app in R. apply andb_true_iff in R as [Rb Rt].
    cbn [Packed.in_range forallb] in Rt. rewrite andb_true_r in Rt.
    apply andb_true_iff in Rt as [T0 T1]. apply Z.leb_le in T0.
    rewrite packed_mag_app, packed_base_pow, Lb in M, M0 |- * by lia.
    cbn [Packed.mag] in M, M0 |- *.
    pose proof (packed_mag_nonneg L below HL Rb) as Mb.
    assert (P : 10 ^ k = 10 ^ (L * (k / L)) * 10 ^ (k mod L))
      by (rewrite <- Z.pow_add_r by nia; f_equal; lia).
    assert (P0 : 0 < 10 ^ (L * (k / L))) by (apply Z.pow_pos_nonneg; nia).
    assert (P1 : 0 < 10 ^ (k mod L)) by (apply Z.pow_pos_nonneg; lia).
    assert (Tr : top < 10 ^ (k mod L)) by nia.
    assert (P2 : 10 ^ (k mod L + 1) <= Packed.base L)
      by (unfold Packed.base; apply Z.pow_le_mono_r; lia).
    rewrite Z.pow_add_r, Z.pow_1_r in P2 by lia.
    eexists. split; [reflexivity|].
    rewrite packed_in_range_app, Rb, packed_mag_app, packed_base_pow, Lb by lia.
    cbn [Packed.in_range forallb Packed.mag andb].
    rewrite length_app, Nat2Z.inj_add. cbn [List.length].
    split; [|split; [rewrite P; ring|lia]].
    rewrite andb_true_r. apply andb_true_iff.
    split; [apply Z.leb_le|apply Z.ltb_lt]; nia.
Qed.

Lemma packed_string_loop_spec L chars :
  0 < L -> forallb is_digit chars = true ->
  forall number k,
  0 <= k ->
  Packed.in_range L number = true ->
  Packed.mag L number < 10 ^ k ->
  k <= L * Z.of_nat (List.length number) < k + L ->
  exists number',
    Packed.string_loop L chars number k = Some number' /\
    Packed.in_range L number' = true /\
    Packed.mag L number'
      = Packed.mag L number + 10 ^ k * decimal_value chars /\
    k + Z.of_nat (List.length chars)
      <= L * Z.of_nat (List.length number')
      < k + Z.of_nat (List.length chars) + L.
Proof.
  intros HL. induction chars as [|c chars IH]; intros Hd number k Hk R M Len.
  - exists number. cbn [Packed.string_loop decimal_value List.length].
    split; [reflexivity|]. split; [exact R|]. split; [lia|lia].
  - cbn [forallb] in Hd. apply andb_true_iff in Hd as [Hc Hd].
    destruct (is_digit_char c Hc) as (B & _ & _).
    cbn [Packed.string_loop decimal_value]. unfold is_digit in Hc.
    unfold digit_of in *. destruct (parseInt c) as [d|]; [|discriminate].
    destruct (packed_addDigit_spec L number k d HL B Hk R M Len)
      as (n1 & E1 & R1 & M1 & L1).
    rewrite E1.
    pose proof (packed_mag_nonneg L number HL R) as M0.
    assert (P : 0 < 10 ^ k) by (apply Z.pow_pos_nonneg; lia).
    destruct (IH Hd n1 (k + 1) ltac:(lia) R1) as (n2 & E2 & R2 & M2 & L2).
    { rewrite M1, Z.pow_add_r, Z.pow_1_r by lia. nia. }
    { exact L1. }
    exists n2. split; [exact E2|]. split; [exact R2|].
    split.
    + rewrite M2, M1, Z.pow_add_r, Z.pow_1_r by lia. ring.
    + cbn [List.length]. rewrite Nat2Z.inj_succ. lia.
Qed.

Lemma packed_string_loop_invalid L chars :
  forallb is_digit chars = false ->
  forall number k, Packed.string_loop L chars number k = None.
Proof.
  induction chars as [|c chars IH]; intros Hd number k;
    cbn [Packed.string_loop]; [discriminate|].
  cbn [forallb] in Hd. unfold is_digit in Hd at 1.
  destruct (parseInt c) as [d|]; [|reflexivity].
  destruct (Packed.addDigit L d number k) as [n1 k1]. apply IH, Hd.
Qed.

(** The groups of [toString]. *)

Lemma group_loop_full n :
  forall digit group,
  0 <= digit ->
  Packed.group_loop n digit group false
    = (Packed.digits_fixed n digit ++ group)%string.
Proof.
  induction n as [|n IH]; intros digit group Hd;
    cbn [Packed.group_loop Packed.digits_fixed]; [reflexivity|].
  rewrite andb_false_r, Z.rem_mod_nonneg by lia.
  rewrite IH by (apply Z.div_pos; lia).
  rewrite append_assoc. reflexivity.
Qed.

Lemma group_loop_first n :
  forall digit group,
  0 < digit < 10 ^ Z.of_nat n ->
  Packed.group_loop n digit group true
    = (decimal_digits n digit ++ group)%string.
Proof.
  induction n as [|n IH]; intros digit group Hd.
  - change (10 ^ Z.of_nat 0) with 1 in Hd. lia.
  - cbn [Packed.group_loop decimal_digits].
    destruct (Z.eqb_spec digit 0) as [E|E]; [lia|].
    rewrite andb_true_r, Z.rem_mod_nonneg by lia.
    destruct (Z.eqb_spec (digit / 10) 0) as [Q|Q].
    + rewrite Q, decimal_digits_zero. reflexivity.
    + assert (0 <= digit / 10) by (apply Z.div_pos; lia).
      rewrite IH, append_assoc; [reflexivity|].
      split; [lia|]. apply Z.div_lt_upper_bound; [lia|].
      rewrite Nat2Z.inj_succ, Z.pow_succ_r in Hd by lia. lia.
Qed.

Lemma group_loop_zero n group :
  Packed.group_loop (S n) 0 group true = String "0" group.
Proof. reflexivity. Qed.

Lemma append_not_empty (a b : string) :
  a <> EmptyString -> (a ++ b)%string <> EmptyString.
Proof. destruct a; [congruence|discriminate]. Qed.

Lemma length_not_empty (a : string) :
  a <> EmptyString -> (String.length a =? 0)%nat = false.
Proof. destruct a; [congruence|reflexivity]. Qed.

Lemma packed_fold_groups L rest :
  forall str,
  str <> EmptyString ->
  forallb (fun x => 0 <=? x) rest = true ->
  fold_left
    (fun str digit =>
       (str ++ Packed.group_loop (Z.to_nat L) digit EmptyString
                                 (String.length str =? 0)%nat)%string)
    rest str
  = (str ++ Packed.groups L rest)%string.
Proof.
  induction rest as [|x rest IH]; intros str Hs Hr;
    cbn [fold_left Packed.groups fold_right].
  - rewrite append_nil_r. reflexivity.
  - cbn [forallb] in Hr. apply andb_true_iff in Hr as [Hx Hr].
    apply Z.leb_le in Hx.
    rewrite (length_not_empty str Hs), group_loop_full by exact Hx.
    rewrite append_nil_r, IH by (auto using append_not_empty).
    fold (Packed.groups L rest). rewrite append_assoc. reflexivity.
Qed.

Lemma all_digits_app a b :
  all_digits (a ++ b) = all_digits a && all_digits b.
Proof. unfold all_digits. rewrite list_ascii_app. apply forallb_app. Qed.

Lemma decimal_value_app a b :
  decimal_value (a ++ b)
    = decimal_value a + 10 ^ Z.of_nat (List.length a) * decimal_value b.
Proof.
  induction a as [|c a IH]; cbn [app decimal_value List.length].
  - change (Z.of_nat 0) with 0. rewrite Z.pow_0_r. lia.
  - rewrite IH, Nat2Z.inj_succ, Z.pow_succ_r by lia. ring.
Qed.

Lemma length_list_ascii s :
  List.length (list_ascii_of_string s) = String.length s.
Proof. induction s as [|c s IH]; cbn; [reflexivity|rewrite IH; reflexivity]. Qed.

Lemma string_value_app a b :
  string_value (a ++ b)
    = string_value a * 10 ^ Z.of_nat (String.length b) + string_value b.
Proof.
  unfold string_value.
  rewrite list_ascii_app, rev_app_distr, decimal_value_app, length_rev,
    length_list_ascii. ring.
Qed.

Lemma digits_fixed_spec n :
  forall v, 0 <= v < 10 ^ Z.of_nat n ->
  all_digits (Packed.digits_fixed n v) = true /\
  string_value (Packed.digits_fixed n v) = v /\
  String.length (Packed.digits_fixed n v) = n.
Proof.
  induction n as [|n IH]; intros v Hv; cbn [Packed.digits_fixed].
  - change (10 ^ Z.of_nat 0) with 1 in Hv.
    repeat split. unfold string_value. cbn. lia.
  - pose proof (Z.mod_pos_bound v 10 ltac:(lia)) as Hm.
    pose proof (Z.div_mod v 10 ltac:(lia)) as Hdm.
    rewrite number_toString_digit by lia.
    destruct (digit_char_digit (v mod 10) ltac:(lia)) as (D1 & D2 & _).
    assert (Hq : 0 <= v / 10 < 10 ^ Z.of_nat n).
    { split; [apply Z.div_pos; lia|].
      apply Z.div_lt_upper_bound; [lia|].
      rewrite Nat2Z.inj_succ, Z.pow_succ_r in Hv by lia. lia. }
    destruct (IH _ Hq) as (I1 & I2 & I3).
    rewrite all_digits_snoc, string_value_snoc, string_length_append.
    rewrite I1, I2, I3, D1, D2. cbn [String.length].
    split; [reflexivity|]. split; lia.
Qed.

Lemma packed_mag_bound L l :
  0 < L -> Packed.in_range L l = true ->
  Packed.mag L l < Packed.base L ^ Z.of_nat (List.length l).
Proof.
  intros HL. pose proof (packed_base_ge L HL).
  induction l as [|x l IH]; cbn [Packed.mag Packed.in_range forallb List.length].
  - intros _. change (Z.of_nat 0) with 0. rewrite Z.pow_0_r. lia.
  - rewrite !andb_true_iff, Z.leb_le, Z.ltb_lt. intros [[H0 H1] Hl].
    specialize (IH Hl). rewrite Nat2Z.inj_succ, Z.pow_succ_r by lia. nia.
Qed.

Lemma packed_in_range_rev L l :
  Packed.in_range L (rev l) = Packed.in_range L l.
Proof. apply forallb_rev. Qed.

Lemma packed_groups_spec L rest :
  0 < L -> Packed.in_range L rest = true ->
  all_digits (Packed.groups L rest) = true /\
  string_value (Packed.groups L rest) = Packed.mag L (rev rest) /\
  Z.of_nat (String.length (Packed.groups L rest))
    = L * Z.of_nat (List.length rest).
Proof.
  intros HL. induction rest as [|x rest IH];
    cbn [Packed.groups fold_right Packed.in_range forallb rev List.length].
  - intros _. split; [reflexivity|]. split; [reflexivity|].
    cbn [String.length]. lia.
  - rewrite !andb_true_iff, Z.leb_le, Z.ltb_lt. intros [[H0 H1] Hr].
    fold (Packed.groups L rest). destruct (IH Hr) as (I1 & I2 & I3).
    destruct (digits_fixed_spec (Z.to_nat L) x) as (F1 & F2 & F3).
    { rewrite Z2Nat.id by lia. split; [exact H0|exact H1]. }
    rewrite all_digits_app, string_value_app, string_length_append.
    rewrite F1, F2, F3, I1, I2, I3, packed_mag_app, length_rev.
    rewrite packed_base_pow by lia. cbn [Packed.mag].
    split; [reflexivity|]. split; [ring|].
    rewrite Nat2Z.inj_add, I3, Z2Nat.id by lia. lia.
Qed.

(** The text of limbs in range: the limb at the top without zeros in
    front, every limb below it in full. *)
Lemma packed_toString_spec L b below top :
  0 < L -> number b = Limbs (below ++ [top]) -> 0 <= top < Packed.base L ->
  Packed.in_range L below = true ->
  Packed.toString L b =
    ((if (sign b >? 0)%Z then EmptyString else "-") ++
     (if (top =? 0)%Z then "0" else decimal_digits (Z.to_nat L) top) ++
     Packed.groups L (rev below))%string.
Proof.
  intros HL N Ht Rb. unfold Packed.toString. rewrite N.
  rewrite rev_app_distr. cbn [rev app fold_left String.length Nat.eqb append].
  assert (H : Packed.group_loop (Z.to_nat L) top EmptyString true
              = (if (top =? 0)%Z then "0" else decimal_digits (Z.to_nat L) top)%string).
  { destruct (Z.eqb_spec top 0) as [->|Nz].
    - destruct (Z.to_nat L) eqn:E; [lia|reflexivity].
    - rewrite group_loop_first, append_nil_r; [reflexivity|].
      rewrite Z2Nat.id by lia. unfold Packed.base in Ht. lia. }
  rewrite H, packed_fold_groups.
  - destruct (sign b >? 0); reflexivity.
  - destruct (Z.eqb_spec top 0); [discriminate|].
    apply (decimal_digits_spec (Z.to_nat L) top).
    rewrite Z2Nat.id by lia. unfold Packed.base in Ht. lia.
  - rewrite <- packed_in_range_rev in Rb. unfold Packed.in_range in Rb.
    rewrite forallb_forall in *. intros x Hx. specialize (Rb x Hx).
    apply andb_true_iff in Rb. apply Rb.
Qed.

Lemma decimal_digits_length k :
  forall v j, 0 <= v < 10 ^ Z.of_nat j ->
  (String.length (decimal_digits k v) <= j)%nat.
Proof.
  induction k as [|k IH]; intros v j Hv; cbn [decimal_digits String.length];
    [lia|].
  destruct (Z.eqb_spec v 0) as [E|E]; [cbn; lia|].
  destruct j as [|j]; [change (10 ^ Z.of_nat 0) with 1 in Hv; lia|].
  pose proof (Z.mod_pos_bound v 10 ltac:(lia)) as Hm.
  rewrite number_toString_digit, string_length_append by lia.
  cbn [String.length]. specialize (IH (v / 10) j).
  assert (0 <= v / 10 < 10 ^ Z.of_nat j).
  { split; [apply Z.div_pos; lia|].
    apply Z.div_lt_upper_bound; [lia|].
    rewrite Nat2Z.inj_succ, Z.pow_succ_r in Hv by lia. lia. }
  specialize (IH ltac:(assumption)). lia.
Qed.

Lemma decimal_value_bound cs :
  forallb is_digit cs = true ->
  0 <= decimal_value cs < 10 ^ Z.of_nat (List.length cs).
Proof.
  induction cs as [|c cs IH]; cbn [forallb decimal_value List.length].
  - intros _. change (10 ^ Z.of_nat 0) with 1. lia.
  - rewrite andb_true_iff. intros [Hc Hd]. specialize (IH Hd).
    destruct (is_digit_char c Hc) as (B & _).
    rewrite Nat2Z.inj_succ, Z.pow_succ_r by lia. lia.
Qed.

Lemma string_value_bound t :
  all_digits t = true ->
  0 <= string_value t < 10 ^ Z.of_nat (String.length t).
Proof.
  intros A. unfold string_value.
  rewrite <- length_list_ascii, <- length_rev.
  apply decimal_value_bound. rewrite forallb_rev. exact A.
Qed.

Lemma drop_zeros_prefix (a b : string) :
  a <> EmptyString -> drop_zeros a = a -> drop_zeros (a ++ b) = (a ++ b)%string.
Proof.
  destruct a as [|c a]; [congruence|]. intros _. cbn [drop_zeros append].
  destruct (Ascii.eqb_spec c "0") as [->|N]; [|reflexivity].
  intros H. exfalso.
  assert (L : forall s, (String.length (drop_zeros s) <= String.length s)%nat).
  { induction s as [|x s IH]; cbn [drop_zeros String.length]; [lia|].
    destruct (Ascii.eqb x "0"); cbn [String.length]; lia. }
  specialize (L a). rewrite H in L. cbn [String.length] in L. lia.
Qed.

(** Two texts of digits in normal form with the same decimal value are
    the same text. *)
Lemma normal_form_unique t u :
  all_digits t = true -> all_digits u = true ->
  drop_zeros t = t -> drop_zeros u = u ->
  string_value t = string_value u -> t = u.
Proof.
  intros At Au Dt Du E.
  pose proof (string_value_bound t At) as Bt.
  pose proof (string_value_bound u Au) as Bu.
  set (k := Nat.max (String.length t) (String.length u)).
  assert (Kt : string_value t < 10 ^ Z.of_nat k).
  { apply Z.lt_le_trans with (m := 10 ^ Z.of_nat (String.length t)); [lia|].
    apply Z.pow_le_mono_r; lia. }
  assert (Ku : string_value u < 10 ^ Z.of_nat k).
  { apply Z.lt_le_trans with (m := 10 ^ Z.of_nat (String.length u)); [lia|].
    apply Z.pow_le_mono_r; lia. }
  rewrite <- Dt, <- Du.
  rewrite <- (decimal_digits_string t At k Kt).
  rewrite <- (decimal_digits_string u Au k Ku).
  rewrite E. reflexivity.
Qed.

Lemma normalize_cases t :
  all_digits t = true -> t <> EmptyString -> normalize t = t ->
  t = "0"%string \/ drop_zeros t = t.
Proof.
  intros A N H. destruct t as [|c t']; [congruence|].
  assert (C : is_digit c = true).
  { unfold all_digits in A. cbn [list_ascii_of_string forallb] in A.
    apply andb_true_iff in A. apply A. }
  pose proof (digit_not_sign c C) as S. apply orb_false_iff in S as [S1 S2].
  unfold normalize in H. rewrite S1, S2 in H.
  destruct (drop_zeros (String c t')) as [|d r] eqn:E.
  - left. symmetry. exact H.
  - right. exact H.
Qed.

(** The text of the value that the constructor packs from digits in
    normal form is these digits. *)
Lemma packed_digits_text L t sgn :
  0 < L -> t <> EmptyString -> all_digits t = true -> normalize t = t ->
  exists l,
    Packed.string_loop L (rev (list_ascii_of_string t)) [] 0 = Some l /\
    Packed.toString L (mkBigNumber (Limbs l) sgn None)
      = ((if (sgn >? 0)%Z then EmptyString else "-") ++ t)%string.
Proof.
  intros HL Ne A Nf.
  destruct (packed_string_loop_spec L (rev (list_ascii_of_string t)) HL)
    with (number := @nil Z) (k := 0) as (l & E & R & M & Len);
    [rewrite forallb_rev; exact A|lia|reflexivity|reflexivity
    |cbn [List.length]; lia|].
  exists l. split; [exact E|].
  cbn [Packed.mag] in M. rewrite Z.pow_0_r, Z.add_0_l, Z.mul_1_l in M.
  fold (string_value t) in M.
  rewrite length_rev, length_list_ascii in Len.
  assert (Lt : (1 <= String.length t)%nat) by (destruct t; [congruence|cbn; lia]).
  destruct (exists_last (l := l)) as (below & top & ->).
  { intros ->. cbn [List.length] in Len. lia. }
  rewrite packed_in_range_app in R. apply andb_true_iff in R as [Rb Rt].
  cbn [Packed.in_range forallb] in Rt. rewrite andb_true_r in Rt.
  apply andb_true_iff in Rt as [T0 T1]. apply Z.leb_le in T0. apply Z.ltb_lt in T1.
  rewrite (packed_toString_spec L (mkBigNumber (Limbs (below ++ [top])) sgn None)
             below top HL eq_refl (conj T0 T1) Rb).
  cbn [sign]. f_equal.
  rewrite length_app, Nat2Z.inj_add in Len. cbn [List.length] in Len.
  rewrite packed_mag_app, packed_base_pow in M by lia. cbn [Packed.mag] in M.
  destruct (packed_groups_spec L (rev below) HL) as (G1 & G2 & G3);
    [rewrite packed_in_range_rev; exact Rb|].
  rewrite rev_involutive in G2. rewrite length_rev in G3.
  pose proof (packed_mag_nonneg L below HL Rb) as Mb.
  pose proof (packed_mag_bound L below HL Rb) as Bb.
  rewrite packed_base_pow in Bb by lia.
  assert (P0 : 0 < 10 ^ (L * Z.of_nat (List.length below)))
    by (apply Z.pow_pos_nonneg; nia).
  destruct (normalize_cases t A Ne Nf) as [->|Dz].
  - (* the text of zero *)
    change (string_value "0") with 0 in M. cbn [String.length] in Len.
    assert (List.length below = 0%nat) by nia.
    destruct below; [|discriminate].
    assert (top = 0) by nia. subst top. reflexivity.
  - assert (Vz : string_value t <> 0).
    { intros Z0. apply (string_value_zero t A) in Z0. rewrite Z0 in Dz.
      apply Ne. symmetry. exact Dz. }
    assert (Tz : top <> 0).
    { intros ->.
      assert (V : 0 <= string_value t
                  < 10 ^ Z.of_nat (Z.to_nat (L * Z.of_nat (List.length below))))
        by (rewrite Z2Nat.id by nia; lia).
      pose proof (decimal_digits_length
                    (Z.to_nat (L * Z.of_nat (List.length below)))
                    (string_value t) _ V) as Hl.
      rewrite (decimal_digits_string t A) in Hl by apply V.
      rewrite Dz in Hl. apply Nat2Z.inj_le in Hl.
      rewrite Z2Nat.id in Hl by nia. lia. }
    destruct (Z.eqb_spec top 0) as [?|_]; [contradiction|].
    destruct (decimal_digits_spec (Z.to_nat L) top) as (D1 & D2 & D3 & D4).
    { rewrite Z2Nat.id by lia. unfold Packed.base in T1. lia. }
    symmetry. apply normal_form_unique.
    + exact A.
    + rewrite all_digits_app, D1, G1. reflexivity.
    + exact Dz.
    + apply drop_zeros_prefix; assumption.
    + rewrite string_value_app, D2, G2, G3, <- M. ring.
Qed.

(** X28: the constructor of the engine on a power of ten, on a string
    that is not empty: digits only, after an optional sign, are packed
    into limbs in range whose value is the decimal value of the digits,
    [log10base] digits to a limb; a character that is no digit gives the
    error state of an invalid number; the sign is that of the string in
    both cases. *)
Theorem packed_constructor (L : Z) (s : string) :
  0 < L -> s <> EmptyString ->
  if all_digits (digits_part s)
  then exists l,
         Packed.of_string L s = mkBigNumber (Limbs l) (sign_part s) None /\
         Packed.in_range L l = true /\
         Packed.mag L l = string_value (digits_part s) /\
         Z.of_nat (String.length (digits_part s))
           <= L * Z.of_nat (List.length l)
           < Z.of_nat (String.length (digits_part s)) + L
  else Packed.of_string L s = mkBigNumber (Sentinel invalid) (sign_part s) None.
Proof.
  intros HL Ne. destruct s as [|c t]; [congruence|].
  assert (S : (if Ascii.eqb c "-" || Ascii.eqb c "+"
               then (if Ascii.eqb c "+" then 1 else -1, t)
               else (1, String c t))
              = (sign_part (String c t), digits_part (String c t))).
  { unfold sign_part, digits_part.
    destruct (Ascii.eqb_spec c "-") as [->|Hm]; [reflexivity|].
    destruct (Ascii.eqb_spec c "+") as [->|Hp]; reflexivity. }
  unfold Packed.of_string, Packed.of_text. rewrite S.
  set (d := digits_part (String c t)).
  destruct (all_digits d) eqn:A.
  - destruct (packed_string_loop_spec L (rev (list_ascii_of_string d)) HL)
      with (number := @nil Z) (k := 0) as (l & E & R & M & Len);
      [rewrite forallb_rev; exact A|lia|reflexivity|reflexivity
      |cbn [List.length]; lia|].
    exists l. rewrite E. split; [reflexivity|]. split; [exact R|].
    cbn [Packed.mag] in M. rewrite Z.pow_0_r, Z.add_0_l, Z.mul_1_l in M.
    rewrite length_rev, length_list_ascii in Len.
    split; [exact M|lia].
  - rewrite packed_string_loop_invalid by (rewrite forallb_rev; exact A).
    reflexivity.
Qed.

Lemma packed_constructor_witness :
  exists l,
    Packed.of_string 7 "-123456789012345" = mkBigNumber (Limbs l) (-1) None /\
    Packed.in_range 7 l = true /\
    Packed.mag 7 l = 123456789012345.
Proof.
  pose proof (packed_constructor 7 "-123456789012345") as H.
  cbv beta iota in H.
  destruct H as (l & H1 & H2 & H3 & _); [lia|discriminate|].
  exists l. split; [exact H1|]. split; [exact H2|exact H3].
Defined.

(** X29: in the engine on a power of ten the text of the value made from
    a decimal string whose digits are in normal form (no zero in front,
    but the one digit of zero) is the string itself, without its plus
    sign if it has one. *)
Theorem packed_round_trip (L : Z) (s : string) :
  0 < L -> valid_decimal s = true ->
  normalize (digits_part s) = digits_part s ->
  Packed.toString L (Packed.of_string L s)
    = ((if (sign_part s =? -1)%Z then "-" else EmptyString)
       ++ digits_part s)%string.
Proof.
  intros HL V Nf. destruct s as [|c t]; [discriminate|].
  assert (S : (if Ascii.eqb c "-" || Ascii.eqb c "+"
               then (if Ascii.eqb c "+" then 1 else -1, t)
               else (1, String c t))
              = (sign_part (String c t), digits_part (String c t))).
  { unfold sign_part, digits_part.
    destruct (Ascii.eqb_spec c "-") as [->|Hm]; [reflexivity|].
    destruct (Ascii.eqb_spec c "+") as [->|Hp]; reflexivity. }
  assert (D : digits_part (String c t) <> EmptyString /\
              all_digits (digits_part (String c t)) = true).
  { unfold valid_decimal in V. cbn [digits_part].
    destruct (Ascii.eqb c "-" || Ascii.eqb c "+").
    - destruct t; [discriminate|]. split; [discriminate|exact V].
    - split; [discriminate|exact V]. }
  destruct D as [Ne A].
  unfold Packed.of_string, Packed.of_text. rewrite S.
  destruct (packed_digits_text L _ (sign_part (String c t)) HL Ne A Nf)
    as (l & E & T).
  rewrite E, T. f_equal.
  unfold sign_part. destruct (Ascii.eqb c "-"); reflexivity.
Qed.

Lemma packed_round_trip_witness :
  Packed.toString 7 (Packed.of_string 7 "-123456789012345")
    = "-123456789012345"%string.
Proof.
  apply (packed_round_trip 7 "-123456789012345"); [lia|reflexivity|reflexivity].
Defined.

(** Zeros in front are not always taken away: a limb of zeros at the top
    is written as one zero. *)
Example packed_leading_zeros :
  Packed.toString 7 (Packed.of_string 7 "0012") = "12"%string /\
  Packed.toString 7 (Packed.of_string 7 "0001234567") = "01234567"%string.
Proof. split; vm_compute; reflexivity. Qed.

Lemma packed_same_value L a :
  0 < L ->
  forall b,
  Packed.in_range L a = true -> Packed.in_range L b = true ->
  List.length a = List.length b -> Packed.mag L a = Packed.mag L b -> a = b.
Proof.
  intros HL. pose proof (packed_base_ge L HL) as HB.
  induction a as [|x a IH]; intros [|y b] Ha Hb Hlen Hm;
    try discriminate; auto.
  cbn [Packed.in_range forallb] in Ha, Hb.
  apply andb_true_iff in Ha as [Hx Ha]. apply andb_true_iff in Hb as [Hy Hb].
  apply andb_true_iff in Hx as [X0 X1]. apply andb_true_iff in Hy as [Y0 Y1].
  apply Z.leb_le in X0, Y0. apply Z.ltb_lt in X1, Y1.
  cbn [Packed.mag] in Hm. injection Hlen as Hlen.
  assert (x = y).
  { assert (E : (x + Packed.base L * Packed.mag L a) mod Packed.base L
                = (y + Packed.base L * Packed.mag L b) mod Packed.base L)
      by congruence.
    rewrite !(Z.mul_comm (Packed.base L)), !Z.mod_add, !Z.mod_small in E by lia.
    exact E. }
  subst y. f_equal. apply IH; auto. nia.
Qed.

Lemma string_length_pos (a : string) :
  a <> EmptyString -> (1 <= String.length a)%nat.
Proof. destruct a; [congruence|cbn; lia]. Qed.

(** X30: the engine on a power of ten has no branch for an instance in
    its constructor: the instance is copied through its text.  For an
    instance with one limb or more, all of them in range, the copy has
    the same limbs and the same sign, and no [rest]. *)
Theorem packed_copy (L : Z) (b : BigNumber) (l : list Z) :
  0 < L -> number b = Limbs l -> l <> [] -> Packed.in_range L l = true ->
  sign b = 1 \/ sign b = -1 ->
  Packed.of_instance L b = mkBigNumber (Limbs l) (sign b) None.
Proof.
  intros HL N Ne R S.
  destruct (exists_last Ne) as (below & top & ->).
  rewrite packed_in_range_app in R. apply andb_true_iff in R as [Rb Rt].
  cbn [Packed.in_range forallb] in Rt. rewrite andb_true_r in Rt.
  apply andb_true_iff in Rt as [T0 T1]. apply Z.leb_le in T0. apply Z.ltb_lt in T1.
  unfold Packed.of_instance.
  rewrite (packed_toString_spec L b below top HL N (conj T0 T1) Rb).
  set (head := (if (top =? 0)%Z then "0"
                else decimal_digits (Z.to_nat L) top)%string).
  set (D := (head ++ Packed.groups L (rev below))%string).
  destruct (packed_groups_spec L (rev below) HL) as (G1 & G2 & G3);
    [rewrite packed_in_range_rev; exact Rb|].
  rewrite rev_involutive in G2. rewrite length_rev in G3.
  assert (H : all_digits head = true /\ string_value head = top /\
              head <> EmptyString /\
              1 <= Z.of_nat (String.length head) <= L).
  { unfold head. destruct (Z.eqb_spec top 0) as [->|Tz].
    - repeat split; try discriminate; cbn [String.length]; lia.
    - assert (B : 0 < top < 10 ^ Z.of_nat (Z.to_nat L))
        by (rewrite Z2Nat.id by lia; unfold Packed.base in T1; lia).
      destruct (decimal_digits_spec (Z.to_nat L) top B) as (D1 & D2 & _ & D4).
      pose proof (decimal_digits_length (Z.to_nat L) top (Z.to_nat L)
                    ltac:(lia)) as Hl.
      pose proof (string_length_pos _ D4).
      repeat split; auto; lia. }
  destruct H as (H1 & H2 & H3 & H4).
  assert (AD : all_digits D = true)
    by (unfold D; rewrite all_digits_app, H1, G1; reflexivity).
  assert (VD : string_value D = Packed.mag L (below ++ [top])).
  { unfold D. rewrite string_value_app, H2, G2, G3, packed_mag_app,
      packed_base_pow by lia. cbn [Packed.mag]. ring. }
  assert (LD : Z.of_nat (String.length D)
               = Z.of_nat (String.length head) + L * Z.of_nat (List.length below)).
  { unfold D. rewrite string_length_append, Nat2Z.inj_add, G3. reflexivity. }
  destruct (packed_string_loop_spec L (rev (list_ascii_of_string D)) HL)
    with (number := @nil Z) (k := 0) as (l' & E & R' & M' & Len');
    [rewrite forallb_rev; exact AD|lia|reflexivity|reflexivity
    |cbn [List.length]; lia|].
  cbn [Packed.mag] in M'. rewrite Z.pow_0_r, Z.add_0_l, Z.mul_1_l in M'.
  fold (string_value D) in M'.
  rewrite length_rev, length_list_ascii in Len'.
  assert (Eq : l' = below ++ [top]).
  { apply (packed_same_value L); auto.
    - rewrite packed_in_range_app, Rb. cbn [Packed.in_range forallb andb].
      rewrite andb_true_r. apply andb_true_iff.
      split; [apply Z.leb_le|apply Z.ltb_lt]; assumption.
    - rewrite length_app. cbn [List.length].
      assert (Z.of_nat (List.length below) < Z.of_nat (List.length l'))
        by (apply (Z.mul_lt_mono_pos_l L); lia).
      assert (Z.of_nat (List.length l') < Z.of_nat (List.length below) + 2)
        by (apply (Z.mul_lt_mono_pos_l L); lia).
      lia.
    - congruence. }
  assert (DF : exists c t, D = String c t /\
                 Ascii.eqb c "-" || Ascii.eqb c "+" = false).
  { unfold D. destruct head as [|c t] eqn:Eh; [congruence|].
    cbn [append]. do 2 eexists. split; [reflexivity|].
    apply digit_not_sign. unfold all_digits in H1.
    cbn [list_ascii_of_string forallb] in H1.
    apply andb_true_iff in H1. apply H1. }
  destruct DF as (c & t & ED & NS).
  unfold Packed.of_text.
  destruct S as [S|S]; rewrite S.
  - change (1 >? 0) with true. cbv iota. cbn [append].
    fold D. rewrite ED, NS, <- ED, E, Eq. reflexivity.
  - change (-1 >? 0) with false. cbv iota. cbn [append].
    fold D.
    change (Ascii.eqb "-" "-") with true. cbn [orb].
    change (Ascii.eqb "-" "+") with false. cbv iota.
    rewrite E, Eq. reflexivity.
Qed.

Lemma packed_copy_witness :
  Packed.of_instance 7 (mkBigNumber (Limbs [9012345; 2345678; 1]) (-1)
                                    (Some zero))
    = mkBigNumber (Limbs [9012345; 2345678; 1]) (-1) None.
Proof.
  apply (packed_copy 7 (mkBigNumber (Limbs [9012345; 2345678; 1]) (-1)
                                    (Some zero)));
    [lia|reflexivity|discriminate|reflexivity|right; reflexivity].
Defined.
